(** * Vehicle Image Generator: a shallow embedding and its properties

    The repository holds two revisions of one Node.js script:

    - [src/VehicleImageGenerator.js], embedded as [Module VehicleImageGenerator];
    - [src/unnamed/part_000], the revision with an overwrite flag and a
      regeneration mode, embedded as [Module Part000].

    Both talk to two remote services: a tabular store (table [vehicle]) and
    an image provider.  The services are outside the repository; they are
    modelled below by a table held in the world and by oracles that decide,
    call by call, whether a request fails and what the provider answers. *)

From Stdlib Require Import ZArith List String Ascii Bool Arith Lia.
From Stdlib Require Import DecimalString Permutation Sorted.
Import ListNotations.

Open Scope list_scope.
Open Scope string_scope.

(** ** JavaScript values used by the script *)

Definition nl : string := String (ascii_of_nat 10) EmptyString.
Definition dquote : string := String (ascii_of_nat 34) EmptyString.

(** Template-literal interpolation of numbers. *)
Definition string_of_nat (n : nat) : string :=
  NilZero.string_of_uint (Nat.to_uint n).
Definition string_of_Z (z : Z) : string :=
  NilZero.string_of_int (Z.to_int z).

(** [Array.prototype.join]. *)
Definition join (sep : string) (l : list string) : string := String.concat sep l.

(** Truthiness of a value that is [undefined]/[null] or a string. *)
Definition truthy (v : option string) : bool :=
  match v with
  | None => false
  | Some EmptyString => false
  | Some (String _ _) => true
  end.

(** A row of the table [vehicle].  [updated_at] is the instant of the last
    write; the script produces it with [new Date().toISOString()], the
    rendering of the instant is left out.  [id] is the identifier as the
    store holds it; the script holds it as a JavaScript number, see
    [isSafeInteger] below. *)
Record vehicle := mkVehicle {
  id : Z;
  vehicletype : string;
  vehiclegraphic : option string;
  updated_at : nat
}.

(** The script receives an identifier as a number parsed from the answer of
    the store and names the row to write by that number.  An integer that
    [Number.isSafeInteger] accepts makes the trip unchanged; a larger one
    can come back as a neighbour (2^53 + 1 is read as 2^53).  The embedding
    carries identifiers exactly, which is what the script does on safe
    identifiers: the properties that follow an identifier from a selection
    to a write are stated for tables of safe identifiers ([safe_ids]). *)
Definition MAX_SAFE_INTEGER : Z := 2 ^ 53 - 1.

Definition isSafeInteger (z : Z) : bool :=
  (- MAX_SAFE_INTEGER <=? z)%Z && (z <=? MAX_SAFE_INTEGER)%Z.

Definition safe_ids (t : list vehicle) : Prop :=
  Forall (fun r => isSafeInteger (id r) = true) t.

(** Values that are thrown. *)
Inductive js_error :=
| Error (message : string)          (* new Error(message) *)
| TypeError (message : string)      (* raised by the engine *)
| PostgrestError (message : string) (* the error member of a store response *)
| APIError (message : string).      (* rejection of a provider call *)

(** The argument of [openai.images.generate]. *)
Record ImageRequest := mkImageRequest {
  model : string;
  prompt : string;
  size : string;
  quality : string;
  style : string;
  n : nat
}.

Record image := mkImage { url : string }.

(** What the store client resolves to: the script destructures
    [{ data, error, count }] and tests [error] itself, the client does not
    reject. *)
Record response (A : Type) := mkResponse {
  data : option A;
  error : option js_error;
  count : option nat
}.
Arguments mkResponse {A}.
Arguments data {A}.
Arguments error {A}.
Arguments count {A}.

(** ** The world *)

(** Everything observable that the script does, in order. *)
Inductive event :=
| console_log (msg : string)
| console_error (msg : string) (e : option js_error)
| store_probe                       (* select('*', {count:'exact'}).limit(1) *)
| store_single (vid : Z)            (* select(..).eq('id', vid).single() *)
| store_is_null                     (* select('*').is('vehiclegraphic', null) *)
| store_ordered                     (* select('*').order('id', {ascending:true}) *)
| store_update (vid : Z) (u : string) (ts : nat)
| models_list
| images_generate (req : ImageRequest)
| set_timeout (ms : nat).

(** The part of the environment the script cannot change: the process
    environment and the behaviour of the two services.  Remote calls are
    numbered in the order they are issued ([tick]); the oracles say what
    happens to call number [k]. *)
Record Remote := mkRemote {
  process_env : string -> option string;
  store_fault : nat -> option string;
  models_fault : nat -> option string;
  images_reply : nat -> ImageRequest -> string + list image
}.

Record World := mkWorld {
  table : list vehicle;
  clock : nat;
  tick : nat;
  trace : list event
}.

Definition emit (e : event) (w : World) : World :=
  mkWorld (table w) (clock w) (tick w) (trace w ++ [e])%list.

Definition next_call (w : World) : World :=
  mkWorld (table w) (clock w) (S (tick w)) (trace w).

Definition set_table (t : list vehicle) (w : World) : World :=
  mkWorld t (clock w) (tick w) (trace w).

Definition advance (ms : nat) (w : World) : World :=
  mkWorld (table w) (clock w + ms) (tick w) (trace w).

(** ** Async functions: state and exceptions *)

Inductive outcome (A : Type) :=
| Return (a : A)
| Throw (e : js_error).
Arguments Return {A}.
Arguments Throw {A}.

Definition M (A : Type) : Type := Remote -> World -> outcome A * World.

Definition ret {A} (a : A) : M A := fun _ w => (Return a, w).

Definition throw {A} (e : js_error) : M A := fun _ w => (Throw e, w).

Definition bind {A B} (m : M A) (k : A -> M B) : M B :=
  fun R w =>
    match m R w with
    | (Return a, w') => k a R w'
    | (Throw e, w') => (Throw e, w')
    end.

Definition try_catch {A} (body : M A) (handler : js_error -> M A) : M A :=
  fun R w =>
    match body R w with
    | (Return a, w') => (Return a, w')
    | (Throw e, w') => handler e R w'
    end.

Declare Scope js_scope.
Delimit Scope js_scope with js.
Notation "x <- c1 ;; c2" := (bind c1 (fun x => c2))
  (at level 61, c1 at next level, right associativity) : js_scope.
Notation "c1 ;; c2" := (bind c1 (fun _ => c2))
  (at level 61, right associativity) : js_scope.
Open Scope js_scope.

Definition when (b : bool) (m : M unit) : M unit := if b then m else ret tt.

(** ** Primitives *)

Definition log (msg : string) : M unit :=
  fun _ w => (Return tt, emit (console_log msg) w).

Definition log_error (msg : string) (e : option js_error) : M unit :=
  fun _ w => (Return tt, emit (console_error msg e) w).

Definition getenv (name : string) : M (option string) :=
  fun R w => (Return (process_env R name), w).

(** [new Date()]: the current instant. *)
Definition Date_now : M nat := fun _ w => (Return (clock w), w).

(** [await new Promise(resolve => setTimeout(resolve, ms))]. *)
Definition sleep (ms : nat) : M unit :=
  fun _ w => (Return tt, advance ms (emit (set_timeout ms) w)).

(** *** The store *)

Definition failed {A} (msg : string) : response A :=
  mkResponse None (Some (PostgrestError msg)) None.

Definition rows_with_id (vid : Z) (t : list vehicle) : list vehicle :=
  filter (fun r => Z.eqb (id r) vid) t.

Definition write_image (vid : Z) (u : string) (ts : nat) (r : vehicle) : vehicle :=
  if Z.eqb (id r) vid then mkVehicle (id r) (vehicletype r) (Some u) ts else r.

Definition is_null (v : option string) : bool :=
  match v with None => true | Some _ => false end.

Fixpoint insert_by_id (r : vehicle) (l : list vehicle) : list vehicle :=
  match l with
  | [] => [r]
  | x :: l' => if Z.leb (id r) (id x) then r :: l else x :: insert_by_id r l'
  end.

Definition order_by_id (t : list vehicle) : list vehicle :=
  fold_right insert_by_id [] t.

(** A store request: it is recorded, it consumes one call number, and the
    oracle decides whether it fails. *)
Definition store_call {A} (ev : event) (ok : World -> response A * World)
  : M (response A) :=
  fun R w =>
    let w1 := next_call (emit ev w) in
    match store_fault R (tick w) with
    | Some msg => (Return (failed msg), w1)
    | None => let (resp, w2) := ok w1 in (Return resp, w2)
    end.

(** [from('vehicle').select('*', { count: 'exact' }).limit(1)] *)
Definition select_count_limit1 : M (response (list vehicle)) :=
  store_call store_probe
    (fun w => (mkResponse (Some (firstn 1 (table w))) None
                 (Some (List.length (table w))), w)).

(** [from('vehicle').select('vehicletype, vehiclegraphic').eq('id', vid).single()]:
    exactly one matching row, or an error and no data. *)
Definition select_single (vid : Z) : M (response vehicle) :=
  store_call (store_single vid)
    (fun w => match rows_with_id vid (table w) with
              | [r] => (mkResponse (Some r) None None, w)
              | _ => (failed "PGRST116", w)
              end).

(** [from('vehicle').select('*').is('vehiclegraphic', null)] *)
Definition select_is_null : M (response (list vehicle)) :=
  store_call store_is_null
    (fun w => (mkResponse
                 (Some (filter (fun r => is_null (vehiclegraphic r)) (table w)))
                 None None, w)).

(** [from('vehicle').select('*').order('id', { ascending: true })] *)
Definition select_order_by_id : M (response (list vehicle)) :=
  store_call store_ordered
    (fun w => (mkResponse (Some (order_by_id (table w))) None None, w)).

(** [from('vehicle').update({ vehiclegraphic: u, updated_at: ts }).eq('id', vid)],
    with [.select()] when [returning]: the rows written come back as data. *)
Definition update_by_id (vid : Z) (u : string) (ts : nat) (returning : bool)
  : M (response (list vehicle)) :=
  store_call (store_update vid u ts)
    (fun w =>
       let t' := map (write_image vid u ts) (table w) in
       (mkResponse (if returning then Some (rows_with_id vid t') else None)
          None None,
        set_table t' w)).

(** *** The provider *)

(** [openai.models.list()] *)
Definition openai_models_list : M unit :=
  fun R w =>
    let w1 := next_call (emit models_list w) in
    match models_fault R (tick w) with
    | Some msg => (Throw (APIError msg), w1)
    | None => (Return tt, w1)
    end.

(** [openai.images.generate(req)]: resolves to the [data] array. *)
Definition openai_images_generate (req : ImageRequest) : M (list image) :=
  fun R w =>
    let w1 := next_call (emit (images_generate req) w) in
    match images_reply R (tick w) req with
    | inl msg => (Throw (APIError msg), w1)
    | inr imgs => (Return imgs, w1)
    end.

(** [response.data[0].url]: element 0 of an empty array is [undefined], and
    reading a property of [undefined] raises a [TypeError]. *)
Definition first_url (imgs : list image) : M string :=
  match nth_error imgs 0 with
  | Some img => ret (url img)
  | None => throw (TypeError "Cannot read properties of undefined (reading 'url')")
  end.

(** *** Small pieces of JavaScript shared by both revisions *)

(** [process.env] *)
Definition process_dot_env : M (string -> option string) :=
  fun R w => (Return (process_env R), w).

(** [if (error) throw error;] *)
Definition throw_if_error {A} (resp : response A) : M unit :=
  match error resp with
  | Some e => throw e
  | None => ret tt
  end.

(** Use of a value as an array ([.length], [.forEach]); [null] has no
    properties. *)
Definition array_of {A} (d : option (list A)) (member : string) : M (list A) :=
  match d with
  | Some l => ret l
  | None => throw (TypeError ("Cannot read properties of null (reading '"
                              ++ member ++ "')"))
  end.

(** [array.forEach(f)] *)
Fixpoint forEach {A} (l : list A) (f : A -> M unit) : M unit :=
  match l with
  | [] => ret tt
  | x :: l' => f x ;; forEach l' f
  end.

Definition requiredVars : list string :=
  ["SUPABASE_URL"; "SUPABASE_ANON_KEY"; "OPENAI_API_KEY"].

Definition indent : string := "        ".

(** ** src/VehicleImageGenerator.js *)

Module VehicleImageGenerator.

Definition generateImagePrompt (vehicletype : string) : string :=
  "A photo-realistic, ultra-detailed image of a " ++ vehicletype
  ++ " in pristine condition, " ++ nl ++ indent
  ++ "captured at a 3/4 front angle on a sleek, modern showroom floor with professional lighting. "
  ++ nl ++ indent
  ++ "The flawless paint reflects perfectly, showcasing chrome accents and tire details. The "
  ++ nl ++ indent
  ++ "background features a soft gray-to-white gradient for depth. High-resolution, showroom-quality, "
  ++ nl ++ indent
  ++ "with no people, text, or logos aside from the manufacturer's badges.".

(** The [for (const varName of requiredVars)] loop of
    [testEnvironmentVariables], with the running value of [allFound]. *)
Fixpoint checkVars (vars : list string) (allFound : bool) : M bool :=
  match vars with
  | [] => ret allFound
  | varName :: rest =>
      env <- process_dot_env ;;
      if truthy (env varName)
      then log ("   " ++ varName ++ ": Found") ;; checkVars rest allFound
      else log ("   " ++ varName ++ ": Missing") ;; checkVars rest false
  end.

Definition testEnvironmentVariables : M bool :=
  log " Checking environment variables..." ;;
  allFound <- checkVars requiredVars true ;;
  when (negb allFound)
    (log (nl ++ " Please check your .env file and ensure all required variables are set.")) ;;
  ret allFound.

Definition testConnection : M bool :=
  try_catch
    (log " Testing database connection..." ;;
     resp <- select_count_limit1 ;;
     throw_if_error resp ;;
     log " Database connection successful!" ;;
     log (" Found "
          ++ string_of_nat (match count resp with Some c => c | None => 0 end)
          ++ " vehicle(s) in database") ;;
     ret true)
    (fun error =>
       log_error " Database connection failed:" (Some error) ;;
       ret false).

Definition testOpenAIConnection : M bool :=
  try_catch
    (log " Testing OpenAI connection..." ;;
     openai_models_list ;;
     log " OpenAI connection successful!" ;;
     ret true)
    (fun error =>
       log_error " OpenAI connection failed:" (Some error) ;;
       ret false).

Definition imageRequest (vehicletype : string) : ImageRequest :=
  mkImageRequest "dall-e-3" (generateImagePrompt vehicletype)
    "1024x1024" "hd" "vivid" 1.

Definition generateVehicleImage (vehicletype : string) : M string :=
  try_catch
    (log (" Generating image for: " ++ vehicletype) ;;
     response <- openai_images_generate (imageRequest vehicletype) ;;
     log (" Image generated successfully for: " ++ vehicletype) ;;
     first_url response)
    (fun error =>
       log_error (" Error generating image for " ++ vehicletype ++ ":") (Some error) ;;
       throw error).

Definition updateVehicleImage (vehicleId : Z) (imageUrl : string)
  : M (option (list vehicle)) :=
  try_catch
    (now <- Date_now ;;
     resp <- update_by_id vehicleId imageUrl now true ;;
     throw_if_error resp ;;
     log (" Database updated for vehicle ID: " ++ string_of_Z vehicleId) ;;
     ret (data resp))
    (fun error =>
       log_error (" Error updating vehicle " ++ string_of_Z vehicleId ++ ":") (Some error) ;;
       throw error).

Definition getVehiclesWithoutImages : M (option (list vehicle)) :=
  try_catch
    (resp <- select_is_null ;;
     throw_if_error resp ;;
     ret (data resp))
    (fun error =>
       log_error " Error fetching vehicle:" (Some error) ;;
       throw error).

(** One turn of the [for] loop of [processAllVehicles]; [len] is
    [vehicles.length], at least 1 whenever the loop runs. *)
Definition processOne (len i : nat) (vehicle : vehicle) : M unit :=
  try_catch
    (log (nl ++ "[" ++ string_of_nat (i + 1) ++ "/" ++ string_of_nat len
          ++ "] Processing: " ++ vehicletype vehicle) ;;
     imageUrl <- generateVehicleImage (vehicletype vehicle) ;;
     updateVehicleImage (id vehicle) imageUrl ;;
     log (" Successfully processed: " ++ vehicletype vehicle) ;;
     when (i <? len - 1)%nat
       (log " Waiting 2 seconds before next request..." ;;
        sleep 2000))
    (fun error =>
       log_error (" Failed to process " ++ vehicletype vehicle ++ ":") (Some error)).

(** The [for] loop from index [i] on; [rest] is [vehicles.slice(i)]. *)
Fixpoint processFrom (len i : nat) (rest : list vehicle) : M unit :=
  match rest with
  | [] => ret tt
  | vehicle :: rest' => processOne len i vehicle ;; processFrom len (S i) rest'
  end.

Definition processAllVehicles : M unit :=
  try_catch
    (log " Starting vehicle processing..." ;;
     envOk <- testEnvironmentVariables ;;
     if negb envOk
     then log_error " Environment variable check failed." None
     else
       dbOk <- testConnection ;;
       openaiOk <- testOpenAIConnection ;;
       if negb dbOk || negb openaiOk
       then log_error " Connection tests failed. Please check your .env file." None
       else
         fetched <- getVehiclesWithoutImages ;;
         vehicles <- array_of fetched "length" ;;
         log (" Found " ++ string_of_nat (List.length vehicles) ++ " vehicle to process") ;;
         if (List.length vehicles =? 0)%nat
         then log " All vehicle already have images!"
         else
           processFrom (List.length vehicles) 0 vehicles ;;
           log (nl ++ " All vehicle processed!"))
    (fun error => log_error "Error in processAllVehicles:" (Some error)).

Definition getAllVehicles : M (option (list vehicle)) :=
  try_catch
    (resp <- select_order_by_id ;;
     throw_if_error resp ;;
     ret (data resp))
    (fun error =>
       log_error "Error fetching all vehicle:" (Some error) ;;
       throw error).

Definition displayOne (vehicle : vehicle) : M unit :=
  let status := if truthy (vehiclegraphic vehicle) then "Generated" else "Missing" in
  log (string_of_Z (id vehicle) ++ ". " ++ vehicletype vehicle) ;;
  log ("   Image: " ++ status) ;;
  when (truthy (vehiclegraphic vehicle))
    (log ("   URL: " ++ match vehiclegraphic vehicle with Some u => u | None => "" end)) ;;
  log "".

Definition displayResults : M unit :=
  try_catch
    (fetched <- getAllVehicles ;;
     log (nl ++ " Final Results:") ;;
     log "=====================================" ;;
     allVehicles <- array_of fetched "forEach" ;;
     forEach allVehicles displayOne)
    (fun error => log_error "Error displaying results:" (Some error)).

Definition main : M unit :=
  log "Vehicle Image Generator Starting..." ;;
  log ("=====================================" ++ nl) ;;
  try_catch
    (processAllVehicles ;;
     displayResults)
    (fun error => log_error "Error in main process:" (Some error)).

End VehicleImageGenerator.

(** ** src/unnamed/part_000 *)

Module Part000.

Definition generateImagePrompt (vehicletype : string) : string :=
  "A photo-realistic, ultra-detailed image of a " ++ vehicletype
  ++ " in pristine condition, " ++ nl ++ indent
  ++ "captured at a 3/4 front angle on a sleek, modern showroom floor with professional lighting. "
  ++ nl ++ indent
  ++ "The flawless paint reflects perfectly, showcasing chrome accents and tire details. The "
  ++ nl ++ indent
  ++ "background features a soft gray-to-white gradient for depth. High-resolution, showroom-quality, "
  ++ nl ++ indent
  ++ "with no people and no text.".

(** [requiredVars.filter(varName => !process.env[varName])] *)
Definition missingVars (env : string -> option string) : list string :=
  filter (fun varName => negb (truthy (env varName))) requiredVars.

Definition testConnections : M bool :=
  try_catch
    (log " Testing connections..." ;;
     env <- process_dot_env ;;
     if (0 <? List.length (missingVars env))%nat
     then
       log_error (" Missing environment variables: " ++ join ", " (missingVars env)) None ;;
       ret false
     else
       select_count_limit1 ;;
       openai_models_list ;;
       log " All connections successful!" ;;
       ret true)
    (fun error =>
       log_error " Connection failed:" (Some error) ;;
       ret false).

Definition imageRequest (vehicletype : string) : ImageRequest :=
  mkImageRequest "dall-e-3" (generateImagePrompt vehicletype)
    "1024x1024" "hd" "vivid" 1.

Definition generateVehicleImage (vehicletype : string) : M string :=
  try_catch
    (log (" Generating image for: " ++ vehicletype) ;;
     response <- openai_images_generate (imageRequest vehicletype) ;;
     log (" Image generated successfully for: " ++ vehicletype) ;;
     first_url response)
    (fun error =>
       log_error (" Error generating image for " ++ vehicletype ++ ":") (Some error) ;;
       throw error).

Definition updateVehicleImage (vehicleId : Z) (imageUrl : string) (forceUpdate : bool)
  : M bool :=
  try_catch
    (resp <- select_single vehicleId ;;
     match data resp with
     | None => throw (Error ("Vehicle ID " ++ string_of_Z vehicleId ++ " not found"))
     | Some current =>
         if truthy (vehiclegraphic current) && negb forceUpdate
         then
           log (" Vehicle " ++ dquote ++ vehicletype current ++ dquote
                ++ " already has an image. Use forceUpdate=true to override.") ;;
           ret false
         else
           now <- Date_now ;;
           written <- update_by_id vehicleId imageUrl now false ;;
           throw_if_error written ;;
           let action := if truthy (vehiclegraphic current) then "Updated" else "Added" in
           log (" " ++ action ++ " image for: " ++ vehicletype current) ;;
           ret true
     end)
    (fun error =>
       log_error ("Error updating vehicle " ++ string_of_Z vehicleId ++ ":") (Some error) ;;
       throw error).

Definition getAllVehicles : M (option (list vehicle)) :=
  try_catch
    (resp <- select_order_by_id ;;
     throw_if_error resp ;;
     ret (data resp))
    (fun error =>
       log_error "Error fetching all vehicle:" (Some error) ;;
       throw error).

Definition getVehiclesWithoutImages : M (option (list vehicle)) :=
  try_catch
    (resp <- select_is_null ;;
     throw_if_error resp ;;
     ret (data resp))
    (fun error =>
       log_error " Error fetching vehicle:" (Some error) ;;
       throw error).

(** One turn of the [for] loop of [processVehicles]; [len] is
    [vehicles.length], at least 1 whenever the loop runs. *)
Definition processOne (onlyMissing : bool) (len i : nat) (vehicle : vehicle) : M unit :=
  try_catch
    (log (nl ++ "[" ++ string_of_nat (i + 1) ++ "/" ++ string_of_nat len
          ++ "] Processing: " ++ vehicletype vehicle) ;;
     imageUrl <- generateVehicleImage (vehicletype vehicle) ;;
     updateVehicleImage (id vehicle) imageUrl (negb onlyMissing) ;;
     when (i <? len - 1)%nat
       (log " Waiting 2 seconds..." ;;
        sleep 2000))
    (fun error =>
       log_error (" Failed to process " ++ vehicletype vehicle ++ ":") (Some error)).

(** The [for] loop from index [i] on; [rest] is [vehicles.slice(i)]. *)
Fixpoint processFrom (onlyMissing : bool) (len i : nat) (rest : list vehicle) : M unit :=
  match rest with
  | [] => ret tt
  | vehicle :: rest' =>
      processOne onlyMissing len i vehicle ;;
      processFrom onlyMissing len (S i) rest'
  end.

Definition processVehicles (onlyMissing : bool) : M unit :=
  ok <- testConnections ;;
  if negb ok then ret tt
  else
    fetched <- (if onlyMissing then getVehiclesWithoutImages else getAllVehicles) ;;
    let action := if onlyMissing then "without images" else "for regeneration" in
    vehicles <- array_of fetched "length" ;;
    log (" Found " ++ string_of_nat (List.length vehicles) ++ " vehicles " ++ action) ;;
    if (List.length vehicles =? 0)%nat
    then log (if onlyMissing then " All vehicles already have images!"
              else " No vehicles found")
    else
      processFrom onlyMissing (List.length vehicles) 0 vehicles ;;
      let completionMsg :=
        if onlyMissing then "missing images processed" else "images regenerated" in
      log (nl ++ " All " ++ completionMsg ++ "!").

Definition processOnlyMissingImages : M unit := processVehicles true.

Definition regenerateAllImages : M unit := processVehicles false.

Definition displayOne (vehicle : vehicle) : M unit :=
  let status := if truthy (vehiclegraphic vehicle) then "Generated" else "Missing" in
  log (string_of_Z (id vehicle) ++ ". " ++ vehicletype vehicle) ;;
  log ("   Image: " ++ status) ;;
  when (truthy (vehiclegraphic vehicle))
    (log ("   URL: " ++ match vehiclegraphic vehicle with Some u => u | None => "" end)) ;;
  log "".

Definition displayResults : M unit :=
  try_catch
    (fetched <- getAllVehicles ;;
     log (nl ++ " Final Results:") ;;
     log "=====================================" ;;
     allVehicles <- array_of fetched "forEach" ;;
     forEach allVehicles displayOne)
    (fun error => log_error "Error displaying results:" (Some error)).

Definition main : M unit :=
  log "Vehicle Image Generator Starting..." ;;
  log ("=====================================" ++ nl) ;;
  try_catch
    (fetched <- getVehiclesWithoutImages ;;
     vehiclesWithoutImages <- array_of fetched "length" ;;
     (if (0 <? List.length vehiclesWithoutImages)%nat
      then processOnlyMissingImages
      else
        log "All vehicles have images. Regenerating all..." ;;
        regenerateAllImages) ;;
     displayResults)
    (fun error => log_error "Error in main process:" (Some error)).

End Part000.

(** ** Observations on a trace *)

Definition is_generate (e : event) : bool :=
  match e with images_generate _ => true | _ => false end.

Definition is_update (e : event) : bool :=
  match e with store_update _ _ _ => true | _ => false end.

Definition is_delay (e : event) : bool :=
  match e with set_timeout _ => true | _ => false end.

Definition occurrences (p : event -> bool) (tr : list event) : nat :=
  List.length (filter p tr).

(** The requests sent to the provider, in order. *)
Fixpoint requests (tr : list event) : list ImageRequest :=
  match tr with
  | [] => []
  | images_generate req :: tr' => req :: requests tr'
  | _ :: tr' => requests tr'
  end.

(** ** Sample worlds *)

Definition env_ok (name : string) : option string :=
  if existsb (String.eqb name) requiredVars then Some "set" else None.

Definition one_image (k : nat) (req : ImageRequest) : string + list image :=
  inr [mkImage ("https://img.example/" ++ string_of_nat k ++ ".png")].

(** All variables set, no request fails, the provider returns one image. *)
Definition healthy : Remote :=
  mkRemote env_ok (fun _ => None) (fun _ => None) one_image.

Definition sedan : vehicle := mkVehicle 1 "sedan" None 0.
Definition truck : vehicle := mkVehicle 2 "truck" (Some "http://x/2.png") 0.
Definition coupe : vehicle := mkVehicle 3 "coupe" None 0.

Definition start (t : list vehicle) : World := mkWorld t 1000 0 [].

(** As [healthy], but the provider rejects remote call number 3: in a run
    from [start] that is the first image request (calls 0 to 2 are the two
    reachability checks and the selection). *)
Definition first_request_rejected : Remote :=
  mkRemote env_ok (fun _ => None) (fun _ => None)
    (fun k req => if (k =? 3)%nat then inl "429 Rate limit exceeded"
                  else one_image k req).

(** As [healthy], but the store answers remote call number 0 with an error:
    in a run from [start] that is the reachability check of the store. *)
Definition probe_fails : Remote :=
  mkRemote env_ok (fun k => if (k =? 0)%nat then Some "fetch failed" else None)
    (fun _ => None) one_image.

(** As [healthy], but the store answers remote call number 1 with an error:
    in a run of the entry point of part_000 from [start] that is the
    reachability check of the store, call 0 being the first selection. *)
Definition probe_fails_in_main : Remote :=
  mkRemote env_ok (fun k => if (k =? 1)%nat then Some "fetch failed" else None)
    (fun _ => None) one_image.

(** As [healthy], but the store answers remote call number [k] with an
    error. *)
Definition store_fails_at (k : nat) : Remote :=
  mkRemote env_ok (fun j => if (j =? k)%nat then Some "fetch failed" else None)
    (fun _ => None) one_image.

(** As [healthy], but [OPENAI_API_KEY] is not set. *)
Definition unconfigured : Remote :=
  mkRemote (fun name => if String.eqb name "OPENAI_API_KEY" then None else env_ok name)
    (fun _ => None) (fun _ => None) one_image.

(** A second row with the identifier of [sedan]. *)
Definition sedan_twin : vehicle := mkVehicle 1 "sedan (copy)" None 0.

(** As [healthy], but the provider rejects remote call number 1: in a run
    from [start] that is the reachability check of the provider. *)
Definition provider_down : Remote :=
  mkRemote env_ok (fun _ => None)
    (fun k => if (k =? 1)%nat then Some "401 Incorrect API key" else None)
    one_image.

(** ** Vocabulary of the properties *)

(** A configuration value that is present and not empty. *)
Definition is_set (env : string -> option string) (name : string) : Prop :=
  exists s, env name = Some s /\ s <> "".

(** A stored image reference that is present: a URL, hence not empty. *)
Definition has_image (r : vehicle) : Prop :=
  exists u, vehiclegraphic r = Some u /\ u <> "".

(** The thrown value that reports an unknown identifier. *)
Definition NotFoundError (vid : Z) : js_error :=
  Error ("Vehicle ID " ++ string_of_Z vid ++ " not found").

(** The fixed part of every request to the provider. *)
Definition fixed_configuration (req : ImageRequest) : Prop :=
  model req = "dall-e-3" /\ size req = "1024x1024" /\ quality req = "hd"
  /\ style req = "vivid" /\ n req = 1.

(** ** Relations between the world before and after *)

(** The trace only grows. *)
Definition extends (w w' : World) : Prop :=
  exists evs, trace w' = (trace w ++ evs)%list.

(** The table is the same. *)
Definition same_table (w w' : World) : Prop := table w' = table w.

(** No remote call, no delay: table, call number and clock are the same. *)
Definition local (w w' : World) : Prop :=
  table w' = table w /\ tick w' = tick w /\ clock w' = clock w.

(** No image was requested and no write was sent. *)
Definition no_work (w w' : World) : Prop :=
  occurrences is_generate (trace w') = occurrences is_generate (trace w)
  /\ occurrences is_update (trace w') = occurrences is_update (trace w).

(** Row by row, a row that had an image is the same row afterwards. *)
Definition images_kept (w w' : World) : Prop :=
  Forall2 (fun r r' => has_image r -> r' = r) (table w) (table w').

Definition any_event (e : event) : bool := true.

Definition idle (e : event) : bool := negb (is_generate e || is_update e).

Definition is_console (e : event) : bool :=
  match e with
  | console_log _ | console_error _ _ => true
  | _ => false
  end.

(** The candidate set a run selects from a table: the rows without image
    reference for an incremental run, all rows by ascending identifier for a
    regeneration. *)
Definition candidates (onlyMissing : bool) (t : list vehicle) : list vehicle :=
  if onlyMissing then filter (fun r => is_null (vehiclegraphic r)) t
  else order_by_id t.

(** The turns of the loop, from index [i] on for [k] turns, after which the
    script pauses when the turn ends normally: those before the last index. *)
Definition pauses (len i k : nat) : nat :=
  List.length (filter (fun j => (j <? len - 1)%nat) (seq i k)).

(** Services that never fail: the configuration is complete, the store and
    the provider answer every call, and every answer of the provider holds
    at least one image. *)
Definition reliable (R : Remote) : Prop :=
  (forall name, In name requiredVars -> is_set (process_env R) name)
  /\ (forall k, store_fault R k = None)
  /\ (forall k, models_fault R k = None)
  /\ (forall k req, exists img rest, images_reply R k req = inr (img :: rest)).

(** [r'] is the row [r] with an image reference that the provider returned
    for the prompt of part_000 built from the row's category. *)
Definition fresh_image (R : Remote) (r r' : vehicle) : Prop :=
  id r' = id r /\ vehicletype r' = vehicletype r
  /\ exists k img rest,
       images_reply R k (Part000.imageRequest (vehicletype r)) = inr (img :: rest)
       /\ vehiclegraphic r' = Some (url img).

(** What a run over the records [vs] makes of a table, row by row: a fresh
    image for the rows whose identifier is in [vs], the same row otherwise. *)
Definition processed (R : Remote) (vs : list vehicle) (r r' : vehicle) : Prop :=
  if existsb (Z.eqb (id r)) (map id vs) then fresh_image R r r' else r' = r.

(** What an incremental run makes of a table, row by row. *)
Definition filled (R : Remote) (r r' : vehicle) : Prop :=
  if is_null (vehiclegraphic r) then fresh_image R r r' else r' = r.

(** [r'] is the row [r] up to its image reference and instant: the same
    identifier and category, and a reference that was not [null] is not
    [null]. *)
Definition row_kept (r r' : vehicle) : Prop :=
  id r' = id r /\ vehicletype r' = vehicletype r
  /\ (vehiclegraphic r <> None -> vehiclegraphic r' <> None).

(** The table has the same rows, in the same places, up to references and
    instants. *)
Definition rows_kept (w w' : World) : Prop :=
  Forall2 row_kept (table w) (table w').

(** The lines of the final report for one row: identifier and category, the
    status, the url when there is one, and an empty line. *)
Definition report_lines (r : vehicle) : list event :=
  [console_log (string_of_Z (id r) ++ ". " ++ vehicletype r);
   console_log ("   Image: " ++ if truthy (vehiclegraphic r) then "Generated" else "Missing")]
  ++ match vehiclegraphic r with
     | Some (String a u) => [console_log ("   URL: " ++ String a u)]
     | _ => []
     end
  ++ [console_log ""].


(** Events that are neither an image request, nor a write, nor a pause. *)
Definition passive (e : event) : bool :=
  negb (is_generate e || is_update e || is_delay e).

(** The trace grew by passive events only. *)
Definition passively (w w' : World) : Prop :=
  exists evs, trace w' = (trace w ++ evs)%list /\ forallb passive evs = true.

(** Does a run of part_000 from [w] reach the selection and get an answer:
    complete configuration, the provider passes its check (remote call
    [tick w + 1]), the store answers the selection (remote call
    [tick w + 2])?  The answer of the store to the probe is not looked at. *)
Definition reaches_candidates (R : Remote) (w : World) : bool :=
  match Part000.missingVars (process_env R),
        models_fault R (S (tick w)),
        store_fault R (S (S (tick w))) with
  | [], None, None => true
  | _, _, _ => false
  end.

(** The same for the first revision, which also needs the store to pass its
    check (remote call [tick w]). *)
Definition original_reaches_candidates (R : Remote) (w : World) : bool :=
  forallb (fun name => truthy (process_env R name)) requiredVars
  && match store_fault R (tick w),
           models_fault R (S (tick w)),
           store_fault R (S (S (tick w))) with
     | None, None, None => true
     | _, _, _ => false
     end.

(** [r'] is [r], or [r] with the url of element 0 of an answer of the
    provider to the request [mk] builds for a record of [vs] that has the
    identifier of [r]. *)
Definition written_by (R : Remote) (mk : string -> ImageRequest)
    (vs : list vehicle) (r r' : vehicle) : Prop :=
  r' = r
  \/ exists v k img rest ts,
       In v vs /\ id r = id v
       /\ images_reply R k (mk (vehicletype v)) = inr (img :: rest)
       /\ r' = mkVehicle (id r) (vehicletype r) (Some (url img)) ts.

(** Remote calls are only ever added. *)
Definition later (w w' : World) : Prop := tick w <= tick w'.

(** [fresh_image] for the prompt of the first revision. *)
Definition original_fresh_image (R : Remote) (r r' : vehicle) : Prop :=
  id r' = id r /\ vehicletype r' = vehicletype r
  /\ exists k img rest,
       images_reply R k (VehicleImageGenerator.imageRequest (vehicletype r))
       = inr (img :: rest)
       /\ vehiclegraphic r' = Some (url img).

(** What an incremental run of the first revision makes of a table. *)
Definition original_filled (R : Remote) (r r' : vehicle) : Prop :=
  if is_null (vehiclegraphic r) then original_fresh_image R r r' else r' = r.

(** ** Relations every step of a computation respects *)

(** [keeps rel m]: whatever [m] does, the world after it is related to the
    world before it. *)
Definition keeps (rel : World -> World -> Prop) {A} (m : M A) : Prop :=
  forall R w, rel w (snd (m R w)).

(** * Properties *)

(** ** Reasoning about async functions *)

(** A relation between the world before and after that every step of a
    computation respects. *)
Section Preservation.

Variable rel : World -> World -> Prop.
Hypothesis rel_refl : forall w, rel w w.
Hypothesis rel_trans : forall a b c, rel a b -> rel b c -> rel a c.

Lemma keeps_ret {A} (a : A) : keeps rel (ret a).
Proof. intros R w. apply rel_refl. Qed.

Lemma keeps_throw {A} e : keeps rel (@throw A e).
Proof. intros R w. apply rel_refl. Qed.

Lemma keeps_bind {A B} (m : M A) (k : A -> M B) :
  keeps rel m -> (forall a, keeps rel (k a)) -> keeps rel (bind m k).
Proof.
  intros Hm Hk R w. unfold bind.
  specialize (Hm R w). destruct (m R w) as [[a | e] w1]; simpl in *.
  - eapply rel_trans; [exact Hm | apply Hk].
  - exact Hm.
Qed.

Lemma keeps_try_catch {A} (m : M A) h :
  keeps rel m -> (forall e, keeps rel (h e)) -> keeps rel (try_catch m h).
Proof.
  intros Hm Hh R w. unfold try_catch.
  specialize (Hm R w). destruct (m R w) as [[a | e] w1]; simpl in *.
  - exact Hm.
  - eapply rel_trans; [exact Hm | apply Hh].
Qed.

Lemma keeps_when b m : keeps rel m -> keeps rel (when b m).
Proof. intros Hm. destruct b; simpl; [exact Hm | apply keeps_ret]. Qed.

Lemma keeps_forEach {A} (l : list A) f :
  (forall x, keeps rel (f x)) -> keeps rel (forEach l f).
Proof.
  intros Hf. induction l as [| x l IH]; simpl.
  - apply keeps_ret.
  - apply keeps_bind; [apply Hf | intros _; exact IH].
Qed.

Lemma keeps_throw_if_error {A} (resp : response A) : keeps rel (throw_if_error resp).
Proof.
  unfold throw_if_error. destruct (error resp); [apply keeps_throw | apply keeps_ret].
Qed.

Lemma keeps_array_of {A} (d : option (list A)) s : keeps rel (array_of d s).
Proof. destruct d; simpl; [apply keeps_ret | apply keeps_throw]. Qed.

Lemma keeps_first_url imgs : keeps rel (first_url imgs).
Proof.
  unfold first_url. destruct (nth_error imgs 0); [apply keeps_ret | apply keeps_throw].
Qed.

Lemma keeps_process_dot_env : keeps rel process_dot_env.
Proof. intros R w. apply rel_refl. Qed.

Lemma keeps_Date_now : keeps rel Date_now.
Proof. intros R w. apply rel_refl. Qed.

(** The events the relation does not look at. *)
Variable quiet : event -> bool.
Hypothesis rel_emit : forall e w, quiet e = true -> rel w (emit e w).
Hypothesis rel_next_call : forall w, rel w (next_call w).
Hypothesis rel_advance : forall ms w, rel w (advance ms w).

Lemma keeps_log msg : quiet (console_log msg) = true -> keeps rel (log msg).
Proof. intros Hq R w. simpl. now apply rel_emit. Qed.

Lemma keeps_log_error msg e :
  quiet (console_error msg e) = true -> keeps rel (log_error msg e).
Proof. intros Hq R w. simpl. now apply rel_emit. Qed.

Lemma keeps_sleep ms : quiet (set_timeout ms) = true -> keeps rel (sleep ms).
Proof.
  intros Hq R w. simpl.
  eapply rel_trans; [apply rel_emit; exact Hq | apply rel_advance].
Qed.

Lemma keeps_store_call {A} ev (ok : World -> response A * World) :
  quiet ev = true -> (forall w, rel w (snd (ok w))) -> keeps rel (store_call ev ok).
Proof.
  intros Hq Hok R w. unfold store_call.
  assert (H1 : rel w (next_call (emit ev w))).
  { eapply rel_trans; [apply rel_emit; exact Hq | apply rel_next_call]. }
  destruct (store_fault R (tick w)); simpl; [exact H1 |].
  specialize (Hok (next_call (emit ev w))).
  destruct (ok (next_call (emit ev w))) as [resp w2]; simpl in *.
  eapply rel_trans; eassumption.
Qed.

Lemma keeps_select_count_limit1 :
  quiet store_probe = true -> keeps rel select_count_limit1.
Proof. intros Hq. apply keeps_store_call; [exact Hq | intros w; apply rel_refl]. Qed.

Lemma keeps_select_single vid :
  quiet (store_single vid) = true -> keeps rel (select_single vid).
Proof.
  intros Hq. apply keeps_store_call; [exact Hq |].
  intros w. destruct (rows_with_id vid (table w)) as [| r [| r' l]]; apply rel_refl.
Qed.

Lemma keeps_select_is_null : quiet store_is_null = true -> keeps rel select_is_null.
Proof. intros Hq. apply keeps_store_call; [exact Hq | intros w; apply rel_refl]. Qed.

Lemma keeps_select_order_by_id :
  quiet store_ordered = true -> keeps rel select_order_by_id.
Proof. intros Hq. apply keeps_store_call; [exact Hq | intros w; apply rel_refl]. Qed.

Lemma keeps_models_list : quiet models_list = true -> keeps rel openai_models_list.
Proof.
  intros Hq R w. unfold openai_models_list.
  assert (H1 : rel w (next_call (emit models_list w))).
  { eapply rel_trans; [apply rel_emit; exact Hq | apply rel_next_call]. }
  destruct (models_fault R (tick w)); exact H1.
Qed.

Lemma keeps_images_generate req :
  quiet (images_generate req) = true -> keeps rel (openai_images_generate req).
Proof.
  intros Hq R w. unfold openai_images_generate.
  assert (H1 : rel w (next_call (emit (images_generate req) w))).
  { eapply rel_trans; [apply rel_emit; exact Hq | apply rel_next_call]. }
  destruct (images_reply R (tick w) req); exact H1.
Qed.

Lemma keeps_update_by_id vid u ts returning :
  quiet (store_update vid u ts) = true ->
  (forall w, rel w (set_table (map (write_image vid u ts) (table w)) w)) ->
  keeps rel (update_by_id vid u ts returning).
Proof.
  intros Hq Hset. apply keeps_store_call; [exact Hq | intros w; apply Hset].
Qed.

End Preservation.

(** Splits a goal [keeps rel m] along the structure of [m].  The facts about
    [rel] (reflexive, transitive, blind to quiet events, to call numbers and
    to the clock) are taken from the context; calls of the script's own
    functions are left to the hint database [keeps]. *)
Ltac keeps_step :=
  lazymatch goal with
  | |- keeps _ (bind _ _) => eapply keeps_bind; [eassumption | | intro]
  | |- keeps _ (try_catch _ _) => eapply keeps_try_catch; [eassumption | | intro]
  | |- keeps _ (ret _) => eapply keeps_ret; eassumption
  | |- keeps _ (throw _) => eapply keeps_throw; eassumption
  | |- keeps _ (when _ _) => eapply keeps_when; [eassumption |]
  | |- keeps _ (forEach _ _) => eapply keeps_forEach; [eassumption | eassumption | intro]
  | |- keeps _ (throw_if_error _) => eapply keeps_throw_if_error; eassumption
  | |- keeps _ (array_of _ _) => eapply keeps_array_of; eassumption
  | |- keeps _ (first_url _) => eapply keeps_first_url; eassumption
  | |- keeps _ process_dot_env => eapply keeps_process_dot_env; eassumption
  | |- keeps _ Date_now => eapply keeps_Date_now; eassumption
  | |- keeps _ (log _) => eapply keeps_log; [eassumption | reflexivity]
  | |- keeps _ (log_error _ _) => eapply keeps_log_error; [eassumption | reflexivity]
  | |- keeps _ (sleep _) => eapply keeps_sleep; [eassumption .. | reflexivity]
  | |- keeps _ select_count_limit1 =>
      eapply keeps_select_count_limit1; [eassumption .. | reflexivity]
  | |- keeps _ (select_single _) =>
      eapply keeps_select_single; [eassumption .. | reflexivity]
  | |- keeps _ select_is_null =>
      eapply keeps_select_is_null; [eassumption .. | reflexivity]
  | |- keeps _ select_order_by_id =>
      eapply keeps_select_order_by_id; [eassumption .. | reflexivity]
  | |- keeps _ openai_models_list =>
      eapply keeps_models_list; [eassumption .. | reflexivity]
  | |- keeps _ (openai_images_generate _) =>
      eapply keeps_images_generate; [eassumption .. | reflexivity]
  | |- keeps _ (update_by_id _ _ _ _) =>
      eapply keeps_update_by_id;
      [eassumption .. | reflexivity
       | intro;
         match goal with
         | H : forall t w, _ w (set_table t w) |- _ => apply H
         end]
  | |- keeps _ (if ?b then _ else _) => destruct b
  | |- keeps _ (match ?x with _ => _ end) => destruct x
  end.

Create HintDb keeps.

Ltac keeps_auto := repeat keeps_step; auto with keeps.

Lemma occurrences_app p (l1 l2 : list event) :
  occurrences p (l1 ++ l2) = occurrences p l1 + occurrences p l2.
Proof. unfold occurrences. now rewrite filter_app, length_app. Qed.

Lemma requests_app (l1 l2 : list event) :
  requests (l1 ++ l2) = (requests l1 ++ requests l2)%list.
Proof.
  induction l1 as [| e l1 IH]; simpl; [reflexivity |].
  destruct e; simpl; rewrite ?IH; reflexivity.
Qed.

(** *** The relations are preorders, blind to what they should be blind to *)

Lemma extends_refl w : extends w w.
Proof. exists []. now rewrite app_nil_r. Qed.

Lemma extends_trans a b c : extends a b -> extends b c -> extends a c.
Proof.
  intros [e1 H1] [e2 H2]. exists (e1 ++ e2)%list.
  now rewrite H2, H1, app_assoc.
Qed.

Lemma extends_emit e w : any_event e = true -> extends w (emit e w).
Proof. intros _. now exists [e]. Qed.

Lemma extends_next_call w : extends w (next_call w).
Proof. exact (extends_refl w). Qed.

Lemma extends_advance ms w : extends w (advance ms w).
Proof. exact (extends_refl w). Qed.

Lemma extends_set_table t w : extends w (set_table t w).
Proof. exact (extends_refl w). Qed.

Lemma extends_In e w w' : extends w w' -> In e (trace w) -> In e (trace w').
Proof. intros [evs ->] H. apply in_or_app. now left. Qed.

Lemma same_table_refl w : same_table w w.
Proof. reflexivity. Qed.

Lemma same_table_trans a b c : same_table a b -> same_table b c -> same_table a c.
Proof. unfold same_table. congruence. Qed.

Lemma same_table_emit e w : any_event e = true -> same_table w (emit e w).
Proof. reflexivity. Qed.

Lemma same_table_next_call w : same_table w (next_call w).
Proof. reflexivity. Qed.

Lemma same_table_advance ms w : same_table w (advance ms w).
Proof. reflexivity. Qed.

Lemma local_refl w : local w w.
Proof. now repeat split. Qed.

Lemma no_work_refl w : no_work w w.
Proof. now split. Qed.

Lemma no_work_trans a b c : no_work a b -> no_work b c -> no_work a c.
Proof. unfold no_work. intuition congruence. Qed.

Lemma no_work_emit e w : idle e = true -> no_work w (emit e w).
Proof.
  unfold idle, no_work. intros H. simpl. rewrite !occurrences_app.
  unfold occurrences. simpl.
  destruct (is_generate e), (is_update e); try discriminate. simpl. lia.
Qed.

Lemma no_work_next_call w : no_work w (next_call w).
Proof. now split. Qed.

Lemma no_work_advance ms w : no_work w (advance ms w).
Proof. now split. Qed.

Lemma no_work_set_table t w : no_work w (set_table t w).
Proof. now split. Qed.

Lemma images_kept_refl w : images_kept w w.
Proof.
  unfold images_kept. induction (table w); constructor; auto.
Qed.

Lemma images_kept_trans a b c :
  images_kept a b -> images_kept b c -> images_kept a c.
Proof.
  unfold images_kept. generalize (table a) (table b) (table c).
  intros la lb lc H. revert lc.
  induction H as [| x y la lb Hxy _ IH]; intros lc Hbc.
  - inversion Hbc. constructor.
  - inversion Hbc as [| y' z lb' lc' Hyz Hrest]; subst.
    constructor; [| now apply IH].
    intros Hx. specialize (Hxy Hx). subst y. now apply Hyz.
Qed.

Lemma images_kept_same w w' : table w' = table w -> images_kept w w'.
Proof. unfold images_kept. intros ->. apply (images_kept_refl w). Qed.

Lemma images_kept_emit e w : any_event e = true -> images_kept w (emit e w).
Proof. intros _. now apply images_kept_same. Qed.

Lemma images_kept_next_call w : images_kept w (next_call w).
Proof. now apply images_kept_same. Qed.

Lemma images_kept_advance ms w : images_kept w (advance ms w).
Proof. now apply images_kept_same. Qed.

Ltac about_extends :=
  pose proof extends_refl; pose proof extends_trans; pose proof extends_emit;
  pose proof extends_next_call; pose proof extends_advance;
  pose proof extends_set_table.

Ltac about_same_table :=
  pose proof same_table_refl; pose proof same_table_trans;
  pose proof same_table_emit; pose proof same_table_next_call;
  pose proof same_table_advance.

Ltac about_no_work :=
  pose proof no_work_refl; pose proof no_work_trans; pose proof no_work_emit;
  pose proof no_work_next_call; pose proof no_work_advance;
  pose proof no_work_set_table.

Ltac about_images_kept :=
  pose proof images_kept_refl; pose proof images_kept_trans;
  pose proof images_kept_emit; pose proof images_kept_next_call;
  pose proof images_kept_advance.

(** ** Running a computation by hand *)

Ltac run :=
  unfold when, select_count_limit1, select_single, select_is_null,
    select_order_by_id, update_by_id, first_url, throw_if_error, array_of;
  unfold store_call, openai_models_list, openai_images_generate, bind, ret,
    throw, try_catch, log, log_error, process_dot_env, Date_now, sleep, failed;
  unfold emit, next_call, set_table, advance;
  cbn [table clock tick trace data error count fst snd andb orb negb].

Lemma truthy_true v : truthy v = true <-> exists u, v = Some u /\ u <> "".
Proof.
  split.
  - destruct v as [[| a s] |]; simpl; try discriminate.
    intros _. exists (String a s). split; [reflexivity | discriminate].
  - intros [u [-> Hu]]. destruct u; [contradiction | reflexivity].
Qed.

(** Counts events of one kind in a trace built from explicit pieces. *)
Ltac tally :=
  cbn [trace table tick clock]; rewrite ?occurrences_app; unfold occurrences in *;
  cbn [filter List.length is_update is_generate is_delay]; lia.

(** ** The update operation of part_000 *)

(** C3. [updateVehicleImage] on an identifier that no row of the table
    carries throws the not-found error, whatever the url and the overwrite
    flag, and whether or not the store answers the read; the table is the
    same afterwards and no write request is issued. *)
Theorem updateVehicleImage_unknown_id :
  forall R w vehicleId imageUrl forceUpdate,
    rows_with_id vehicleId (table w) = [] ->
    let res := Part000.updateVehicleImage vehicleId imageUrl forceUpdate R w in
    fst res = Throw (NotFoundError vehicleId)
    /\ table (snd res) = table w
    /\ occurrences is_update (trace (snd res)) = occurrences is_update (trace w).
Proof.
  intros R w vid u force H. destruct w as [t c k tr]. cbn [table] in H.
  unfold Part000.updateVehicleImage. run. rewrite H.
  destruct (store_fault R k); run;
    repeat split; tally.
Qed.

Lemma updateVehicleImage_unknown_id_witness :
  fst (Part000.updateVehicleImage 7 "http://x/7.png" true healthy (start [sedan; truck]))
    = Throw (NotFoundError 7)
  /\ table (snd (Part000.updateVehicleImage 7 "http://x/7.png" true healthy
                   (start [sedan; truck]))) = [sedan; truck].
Proof.
  destruct (updateVehicleImage_unknown_id healthy (start [sedan; truck]) 7
              "http://x/7.png" true) as [H1 [H2 _]].
  - reflexivity.
  - split; [exact H1 | exact H2].
Defined.

Lemma id_write_image vid u ts r : id (write_image vid u ts r) = id r.
Proof. unfold write_image. now destruct (Z.eqb (id r) vid). Qed.

Lemma rows_with_id_write vid u ts t :
  rows_with_id vid (map (write_image vid u ts) t)
  = map (write_image vid u ts) (rows_with_id vid t).
Proof.
  unfold rows_with_id. induction t as [| r t IH]; simpl; [reflexivity |].
  rewrite id_write_image.
  destruct (Z.eqb (id r) vid); simpl; now rewrite IH.
Qed.

Lemma rows_with_id_write_other vid vid' u ts t :
  vid' <> vid ->
  rows_with_id vid' (map (write_image vid u ts) t) = rows_with_id vid' t.
Proof.
  intros Hne. unfold rows_with_id. induction t as [| r t IH]; simpl; [reflexivity |].
  rewrite id_write_image, IH.
  destruct (Z.eqb (id r) vid') eqn:E'; [| reflexivity].
  apply Z.eqb_eq in E'. unfold write_image.
  destruct (Z.eqb (id r) vid) eqn:E; [apply Z.eqb_eq in E; congruence | reflexivity].
Qed.

Lemma rows_with_id_In vid t r :
  In r t -> id r = vid -> In r (rows_with_id vid t).
Proof.
  intros Hin Hid. apply filter_In. split; [exact Hin | now apply Z.eqb_eq].
Qed.

(** Writing the row [vid] cannot touch a row that has an image when the only
    row [vid] has none. *)
Lemma write_image_keeps_images vid u ts t current :
  rows_with_id vid t = [current] ->
  truthy (vehiclegraphic current) = false ->
  Forall2 (fun r r' => has_image r -> r' = r) t (map (write_image vid u ts) t).
Proof.
  intros Hrows Hnone.
  assert (Hall : forall r, In r t -> id r = vid -> ~ has_image r).
  { intros r Hin Hid Himg.
    pose proof (rows_with_id_In vid t r Hin Hid) as H. rewrite Hrows in H.
    destruct H as [<- | []].
    apply truthy_true in Himg. congruence. }
  clear Hrows. induction t as [| r t IH]; simpl; constructor.
  - intros Himg. unfold write_image.
    destruct (Z.eqb (id r) vid) eqn:E; [| reflexivity].
    apply Z.eqb_eq in E. exfalso. apply (Hall r); simpl; auto.
  - apply IH. intros r' Hin. apply Hall. now right.
Qed.

Lemma updateVehicleImage_keeps_images vid u :
  keeps images_kept (Part000.updateVehicleImage vid u false).
Proof.
  intros R w. destruct w as [t c k tr].
  unfold Part000.updateVehicleImage. run.
  destruct (store_fault R k); run; [now apply images_kept_same |].
  destruct (rows_with_id vid t) as [| current [| r' l]] eqn:Hrows; run;
    try (now apply images_kept_same).
  destruct (truthy (vehiclegraphic current)) eqn:Himg; run;
    [now apply images_kept_same |].
  destruct (store_fault R (S k)); run; [now apply images_kept_same |].
  unfold images_kept; simpl. now apply write_image_keeps_images with current.
Qed.
#[local] Hint Resolve updateVehicleImage_keeps_images : keeps.

Lemma generateVehicleImage_keeps_images label :
  keeps images_kept (Part000.generateVehicleImage label).
Proof. about_images_kept. unfold Part000.generateVehicleImage. keeps_auto. Qed.
#[local] Hint Resolve generateVehicleImage_keeps_images : keeps.

Lemma testConnections_keeps_images : keeps images_kept Part000.testConnections.
Proof. about_images_kept. unfold Part000.testConnections. keeps_auto. Qed.
#[local] Hint Resolve testConnections_keeps_images : keeps.

Lemma getVehiclesWithoutImages_keeps_images :
  keeps images_kept Part000.getVehiclesWithoutImages.
Proof. about_images_kept. unfold Part000.getVehiclesWithoutImages. keeps_auto. Qed.
#[local] Hint Resolve getVehiclesWithoutImages_keeps_images : keeps.

Lemma processFrom_keeps_images len i vehicles :
  keeps images_kept (Part000.processFrom true len i vehicles).
Proof.
  about_images_kept. revert i.
  induction vehicles as [| vehicle rest IH]; intros i; simpl.
  - keeps_auto.
  - unfold Part000.processOne. simpl negb. keeps_auto.
Qed.
#[local] Hint Resolve processFrom_keeps_images : keeps.

Lemma processVehicles_keeps_images : keeps images_kept (Part000.processVehicles true).
Proof. about_images_kept. unfold Part000.processVehicles. keeps_auto. Qed.

(** C1. Let [current] be the one row with identifier [vehicleId].
    - If [current] has an image reference, [updateVehicleImage] with
      [forceUpdate = false] leaves the table as it is, and returns [false]
      when the store answers the read.
    - Consequently an incremental run, [processVehicles true], leaves every
      row that has an image reference as it is, whatever the services do.
    - If [current] has no image reference, or [forceUpdate] is [true], and
      the store answers the read and accepts the write, the call returns
      [true] and the row now holds the new reference and the instant of the
      call as [updated_at]. *)
Theorem updateVehicleImage_overwrite_rule :
  forall R w vehicleId imageUrl current,
    rows_with_id vehicleId (table w) = [current] ->
    (has_image current ->
     let res := Part000.updateVehicleImage vehicleId imageUrl false R w in
     table (snd res) = table w
     /\ (store_fault R (tick w) = None -> fst res = Return false))
    /\ Forall2 (fun r r' => has_image r -> r' = r)
         (table w) (table (snd (Part000.processVehicles true R w)))
    /\ (forall forceUpdate,
          vehiclegraphic current = None \/ forceUpdate = true ->
          store_fault R (tick w) = None ->
          store_fault R (S (tick w)) = None ->
          let res := Part000.updateVehicleImage vehicleId imageUrl forceUpdate R w in
          fst res = Return true
          /\ table (snd res)
             = map (write_image vehicleId imageUrl (clock w)) (table w)
          /\ rows_with_id vehicleId (table (snd res))
             = [mkVehicle (id current) (vehicletype current) (Some imageUrl) (clock w)]).
Proof.
  intros R w vid u current Hrows. split; [| split].
  - intros Himg. apply truthy_true in Himg.
    destruct w as [t c k tr]. cbn [table tick] in *.
    unfold Part000.updateVehicleImage. run.
    destruct (store_fault R k); run; [split; [reflexivity | discriminate] |].
    rewrite Hrows. run. rewrite Himg. run. now split.
  - exact (processVehicles_keeps_images R w).
  - intros force Hcase Hread Hwrite.
    assert (Hgo : truthy (vehiclegraphic current) && negb force = false).
    { destruct Hcase as [-> | ->]; [reflexivity | apply andb_false_r]. }
    destruct w as [t c k tr]. cbn [table tick clock] in *.
    assert (Hafter : rows_with_id vid (map (write_image vid u c) t)
                     = [mkVehicle (id current) (vehicletype current) (Some u) c]).
    { rewrite rows_with_id_write, Hrows. simpl. unfold write_image.
      assert (Hid : Z.eqb (id current) vid = true).
      { assert (Hin : In current (rows_with_id vid t)) by (rewrite Hrows; now left).
        apply filter_In in Hin. apply Hin. }
      now rewrite Hid. }
    unfold Part000.updateVehicleImage. run.
    rewrite Hread, Hrows. run. rewrite Hgo. run. rewrite Hwrite. run.
    repeat split; assumption.
Qed.

Lemma updateVehicleImage_overwrite_rule_witness :
  fst (Part000.updateVehicleImage 2 "http://x/new.png" false healthy
         (start [sedan; truck])) = Return false
  /\ table (snd (Part000.updateVehicleImage 2 "http://x/new.png" false healthy
                   (start [sedan; truck]))) = [sedan; truck]
  /\ fst (Part000.updateVehicleImage 1 "http://x/new.png" false healthy
            (start [sedan; truck])) = Return true.
Proof.
  destruct (updateVehicleImage_overwrite_rule healthy (start [sedan; truck]) 2
              "http://x/new.png" truck eq_refl) as [Hskip _].
  destruct (updateVehicleImage_overwrite_rule healthy (start [sedan; truck]) 1
              "http://x/new.png" sedan eq_refl) as [_ [_ Hwrite]].
  destruct Hskip as [H1 H2].
  { exists "http://x/2.png". split; [reflexivity | discriminate]. }
  destruct (Hwrite false (or_introl eq_refl) eq_refl eq_refl) as [H3 _].
  split; [exact (H2 eq_refl) | split; [exact H1 | exact H3]].
Defined.

(** A reference that is the empty string is not [null] but counts as no
    image for [updateVehicleImage]: it is overwritten without the flag. *)
Example updateVehicleImage_empty_reference :
  let w := start [mkVehicle 4 "van" (Some "") 0] in
  fst (Part000.updateVehicleImage 4 "http://x/4.png" false healthy w) = Return true
  /\ table (snd (Part000.updateVehicleImage 4 "http://x/4.png" false healthy w))
     = [mkVehicle 4 "van" (Some "http://x/4.png") 1000].
Proof. split; reflexivity. Qed.

(** The update of src/VehicleImageGenerator.js takes no flag and makes no
    read: it writes over an existing reference. *)
Example updateVehicleImage_without_flag :
  table (snd (VehicleImageGenerator.updateVehicleImage 2 "http://x/new.png" healthy
                (start [sedan; truck])))
  = [sedan; mkVehicle 2 "truck" (Some "http://x/new.png") 1000].
Proof. reflexivity. Qed.

(** ... and on an identifier that no row carries it reports nothing: it
    returns the empty list of written rows. *)
Example updateVehicleImage_without_flag_unknown_id :
  VehicleImageGenerator.updateVehicleImage 7 "http://x/7.png" healthy (start [sedan])
  = (Return (Some []),
     mkWorld [sedan] 1000 1
       [store_update 7 "http://x/7.png" 1000;
        console_log " Database updated for vehicle ID: 7"]).
Proof. reflexivity. Qed.

(** ** Prompt and image generation *)

Lemma VehicleImageGenerator_generate_spec label R w :
  let req := VehicleImageGenerator.imageRequest label in
  let res := VehicleImageGenerator.generateVehicleImage label R w in
  requests (trace (snd res)) = (requests (trace w) ++ [req])%list
  /\ occurrences is_generate (trace (snd res)) = occurrences is_generate (trace w) + 1
  /\ occurrences is_update (trace (snd res)) = occurrences is_update (trace w)
  /\ occurrences is_delay (trace (snd res)) = occurrences is_delay (trace w)
  /\ tick (snd res) = S (tick w)
  /\ table (snd res) = table w
  /\ clock (snd res) = clock w
  /\ fst res = match images_reply R (tick w) req with
               | inl msg => Throw (APIError msg)
               | inr [] =>
                   Throw (TypeError "Cannot read properties of undefined (reading 'url')")
               | inr (img :: _) => Return (url img)
               end.
Proof.
  destruct w as [t c k tr]. unfold VehicleImageGenerator.generateVehicleImage. run.
  destruct (images_reply R k (VehicleImageGenerator.imageRequest label))
    as [msg | [| img imgs]]; run; cbn [nth_error]; run;
    rewrite !requests_app; cbn [requests]; rewrite ?app_nil_r;
    repeat split; try reflexivity; tally.
Qed.

Lemma Part000_generate_spec label R w :
  let req := Part000.imageRequest label in
  let res := Part000.generateVehicleImage label R w in
  requests (trace (snd res)) = (requests (trace w) ++ [req])%list
  /\ occurrences is_generate (trace (snd res)) = occurrences is_generate (trace w) + 1
  /\ occurrences is_update (trace (snd res)) = occurrences is_update (trace w)
  /\ occurrences is_delay (trace (snd res)) = occurrences is_delay (trace w)
  /\ tick (snd res) = S (tick w)
  /\ table (snd res) = table w
  /\ clock (snd res) = clock w
  /\ fst res = match images_reply R (tick w) req with
               | inl msg => Throw (APIError msg)
               | inr [] =>
                   Throw (TypeError "Cannot read properties of undefined (reading 'url')")
               | inr (img :: _) => Return (url img)
               end.
Proof.
  destruct w as [t c k tr]. unfold Part000.generateVehicleImage. run.
  destruct (images_reply R k (Part000.imageRequest label))
    as [msg | [| img imgs]]; run; cbn [nth_error]; run;
    rewrite !requests_app; cbn [requests]; rewrite ?app_nil_r;
    repeat split; try reflexivity; tally.
Qed.

(** C7. The prompt builder is a function of the label alone: equal labels
    give equal text; in both revisions the text is a fixed template around
    the label; and the prompt that [generateVehicleImage] sends is this
    text, in whatever world and against whatever services it runs. *)
Theorem generateImagePrompt_deterministic :
  forall label label',
    label = label' ->
    VehicleImageGenerator.generateImagePrompt label
    = VehicleImageGenerator.generateImagePrompt label'
    /\ Part000.generateImagePrompt label = Part000.generateImagePrompt label'
    /\ (exists head tail,
          forall l, VehicleImageGenerator.generateImagePrompt l = head ++ l ++ tail)
    /\ (exists head tail, forall l, Part000.generateImagePrompt l = head ++ l ++ tail)
    /\ (forall R w,
          map prompt (requests (trace (snd (VehicleImageGenerator.generateVehicleImage
                                              label R w))))
          = (map prompt (requests (trace w))
             ++ [VehicleImageGenerator.generateImagePrompt label'])%list
          /\ map prompt (requests (trace (snd (Part000.generateVehicleImage label R w))))
             = (map prompt (requests (trace w))
                ++ [Part000.generateImagePrompt label'])%list).
Proof.
  intros label label' <-.
  split; [reflexivity |]. split; [reflexivity |]. split; [| split].
  - eexists. eexists. intros l. unfold VehicleImageGenerator.generateImagePrompt.
    reflexivity.
  - eexists. eexists. intros l. unfold Part000.generateImagePrompt. reflexivity.
  - intros R w.
    destruct (Part000_generate_spec label R w) as [H1 _].
    destruct (VehicleImageGenerator_generate_spec label R w) as [H2 _].
    cbv zeta in *. rewrite H1, H2, !map_app. split; reflexivity.
Qed.

Lemma generateImagePrompt_deterministic_witness :
  Part000.generateImagePrompt "sedan" = Part000.generateImagePrompt "sedan"
  /\ VehicleImageGenerator.generateImagePrompt "sedan"
     = VehicleImageGenerator.generateImagePrompt "sedan".
Proof.
  destruct (generateImagePrompt_deterministic "sedan" "sedan" eq_refl) as [H1 [H2 _]].
  split; [exact H2 | exact H1].
Defined.

(** C8. [generateVehicleImage] sends exactly one request to the provider,
    for the prompt built from the label and with the fixed configuration
    (1024x1024, hd, vivid, one image); when the provider rejects the request
    the same error is thrown to the caller and no second request is made. *)
Theorem generateVehicleImage_single_request :
  forall label R w,
    (let req := VehicleImageGenerator.imageRequest label in
     let res := VehicleImageGenerator.generateVehicleImage label R w in
     requests (trace (snd res)) = (requests (trace w) ++ [req])%list
     /\ tick (snd res) = S (tick w)
     /\ prompt req = VehicleImageGenerator.generateImagePrompt label
     /\ fixed_configuration req
     /\ forall msg, images_reply R (tick w) req = inl msg ->
                    fst res = Throw (APIError msg))
    /\ (let req := Part000.imageRequest label in
        let res := Part000.generateVehicleImage label R w in
        requests (trace (snd res)) = (requests (trace w) ++ [req])%list
        /\ tick (snd res) = S (tick w)
        /\ prompt req = Part000.generateImagePrompt label
        /\ fixed_configuration req
        /\ forall msg, images_reply R (tick w) req = inl msg ->
                       fst res = Throw (APIError msg)).
Proof.
  intros label R w. split; cbv zeta.
  - destruct (VehicleImageGenerator_generate_spec label R w)
      as [H1 [_ [_ [_ [H2 [_ [_ H3]]]]]]]. cbv zeta in *.
    repeat split; try assumption; try reflexivity.
    intros msg Hmsg. now rewrite H3, Hmsg.
  - destruct (Part000_generate_spec label R w)
      as [H1 [_ [_ [_ [H2 [_ [_ H3]]]]]]]. cbv zeta in *.
    repeat split; try assumption; try reflexivity.
    intros msg Hmsg. now rewrite H3, Hmsg.
Qed.

(** C10. [generateVehicleImage] returns the [url] of element 0 of the data
    array of the provider's answer and makes no test for emptiness: with at
    least one image it returns that url, with an empty array the read of
    element 0 yields [undefined] and the call throws a [TypeError]. *)
Theorem generateVehicleImage_first_element :
  forall label R w,
    (forall imgs,
        images_reply R (tick w) (VehicleImageGenerator.imageRequest label) = inr imgs ->
        (forall img rest, imgs = img :: rest ->
           fst (VehicleImageGenerator.generateVehicleImage label R w) = Return (url img))
        /\ (imgs = [] ->
            exists msg,
              fst (VehicleImageGenerator.generateVehicleImage label R w)
              = Throw (TypeError msg)))
    /\ (forall imgs,
           images_reply R (tick w) (Part000.imageRequest label) = inr imgs ->
           (forall img rest, imgs = img :: rest ->
              fst (Part000.generateVehicleImage label R w) = Return (url img))
           /\ (imgs = [] ->
               exists msg,
                 fst (Part000.generateVehicleImage label R w) = Throw (TypeError msg))).
Proof.
  intros label R w. split; intros imgs Hreply.
  - destruct (VehicleImageGenerator_generate_spec label R w)
      as [_ [_ [_ [_ [_ [_ [_ H]]]]]]]. cbv zeta in H. rewrite Hreply in H.
    split.
    + intros img rest ->. exact H.
    + intros ->. eexists. exact H.
  - destruct (Part000_generate_spec label R w)
      as [_ [_ [_ [_ [_ [_ [_ H]]]]]]]. cbv zeta in H. rewrite Hreply in H.
    split.
    + intros img rest ->. exact H.
    + intros ->. eexists. exact H.
Qed.

(** The out-of-bounds read on a concrete answer with no image. *)
Example generateVehicleImage_empty_data :
  fst (Part000.generateVehicleImage "sedan"
         (mkRemote env_ok (fun _ => None) (fun _ => None) (fun _ _ => inr []))
         (start [sedan]))
  = Throw (TypeError "Cannot read properties of undefined (reading 'url')").
Proof. reflexivity. Qed.

(** ** The configuration check *)

Lemma not_set_falsy env name : ~ is_set env name <-> truthy (env name) = false.
Proof.
  unfold is_set. rewrite <- truthy_true.
  destruct (truthy (env name)); split; intros H; congruence.
Qed.

Lemma missingVars_In env name :
  In name (Part000.missingVars env) <-> In name requiredVars /\ ~ is_set env name.
Proof.
  unfold Part000.missingVars. rewrite filter_In, not_set_falsy.
  now rewrite negb_true_iff.
Qed.

Lemma missingVars_nil env :
  Part000.missingVars env = [] <-> forall name, In name requiredVars -> is_set env name.
Proof.
  split.
  - intros Hnil name Hin.
    destruct (truthy (env name)) eqn:E; [now apply truthy_true |].
    assert (Hm : In name (Part000.missingVars env)).
    { apply missingVars_In. split; [exact Hin | now apply not_set_falsy]. }
    rewrite Hnil in Hm. contradiction.
  - intros Hall. destruct (Part000.missingVars env) as [| name l] eqn:E; [reflexivity |].
    assert (Hm : In name (Part000.missingVars env)) by (rewrite E; now left).
    apply missingVars_In in Hm. destruct Hm as [Hin Hno]. now specialize (Hall name Hin).
Qed.

(** What [testEnvironmentVariables] returns and prints. *)
Lemma testEnvironmentVariables_spec R w :
  let env := process_env R in
  let res := VehicleImageGenerator.testEnvironmentVariables R w in
  fst res = Return (forallb (fun name => truthy (env name)) requiredVars)
  /\ local w (snd res)
  /\ (exists evs, trace (snd res) = (trace w ++ evs)%list
                  /\ forallb is_console evs = true
                  /\ forall name, In name requiredVars -> truthy (env name) = false ->
                                  In (console_log ("   " ++ name ++ ": Missing")) evs).
Proof.
  destruct w as [t c k tr]. cbv zeta.
  unfold VehicleImageGenerator.testEnvironmentVariables, requiredVars.
  unfold VehicleImageGenerator.checkVars. run. cbn [forallb].
  destruct (truthy (process_env R "SUPABASE_URL")) eqn:E1;
    destruct (truthy (process_env R "SUPABASE_ANON_KEY")) eqn:E2;
    destruct (truthy (process_env R "OPENAI_API_KEY")) eqn:E3; run;
    (split; [reflexivity |]); (split; [now repeat split |]);
    rewrite <- !app_assoc; eexists; (split; [reflexivity |]);
    (split; [reflexivity |]);
    intros name [<- | [<- | [<- | []]]] Hno; try congruence;
    cbn [app In]; tauto.
Qed.

(** C6. The configuration check passes exactly when the three required
    values are present and not empty, and a failed check names every missing
    value.  [testEnvironmentVariables] returns [true] in that case only and
    prints one [Missing] line per missing name; [testConnections] stops with
    [false] before any remote call exactly when the list of missing names is
    not empty, and prints the whole list. *)
Theorem configuration_check :
  forall R w,
    let env := process_env R in
    let all_set := forall name, In name requiredVars -> is_set env name in
    requiredVars = ["SUPABASE_URL"; "SUPABASE_ANON_KEY"; "OPENAI_API_KEY"]
    /\ (let res := VehicleImageGenerator.testEnvironmentVariables R w in
        (fst res = Return true <-> all_set)
        /\ (fst res = Return false <-> ~ all_set)
        /\ tick (snd res) = tick w
        /\ forall name, In name requiredVars -> ~ is_set env name ->
                        In (console_log ("   " ++ name ++ ": Missing")) (trace (snd res)))
    /\ (let res := Part000.testConnections R w in
        (Part000.missingVars env = [] <-> all_set)
        /\ (forall name, In name (Part000.missingVars env)
                         <-> In name requiredVars /\ ~ is_set env name)
        /\ (Part000.missingVars env <> [] ->
            fst res = Return false
            /\ tick (snd res) = tick w
            /\ trace (snd res)
               = (trace w
                  ++ [console_log " Testing connections...";
                      console_error (" Missing environment variables: "
                                     ++ join ", " (Part000.missingVars env)) None])%list)
        /\ (Part000.missingVars env = [] -> tick (snd res) = S (S (tick w)))).
Proof.
  intros R w env all_set. split; [reflexivity |].
  assert (Hall : forallb (fun name => truthy (env name)) requiredVars = true <-> all_set).
  { rewrite forallb_forall. unfold all_set.
    split; intros H name Hin; apply truthy_true, H, Hin. }
  split; cbv zeta.
  - destruct (testEnvironmentVariables_spec R w) as [Hres [Hloc [evs [Htr [_ Hmiss]]]]].
    cbv zeta in Hres, Htr, Hmiss. fold env in Hres, Hmiss. rewrite Hres, Htr.
    assert (Hlast : forall name, In name requiredVars -> ~ is_set env name ->
              In (console_log ("   " ++ name ++ ": Missing")) (trace w ++ evs)).
    { intros name Hin Hno. apply in_or_app. right.
      apply Hmiss; [exact Hin | now apply not_set_falsy]. }
    destruct Hall as [Ha Hb].
    destruct (forallb (fun name => truthy (env name)) requiredVars).
    + split; [| split; [| split]].
      * split; [intros _; now apply Ha | reflexivity].
      * split; [discriminate | intros Hn; exfalso; now apply Hn, Ha].
      * apply Hloc.
      * exact Hlast.
    + split; [| split; [| split]].
      * split; [discriminate | intros H; discriminate (Hb H)].
      * split; [intros _ H; discriminate (Hb H) | reflexivity].
      * apply Hloc.
      * exact Hlast.
  - split; [apply missingVars_nil |]. split; [apply missingVars_In |].
    destruct w as [t c k tr]. unfold Part000.testConnections. run. fold env.
    split.
    + intros Hmiss. destruct (Part000.missingVars env) as [| name l] eqn:E;
        [congruence |]. cbn [List.length Nat.ltb Nat.leb]. run.
      rewrite <- app_assoc. now repeat split.
    + intros ->. cbn [List.length Nat.ltb Nat.leb]. run.
      destruct (store_fault R k); run; destruct (models_fault R (S k)); run;
        reflexivity.
Qed.

(** ** Preflight and selection: no work, same table *)

Lemma VIG_testEnvironmentVariables_no_work :
  keeps no_work VehicleImageGenerator.testEnvironmentVariables.
Proof.
  about_no_work.
  unfold VehicleImageGenerator.testEnvironmentVariables, requiredVars; simpl.
  keeps_auto.
Qed.

Lemma VIG_testEnvironmentVariables_same_table :
  keeps same_table VehicleImageGenerator.testEnvironmentVariables.
Proof.
  about_same_table.
  unfold VehicleImageGenerator.testEnvironmentVariables, requiredVars; simpl.
  keeps_auto.
Qed.

Lemma VIG_testConnection_no_work : keeps no_work VehicleImageGenerator.testConnection.
Proof. about_no_work. unfold VehicleImageGenerator.testConnection. keeps_auto. Qed.

Lemma VIG_testConnection_same_table :
  keeps same_table VehicleImageGenerator.testConnection.
Proof. about_same_table. unfold VehicleImageGenerator.testConnection. keeps_auto. Qed.

Lemma VIG_testOpenAIConnection_no_work :
  keeps no_work VehicleImageGenerator.testOpenAIConnection.
Proof. about_no_work. unfold VehicleImageGenerator.testOpenAIConnection. keeps_auto. Qed.

Lemma VIG_testOpenAIConnection_same_table :
  keeps same_table VehicleImageGenerator.testOpenAIConnection.
Proof.
  about_same_table. unfold VehicleImageGenerator.testOpenAIConnection. keeps_auto.
Qed.

Lemma Part000_testConnections_no_work : keeps no_work Part000.testConnections.
Proof. about_no_work. unfold Part000.testConnections. keeps_auto. Qed.

Lemma Part000_testConnections_same_table : keeps same_table Part000.testConnections.
Proof. about_same_table. unfold Part000.testConnections. keeps_auto. Qed.

#[local] Hint Resolve
  VIG_testEnvironmentVariables_no_work VIG_testEnvironmentVariables_same_table
  VIG_testConnection_no_work VIG_testConnection_same_table
  VIG_testOpenAIConnection_no_work VIG_testOpenAIConnection_same_table
  Part000_testConnections_no_work Part000_testConnections_same_table : keeps.

(** The two selections: what they return when they return. *)
Lemma VIG_getVehiclesWithoutImages_spec R w :
  let res := VehicleImageGenerator.getVehiclesWithoutImages R w in
  table (snd res) = table w
  /\ no_work w (snd res)
  /\ tick (snd res) = S (tick w)
  /\ match store_fault R (tick w) with
     | None => fst res
               = Return (Some (filter (fun r => is_null (vehiclegraphic r)) (table w)))
     | Some msg => fst res = Throw (PostgrestError msg)
     end.
Proof.
  destruct w as [t c k tr]. unfold VehicleImageGenerator.getVehiclesWithoutImages. run.
  destruct (store_fault R k); run; repeat split; try reflexivity; tally.
Qed.

Lemma Part000_getVehiclesWithoutImages_spec R w :
  let res := Part000.getVehiclesWithoutImages R w in
  table (snd res) = table w
  /\ no_work w (snd res)
  /\ tick (snd res) = S (tick w)
  /\ match store_fault R (tick w) with
     | None => fst res
               = Return (Some (filter (fun r => is_null (vehiclegraphic r)) (table w)))
     | Some msg => fst res = Throw (PostgrestError msg)
     end.
Proof.
  destruct w as [t c k tr]. unfold Part000.getVehiclesWithoutImages. run.
  destruct (store_fault R k); run; repeat split; try reflexivity; tally.
Qed.

Lemma Part000_getAllVehicles_spec R w :
  let res := Part000.getAllVehicles R w in
  table (snd res) = table w
  /\ no_work w (snd res)
  /\ tick (snd res) = S (tick w)
  /\ match store_fault R (tick w) with
     | None => fst res = Return (Some (order_by_id (table w)))
     | Some msg => fst res = Throw (PostgrestError msg)
     end.
Proof.
  destruct w as [t c k tr]. unfold Part000.getAllVehicles. run.
  destruct (store_fault R k); run; repeat split; try reflexivity; tally.
Qed.

Lemma bind_eq {A B} (m : M A) (k : A -> M B) R w :
  bind m k R w = match m R w with
                 | (Return a, w') => k a R w'
                 | (Throw e, w') => (Throw e, w')
                 end.
Proof. reflexivity. Qed.

Lemma log_bind {B} msg (k : unit -> M B) R w :
  bind (log msg) k R w = k tt R (emit (console_log msg) w).
Proof. reflexivity. Qed.

Lemma try_catch_eq {A} (m : M A) h R w :
  try_catch m h R w = match m R w with
                      | (Return a, w') => (Return a, w')
                      | (Throw e, w') => h e R w'
                      end.
Proof. reflexivity. Qed.

Lemma Part000_testConnections_spec R w :
  let res := Part000.testConnections R w in
  (exists ok, fst res = Return ok)
  /\ (Part000.missingVars (process_env R) = [] ->
      tick (snd res) = S (S (tick w))
      /\ fst res = Return (match models_fault R (S (tick w)) with
                           | None => true
                           | Some _ => false
                           end)).
Proof.
  destruct w as [t c k tr]. unfold Part000.testConnections. run. split.
  - destruct (0 <? List.length (Part000.missingVars (process_env R)))%nat; run;
      [now eexists |].
    destruct (store_fault R k); run; destruct (models_fault R (S k)); run;
      now eexists.
  - intros ->. cbn [List.length Nat.ltb Nat.leb]. run.
    destruct (store_fault R k); run; destruct (models_fault R (S k)); run;
      now split.
Qed.

Lemma Part000_selection_spec (onlyMissing : bool) R w :
  let res := (if onlyMissing then Part000.getVehiclesWithoutImages
              else Part000.getAllVehicles) R w in
  table (snd res) = table w
  /\ no_work w (snd res)
  /\ tick (snd res) = S (tick w)
  /\ match store_fault R (tick w) with
     | None => fst res = Return (Some (candidates onlyMissing (table w)))
     | Some msg => fst res = Throw (PostgrestError msg)
     end.
Proof.
  destruct onlyMissing;
    [apply Part000_getVehiclesWithoutImages_spec | apply Part000_getAllVehicles_spec].
Qed.

(** With an empty candidate set [processVehicles] does no work, whatever the
    services do. *)
Lemma Part000_processVehicles_empty (onlyMissing : bool) R w :
  candidates onlyMissing (table w) = [] ->
  let res := Part000.processVehicles onlyMissing R w in
  no_work w (snd res)
  /\ table (snd res) = table w
  /\ (Part000.missingVars (process_env R) = [] ->
      models_fault R (S (tick w)) = None ->
      store_fault R (S (S (tick w))) = None ->
      fst res = Return tt
      /\ In (console_log (if onlyMissing then " All vehicles already have images!"
                          else " No vehicles found"))
           (trace (snd res))).
Proof.
  intros Hempty. cbv zeta. unfold Part000.processVehicles. rewrite bind_eq.
  pose proof (Part000_testConnections_no_work R w) as Hnw1.
  pose proof (Part000_testConnections_same_table R w) as Hst1.
  destruct (Part000_testConnections_spec R w) as [[ok Hok] Hpre]. cbv zeta in *.
  destruct (Part000.testConnections R w) as [o w1]. cbn [fst snd] in *. subst o.
  destruct ok; cbn [negb].
  2: { run. split; [exact Hnw1 |]. split; [exact Hst1 |].
       intros Henv Hmodels _. destruct (Hpre Henv) as [_ H].
       rewrite Hmodels in H. discriminate. }
  rewrite bind_eq.
  destruct (Part000_selection_spec onlyMissing R w1) as [Hst2 [Hnw2 [Htick2 Hsel]]].
  cbv zeta in *.
  destruct ((if onlyMissing then Part000.getVehiclesWithoutImages
             else Part000.getAllVehicles) R w1) as [o w2].
  cbn [fst snd] in *. unfold same_table in Hst1. rewrite Hst1, Hempty in Hsel.
  assert (Hnw : no_work w w2) by (eapply no_work_trans; eassumption).
  assert (Hst : table w2 = table w) by congruence.
  destruct (store_fault R (tick w1)) eqn:Hfault; subst o.
  - split; [exact Hnw |]. split; [exact Hst |].
    intros Henv _ Hfetch. destruct (Hpre Henv) as [Ht _].
    rewrite Ht in Hfault. congruence.
  - destruct w2 as [t2 c2 k2 tr2]. run. cbn [List.length Nat.eqb]. run.
    unfold no_work in *. cbn [trace table] in *.
    split; [split; tally |]. split; [exact Hst |].
    intros _ _ _. split; [reflexivity |].
    apply in_or_app. right. now left.
Qed.

Lemma VIG_testConnection_spec R w :
  let res := VehicleImageGenerator.testConnection R w in
  tick (snd res) = S (tick w)
  /\ extends w (snd res)
  /\ match store_fault R (tick w) with
     | None => fst res = Return true
     | Some msg =>
         fst res = Return false
         /\ In (console_error " Database connection failed:" (Some (PostgrestError msg)))
              (trace (snd res))
     end.
Proof.
  destruct w as [t c k tr]. unfold VehicleImageGenerator.testConnection. run.
  destruct (store_fault R k); run;
    (split; [reflexivity |]); unfold extends; cbn [trace]; rewrite <- ?app_assoc;
    (split; [now eexists |]); try reflexivity.
  split; [reflexivity |]. apply in_or_app. right. cbn. tauto.
Qed.

Lemma VIG_testOpenAIConnection_spec R w :
  let res := VehicleImageGenerator.testOpenAIConnection R w in
  tick (snd res) = S (tick w)
  /\ extends w (snd res)
  /\ match models_fault R (tick w) with
     | None => fst res = Return true
     | Some msg =>
         fst res = Return false
         /\ In (console_error " OpenAI connection failed:" (Some (APIError msg)))
              (trace (snd res))
     end.
Proof.
  destruct w as [t c k tr]. unfold VehicleImageGenerator.testOpenAIConnection. run.
  destruct (models_fault R k); run;
    (split; [reflexivity |]); unfold extends; cbn [trace]; rewrite <- ?app_assoc;
    (split; [now eexists |]); try reflexivity.
  split; [reflexivity |]. apply in_or_app. right. cbn. tauto.
Qed.

(** The state of [processAllVehicles] when the three checks have run: either
    it has stopped, or it goes on to the selection from a world [w3]. *)
Lemma VIG_processAllVehicles_preflight R w :
  let env_ok := forallb (fun name => truthy (process_env R name)) requiredVars in
  let checks_ok :=
    match store_fault R (tick w), models_fault R (S (tick w)) with
    | None, None => true
    | _, _ => false
    end in
  exists w3 k,
    no_work w w3 /\ table w3 = table w /\ extends w w3
    /\ (forall msg, env_ok = true -> store_fault R (tick w) = Some msg ->
          In (console_error " Database connection failed:" (Some (PostgrestError msg)))
            (trace w3))
    /\ (forall msg, env_ok = true -> models_fault R (S (tick w)) = Some msg ->
          In (console_error " OpenAI connection failed:" (Some (APIError msg)))
            (trace w3))
    /\ VehicleImageGenerator.processAllVehicles R w
       = try_catch k (fun error => log_error "Error in processAllVehicles:" (Some error))
           R w3
    /\ (env_ok = false ->
        tick w3 = tick w
        /\ k = log_error " Environment variable check failed." None)
    /\ (env_ok = true -> checks_ok = false ->
        tick w3 = S (S (tick w))
        /\ k = log_error " Connection tests failed. Please check your .env file." None)
    /\ (env_ok = true -> checks_ok = true ->
        tick w3 = S (S (tick w))
        /\ k = (fetched <- VehicleImageGenerator.getVehiclesWithoutImages ;;
                vehicles <- array_of fetched "length" ;;
                log (" Found " ++ string_of_nat (List.length vehicles)
                     ++ " vehicle to process") ;;
                if (List.length vehicles =? 0)%nat
                then log " All vehicle already have images!"
                else
                  VehicleImageGenerator.processFrom (List.length vehicles) 0 vehicles ;;
                  log (nl ++ " All vehicle processed!"))).
Proof.
  cbv zeta. unfold VehicleImageGenerator.processAllVehicles.
  rewrite try_catch_eq, bind_eq. unfold log at 1. cbn iota beta.
  set (w0 := emit (console_log " Starting vehicle processing...") w).
  assert (Hnw0 : no_work w w0) by (now apply no_work_emit).
  assert (Hex0 : extends w w0) by (now apply extends_emit).
  rewrite bind_eq.
  destruct (testEnvironmentVariables_spec R w0) as [Hres [[Ht1 [Hk1 _]] _]].
  pose proof (VIG_testEnvironmentVariables_no_work R w0) as Hnw1.
  assert (Hex1 : extends w0 (snd (VehicleImageGenerator.testEnvironmentVariables R w0))).
  { destruct (testEnvironmentVariables_spec R w0) as [_ [_ [evs [Hevs _]]]].
    now exists evs. }
  cbv zeta in *.
  destruct (VehicleImageGenerator.testEnvironmentVariables R w0) as [o w1].
  cbn [fst snd] in *. subst o.
  destruct (forallb (fun name => truthy (process_env R name)) requiredVars);
    cbn [negb].
  2: { exists w1. eexists.
       split; [apply no_work_trans with w0; assumption |].
       split; [exact Ht1 |].
       split; [apply extends_trans with w0; assumption |].
       split; [discriminate |]. split; [discriminate |].
       split; [reflexivity |].
       split; [intros _; split; [exact Hk1 | reflexivity] |].
       split; discriminate. }
  rewrite bind_eq.
  destruct (VIG_testConnection_spec R w1) as [Hk2 [Hex2 Hdb]].
  pose proof (VIG_testConnection_no_work R w1) as Hnw2.
  pose proof (VIG_testConnection_same_table R w1) as Ht2.
  cbv zeta in *.
  destruct (VehicleImageGenerator.testConnection R w1) as [o2 w2].
  cbn [fst snd] in *.
  destruct (VIG_testOpenAIConnection_spec R w2) as [Hk3 [Hex3 Hai]].
  pose proof (VIG_testOpenAIConnection_no_work R w2) as Hnw3.
  pose proof (VIG_testOpenAIConnection_same_table R w2) as Ht3.
  cbv zeta in *. rewrite Hk2, Hk1 in Hai. rewrite Hk1 in Hdb.
  change (tick w0) with (tick w) in *.
  assert (Hnw : no_work w (snd (VehicleImageGenerator.testOpenAIConnection R w2))).
  { apply no_work_trans with w0; [assumption |].
    apply no_work_trans with w1; [assumption |].
    apply no_work_trans with w2; assumption. }
  assert (Hex : extends w (snd (VehicleImageGenerator.testOpenAIConnection R w2))).
  { apply extends_trans with w0; [assumption |].
    apply extends_trans with w1; [assumption |].
    apply extends_trans with w2; assumption. }
  assert (Htab : table (snd (VehicleImageGenerator.testOpenAIConnection R w2)) = table w).
  { unfold same_table in *. rewrite Ht3, Ht2, Ht1. reflexivity. }
  assert (Htick : tick (snd (VehicleImageGenerator.testOpenAIConnection R w2))
                  = S (S (tick w))).
  { rewrite Hk3, Hk2, Hk1. reflexivity. }
  exists (snd (VehicleImageGenerator.testOpenAIConnection R w2)).
  destruct (store_fault R (tick w)) as [msg1 |] eqn:F1;
    destruct (models_fault R (S (tick w))) as [msg2 |] eqn:F2.
  all: try match type of Hdb with _ /\ _ => destruct Hdb as [Hdb Hdiag1] end.
  all: try match type of Hai with _ /\ _ => destruct Hai as [Hai Hdiag2] end.
  all: subst o2; rewrite bind_eq;
    destruct (VehicleImageGenerator.testOpenAIConnection R w2) as [o3 w3];
    cbn [fst snd] in *; subst o3; cbn [negb orb];
    eexists;
    (split; [exact Hnw |]); (split; [exact Htab |]); (split; [exact Hex |]).
  all: split; [intros msg _ [= <-]; apply extends_In with w2; assumption |].
  all: split; [intros msg _ [= <-]; assumption |].
  all: split; [reflexivity |].
  all: split; [discriminate |].
  all: split; intros _; try discriminate; intros _; split; [exact Htick | reflexivity].
Qed.

Lemma all_set_forallb env :
  (forall name, In name requiredVars -> is_set env name)
  <-> forallb (fun name => truthy (env name)) requiredVars = true.
Proof.
  rewrite forallb_forall.
  split; intros H name Hin; apply truthy_true, H, Hin.
Qed.

(** With no row lacking an image [processAllVehicles] does no work, whatever
    the services do. *)
Lemma VIG_processAllVehicles_empty R w :
  candidates true (table w) = [] ->
  let res := VehicleImageGenerator.processAllVehicles R w in
  fst res = Return tt
  /\ no_work w (snd res)
  /\ table (snd res) = table w
  /\ ((forall name, In name requiredVars -> is_set (process_env R) name) ->
      store_fault R (tick w) = None ->
      models_fault R (S (tick w)) = None ->
      store_fault R (S (S (tick w))) = None ->
      In (console_log " All vehicle already have images!") (trace (snd res))).
Proof.
  intros Hempty. cbv zeta.
  destruct (VIG_processAllVehicles_preflight R w)
    as [w3 [k [Hnw [Htab [_ [_ [_ [Heq [Henv [Hchk Hgo]]]]]]]]]].
  cbv zeta in *. rewrite Heq. clear Heq. rewrite try_catch_eq.
  rewrite all_set_forallb.
  destruct (forallb (fun name => truthy (process_env R name)) requiredVars).
  2: { destruct Henv as [_ ->]; [reflexivity |]. destruct w3 as [t3 c3 k3 tr3]. run.
       unfold no_work in *. cbn [trace table] in *.
       split; [reflexivity |]. split; [split; tally |]. split; [exact Htab |].
       discriminate. }
  destruct (match store_fault R (tick w) with
            | Some _ => false
            | None => match models_fault R (S (tick w)) with
                      | Some _ => false
                      | None => true
                      end
            end) eqn:Hchecks.
  2: { destruct Hchk as [_ ->]; try reflexivity. destruct w3 as [t3 c3 k3 tr3]. run.
       unfold no_work in *. cbn [trace table] in *.
       split; [reflexivity |]. split; [split; tally |]. split; [exact Htab |].
       intros _ H1 H2. rewrite H1, H2 in Hchecks. discriminate. }
  destruct Hgo as [Htick ->]; try reflexivity. rewrite bind_eq.
  destruct (VIG_getVehiclesWithoutImages_spec R w3) as [Ht4 [Hnw4 [_ Hsel]]].
  cbv zeta in *.
  destruct (VehicleImageGenerator.getVehiclesWithoutImages R w3) as [o w4].
  cbn [fst snd] in *. rewrite Htab in Hsel. unfold candidates in Hempty.
  rewrite Hempty in Hsel.
  assert (Hnw' : no_work w w4) by (apply no_work_trans with w3; assumption).
  assert (Htab' : table w4 = table w) by congruence.
  destruct w4 as [t4 c4 k4 tr4]. unfold no_work in *. cbn [trace table] in *.
  destruct (store_fault R (tick w3)) eqn:Hfault; subst o; run.
  - split; [reflexivity |]. split; [split; tally |]. split; [exact Htab' |].
    intros _ _ _ H. rewrite <- Htick, Hfault in H. discriminate.
  - cbn [List.length Nat.eqb]. run.
    split; [reflexivity |]. split; [split; tally |]. split; [exact Htab' |].
    intros _ _ _ _. apply in_or_app. right. now left.
Qed.

Lemma Part000_displayResults_no_work : keeps no_work Part000.displayResults.
Proof.
  about_no_work.
  unfold Part000.displayResults, Part000.getAllVehicles, Part000.displayOne.
  keeps_auto.
Qed.

Lemma Part000_displayResults_same_table : keeps same_table Part000.displayResults.
Proof.
  about_same_table.
  unfold Part000.displayResults, Part000.getAllVehicles, Part000.displayOne.
  keeps_auto.
Qed.

Lemma Part000_displayResults_returns R w :
  fst (Part000.displayResults R w) = Return tt.
Proof.
  unfold Part000.displayResults. rewrite try_catch_eq.
  destruct (bind Part000.getAllVehicles _ R w) as [[[] | e] w1]; reflexivity.
Qed.

(** With an empty table the entry point of part_000 does no work. *)
Lemma Part000_main_empty R w :
  table w = [] ->
  fst (Part000.main R w) = Return tt /\ no_work w (snd (Part000.main R w)).
Proof.
  intros Hempty. remember (Part000.main R w) as res eqn:E.
  unfold Part000.main in E. rewrite !log_bind in E.
  set (w0 := emit _ (emit _ w)) in E.
  assert (Hnw0 : no_work w w0).
  { apply no_work_trans with (emit (console_log "Vehicle Image Generator Starting...") w);
      now apply no_work_emit. }
  assert (Ht0 : table w0 = []) by exact Hempty.
  rewrite try_catch_eq, bind_eq in E.
  destruct (Part000_getVehiclesWithoutImages_spec R w0) as [Ht1 [Hnw1 [_ Hsel]]].
  cbv zeta in *.
  destruct (Part000.getVehiclesWithoutImages R w0) as [o w1]. cbn [fst snd] in *.
  rewrite Ht0 in Hsel. cbn [filter] in Hsel.
  assert (Hnw01 : no_work w w1) by (apply no_work_trans with w0; assumption).
  destruct (store_fault R (tick w0)); subst o.
  { cbn iota beta in E. unfold log_error in E. subst res. split; [reflexivity |].
    apply no_work_trans with w1; [assumption | now apply no_work_emit]. }
  rewrite bind_eq in E. unfold array_of at 1, ret at 1 in E. cbn iota beta in E.
  cbn [List.length Nat.ltb Nat.leb] in E. cbn iota in E.
  rewrite bind_eq, log_bind in E.
  set (w2 := emit _ w1) in E.
  assert (Hnw2 : no_work w w2).
  { apply no_work_trans with w1; [assumption | now apply no_work_emit]. }
  assert (Ht2 : candidates false (table w2) = []).
  { unfold w2. cbn [emit table]. now rewrite Ht1, Ht0. }
  destruct (Part000_processVehicles_empty false R w2 Ht2) as [Hnw3 _].
  unfold Part000.regenerateAllImages in E. cbv zeta in Hnw3.
  destruct (Part000.processVehicles false R w2) as [[[] | e] w3]; cbn [snd] in *.
  - pose proof (Part000_displayResults_no_work R w3) as Hnw4.
    pose proof (Part000_displayResults_returns R w3) as Hret.
    destruct (Part000.displayResults R w3) as [o4 w4]. cbn [fst snd] in *. subst o4.
    subst res. split; [reflexivity |].
    apply no_work_trans with w2; [assumption |].
    apply no_work_trans with w3; assumption.
  - unfold log_error in E. subst res. split; [reflexivity |].
    apply no_work_trans with w2; [assumption |].
    apply no_work_trans with w3; [assumption | now apply no_work_emit].
Qed.

(** ** The per-record loop *)

Lemma occurrences_generate_requests tr :
  occurrences is_generate tr = List.length (requests tr).
Proof.
  unfold occurrences. induction tr as [| e tr IH]; simpl; [reflexivity |].
  destruct e; simpl; auto.
Qed.

Lemma pauses_all n : pauses n 0 n = n - 1.
Proof.
  unfold pauses. destruct n as [| n]; [reflexivity |].
  replace (S n - 1) with n by lia.
  rewrite seq_S, filter_app, length_app. simpl.
  replace (n <? n)%nat with false by (symmetry; apply Nat.ltb_irrefl). simpl.
  rewrite Nat.add_0_r.
  assert (H : forall l, (forall j, In j l -> j < n) ->
                        filter (fun j => (j <? n)%nat) l = l).
  { induction l as [| a l IH]; intros Hl; simpl; [reflexivity |].
    replace (a <? n)%nat with true
      by (symmetry; apply Nat.ltb_lt, Hl; now left).
    f_equal. apply IH. intros j Hj. apply Hl. now right. }
  rewrite H; [apply length_seq |].
  intros j Hj. apply in_seq in Hj. lia.
Qed.

Lemma pauses_step len i k :
  pauses len i (S k) = (if (i <? len - 1)%nat then 1 else 0) + pauses len (S i) k.
Proof. unfold pauses. simpl. now destruct (i <? len - 1)%nat. Qed.

(** What one call of [updateVehicleImage] adds to the trace. *)
Lemma Part000_updateVehicleImage_counts vid u force R w :
  let res := Part000.updateVehicleImage vid u force R w in
  requests (trace (snd res)) = requests (trace w)
  /\ occurrences is_delay (trace (snd res)) = occurrences is_delay (trace w)
  /\ occurrences is_update (trace (snd res)) <= occurrences is_update (trace w) + 1.
Proof.
  destruct w as [t c k tr]. unfold Part000.updateVehicleImage. run.
  destruct (store_fault R k); run.
  2: destruct (rows_with_id vid t) as [| current [| r' l]]; run.
  3: destruct (truthy (vehiclegraphic current) && negb force); run.
  4: destruct (store_fault R (S k)); run.
  all: rewrite ?requests_app; cbn [requests]; rewrite ?app_nil_r;
    repeat split; try reflexivity; tally.
Qed.

Lemma VIG_updateVehicleImage_counts vid u R w :
  let res := VehicleImageGenerator.updateVehicleImage vid u R w in
  requests (trace (snd res)) = requests (trace w)
  /\ occurrences is_delay (trace (snd res)) = occurrences is_delay (trace w)
  /\ occurrences is_update (trace (snd res)) <= occurrences is_update (trace w) + 1.
Proof.
  destruct w as [t c k tr]. unfold VehicleImageGenerator.updateVehicleImage. run.
  destruct (store_fault R k); run.
  all: rewrite ?requests_app; cbn [requests]; rewrite ?app_nil_r;
    repeat split; try reflexivity; tally.
Qed.

(** One turn of the loop: it never throws, it sends one request to the
    provider, at most one write, and at most the pause of its index. *)
Lemma Part000_processOne_effect onlyMissing len i v R w :
  let res := Part000.processOne onlyMissing len i v R w in
  fst res = Return tt
  /\ requests (trace (snd res))
     = (requests (trace w) ++ [Part000.imageRequest (vehicletype v)])%list
  /\ occurrences is_update (trace (snd res)) <= occurrences is_update (trace w) + 1
  /\ occurrences is_delay (trace (snd res))
     <= occurrences is_delay (trace w) + (if (i <? len - 1)%nat then 1 else 0).
Proof.
  cbv zeta. unfold Part000.processOne. rewrite try_catch_eq, log_bind, bind_eq.
  set (w0 := emit _ w).
  destruct (Part000_generate_spec (vehicletype v) R w0)
    as [Hreq [_ [Hupd [Hdel _]]]].
  cbv zeta in *.
  destruct (Part000.generateVehicleImage (vehicletype v) R w0) as [[imageUrl | e] w1];
    cbn [fst snd] in *.
  2: { destruct w1 as [t1 c1 k1 tr1], w as [t c k tr]. run. cbn [trace w0 emit] in *.
       rewrite ?requests_app in *. cbn [requests] in *. rewrite ?app_nil_r in *.
       repeat split; try assumption; try reflexivity;
         destruct (i <? len - 1)%nat; revert Hupd Hdel; tally. }
  rewrite bind_eq.
  destruct (Part000_updateVehicleImage_counts (id v) imageUrl (negb onlyMissing) R w1)
    as [Hreq2 [Hdel2 Hupd2]].
  cbv zeta in *.
  destruct (Part000.updateVehicleImage (id v) imageUrl (negb onlyMissing) R w1)
    as [[written | e] w2]; cbn [fst snd] in *.
  2: { destruct w2 as [t2 c2 k2 tr2], w as [t c k tr]. run. cbn [trace w0 emit] in *.
       rewrite ?requests_app in *. cbn [requests] in *. rewrite ?app_nil_r in *.
       repeat split; try congruence;
         destruct (i <? len - 1)%nat; revert Hupd Hdel Hupd2 Hdel2; tally. }
  destruct w2 as [t2 c2 k2 tr2], w as [t c k tr].
  destruct (i <? len - 1)%nat; run; cbn [trace w0 emit] in *;
    rewrite ?requests_app in *; cbn [requests] in *; rewrite ?app_nil_r in *;
    repeat split; try congruence; revert Hupd Hdel Hupd2 Hdel2; tally.
Qed.

Lemma VIG_processOne_effect len i v R w :
  let res := VehicleImageGenerator.processOne len i v R w in
  fst res = Return tt
  /\ requests (trace (snd res))
     = (requests (trace w) ++ [VehicleImageGenerator.imageRequest (vehicletype v)])%list
  /\ occurrences is_update (trace (snd res)) <= occurrences is_update (trace w) + 1
  /\ occurrences is_delay (trace (snd res))
     <= occurrences is_delay (trace w) + (if (i <? len - 1)%nat then 1 else 0).
Proof.
  cbv zeta. unfold VehicleImageGenerator.processOne.
  rewrite try_catch_eq, log_bind, bind_eq.
  set (w0 := emit _ w).
  destruct (VehicleImageGenerator_generate_spec (vehicletype v) R w0)
    as [Hreq [_ [Hupd [Hdel _]]]].
  cbv zeta in *.
  destruct (VehicleImageGenerator.generateVehicleImage (vehicletype v) R w0)
    as [[imageUrl | e] w1]; cbn [fst snd] in *.
  2: { destruct w1 as [t1 c1 k1 tr1], w as [t c k tr]. run. cbn [trace w0 emit] in *.
       rewrite ?requests_app in *. cbn [requests] in *. rewrite ?app_nil_r in *.
       repeat split; try assumption; try reflexivity;
         destruct (i <? len - 1)%nat; revert Hupd Hdel; tally. }
  rewrite bind_eq.
  destruct (VIG_updateVehicleImage_counts (id v) imageUrl R w1)
    as [Hreq2 [Hdel2 Hupd2]].
  cbv zeta in *.
  destruct (VehicleImageGenerator.updateVehicleImage (id v) imageUrl R w1)
    as [[written | e] w2]; cbn [fst snd] in *.
  2: { destruct w2 as [t2 c2 k2 tr2], w as [t c k tr]. run. cbn [trace w0 emit] in *.
       rewrite ?requests_app in *. cbn [requests] in *. rewrite ?app_nil_r in *.
       repeat split; try congruence;
         destruct (i <? len - 1)%nat; revert Hupd Hdel Hupd2 Hdel2; tally. }
  destruct w2 as [t2 c2 k2 tr2], w as [t c k tr].
  destruct (i <? len - 1)%nat; run; cbn [trace w0 emit] in *;
    rewrite ?requests_app in *; cbn [requests] in *; rewrite ?app_nil_r in *;
    repeat split; try congruence; revert Hupd Hdel Hupd2 Hdel2; tally.
Qed.

(** The whole loop, by induction on the records still to process. *)
Lemma Part000_processFrom_effect onlyMissing len vehicles :
  forall i R w,
    let res := Part000.processFrom onlyMissing len i vehicles R w in
    fst res = Return tt
    /\ requests (trace (snd res))
       = (requests (trace w)
          ++ map (fun v => Part000.imageRequest (vehicletype v)) vehicles)%list
    /\ occurrences is_update (trace (snd res))
       <= occurrences is_update (trace w) + List.length vehicles
    /\ occurrences is_delay (trace (snd res))
       <= occurrences is_delay (trace w) + pauses len i (List.length vehicles).
Proof.
  induction vehicles as [| v rest IH]; intros i R w; cbv zeta.
  - cbn. rewrite app_nil_r. unfold pauses. cbn. repeat split; lia.
  - cbn [Part000.processFrom]. rewrite bind_eq.
    destruct (Part000_processOne_effect onlyMissing len i v R w)
      as [Hret [Hreq [Hupd Hdel]]].
    cbv zeta in *.
    destruct (Part000.processOne onlyMissing len i v R w) as [o w1].
    cbn [fst snd] in *. subst o.
    destruct (IH (S i) R w1) as [Hret' [Hreq' [Hupd' Hdel']]]. cbv zeta in *.
    split; [exact Hret' |].
    split; [rewrite Hreq', Hreq, <- app_assoc; reflexivity |].
    cbn [List.length]. rewrite pauses_step. split; lia.
Qed.

Lemma VIG_processFrom_effect len vehicles :
  forall i R w,
    let res := VehicleImageGenerator.processFrom len i vehicles R w in
    fst res = Return tt
    /\ requests (trace (snd res))
       = (requests (trace w)
          ++ map (fun v => VehicleImageGenerator.imageRequest (vehicletype v))
               vehicles)%list
    /\ occurrences is_update (trace (snd res))
       <= occurrences is_update (trace w) + List.length vehicles
    /\ occurrences is_delay (trace (snd res))
       <= occurrences is_delay (trace w) + pauses len i (List.length vehicles).
Proof.
  induction vehicles as [| v rest IH]; intros i R w; cbv zeta.
  - cbn. rewrite app_nil_r. unfold pauses. cbn. repeat split; lia.
  - cbn [VehicleImageGenerator.processFrom]. rewrite bind_eq.
    destruct (VIG_processOne_effect len i v R w) as [Hret [Hreq [Hupd Hdel]]].
    cbv zeta in *.
    destruct (VehicleImageGenerator.processOne len i v R w) as [o w1].
    cbn [fst snd] in *. subst o.
    destruct (IH (S i) R w1) as [Hret' [Hreq' [Hupd' Hdel']]]. cbv zeta in *.
    split; [exact Hret' |].
    split; [rewrite Hreq', Hreq, <- app_assoc; reflexivity |].
    cbn [List.length]. rewrite pauses_step. split; lia.
Qed.

(** Every record of the candidate set gets its request, in order, whatever
    fails on the way; there are at most as many writes as records and at
    most one pause fewer than records. *)
Theorem loop_attempts_every_record :
  forall onlyMissing vehicles R w,
    (let res := Part000.processFrom onlyMissing (List.length vehicles) 0 vehicles R w in
     fst res = Return tt
     /\ requests (trace (snd res))
        = (requests (trace w)
           ++ map (fun v => Part000.imageRequest (vehicletype v)) vehicles)%list
     /\ occurrences is_generate (trace (snd res))
        = occurrences is_generate (trace w) + List.length vehicles
     /\ occurrences is_update (trace (snd res))
        <= occurrences is_update (trace w) + List.length vehicles
     /\ occurrences is_delay (trace (snd res))
        <= occurrences is_delay (trace w) + (List.length vehicles - 1))
    /\ (let res := VehicleImageGenerator.processFrom (List.length vehicles) 0 vehicles R w in
        fst res = Return tt
        /\ requests (trace (snd res))
           = (requests (trace w)
              ++ map (fun v => VehicleImageGenerator.imageRequest (vehicletype v))
                   vehicles)%list
        /\ occurrences is_generate (trace (snd res))
           = occurrences is_generate (trace w) + List.length vehicles
        /\ occurrences is_update (trace (snd res))
           <= occurrences is_update (trace w) + List.length vehicles
        /\ occurrences is_delay (trace (snd res))
           <= occurrences is_delay (trace w) + (List.length vehicles - 1)).
Proof.
  intros onlyMissing vehicles R w. split; cbv zeta.
  - destruct (Part000_processFrom_effect onlyMissing (List.length vehicles) vehicles 0 R w)
      as [Hret [Hreq [Hupd Hdel]]].
    cbv zeta in *. rewrite pauses_all in Hdel.
    repeat split; try assumption.
    rewrite !occurrences_generate_requests, Hreq, length_app, length_map. reflexivity.
  - destruct (VIG_processFrom_effect (List.length vehicles) vehicles 0 R w)
      as [Hret [Hreq [Hupd Hdel]]].
    cbv zeta in *. rewrite pauses_all in Hdel.
    repeat split; try assumption.
    rewrite !occurrences_generate_requests, Hreq, length_app, length_map. reflexivity.
Qed.

(** ** Runs against reliable services *)

Lemma Forall2_map_In {A B} (f : A -> A) (P Q : A -> B -> Prop) l l2 :
  Forall2 P (map f l) l2 ->
  (forall r r2, In r l -> P (f r) r2 -> Q r r2) ->
  Forall2 Q l l2.
Proof.
  revert l2. induction l as [| a l IH]; intros l2 H HPQ; simpl in H.
  - inversion H. constructor.
  - inversion H as [| x y lx ly Hxy Hrest]; subst. constructor.
    + apply HPQ; [now left | exact Hxy].
    + apply IH; [exact Hrest |]. intros r r2 Hin. apply HPQ. now right.
Qed.

Lemma existsb_id_In vid (ids : list Z) :
  existsb (Z.eqb vid) ids = true <-> In vid ids.
Proof.
  rewrite existsb_exists. split.
  - intros [x [Hin Heq]]. apply Z.eqb_eq in Heq. now subst.
  - intros Hin. exists vid. split; [exact Hin | apply Z.eqb_refl].
Qed.

(** One turn of the loop of part_000 when nothing fails. *)
Lemma Part000_processOne_reliable onlyMissing len i v R w r0 :
  reliable R ->
  rows_with_id (id v) (table w) = [r0] ->
  onlyMissing = false \/ truthy (vehiclegraphic r0) = false ->
  exists k img rest,
    images_reply R k (Part000.imageRequest (vehicletype v)) = inr (img :: rest)
    /\ let res := Part000.processOne onlyMissing len i v R w in
       table (snd res) = map (write_image (id v) (url img) (clock w)) (table w)
       /\ occurrences is_update (trace (snd res)) = occurrences is_update (trace w) + 1
       /\ occurrences is_delay (trace (snd res))
          = occurrences is_delay (trace w) + (if (i <? len - 1)%nat then 1 else 0).
Proof.
  intros [_ [Hstore [_ Himages]]] Hrows Hgo.
  destruct w as [t c k tr]. cbn [table] in Hrows.
  destruct (Himages k (Part000.imageRequest (vehicletype v))) as [img [rest Hreply]].
  exists k, img, rest. split; [exact Hreply |].
  assert (Hflag : truthy (vehiclegraphic r0) && negb (negb onlyMissing) = false).
  { destruct Hgo as [-> | ->]; [apply andb_false_r | reflexivity]. }
  cbv zeta. unfold Part000.processOne, Part000.generateVehicleImage,
    Part000.updateVehicleImage. run.
  rewrite Hreply. run. cbn [nth_error]. run.
  rewrite !Hstore, Hrows. run. rewrite Hflag. run. rewrite !Hstore. run.
  destruct (i <? len - 1)%nat; run; repeat split; try reflexivity; tally.
Qed.

Lemma Part000_processFrom_reliable onlyMissing len R :
  reliable R ->
  forall vs i w,
    NoDup (map id vs) ->
    (forall v, In v vs ->
       exists r0, rows_with_id (id v) (table w) = [r0]
                  /\ vehicletype r0 = vehicletype v
                  /\ (onlyMissing = false \/ truthy (vehiclegraphic r0) = false)) ->
    let res := Part000.processFrom onlyMissing len i vs R w in
    Forall2 (processed R vs) (table w) (table (snd res))
    /\ occurrences is_update (trace (snd res))
       = occurrences is_update (trace w) + List.length vs
    /\ occurrences is_delay (trace (snd res))
       = occurrences is_delay (trace w) + pauses len i (List.length vs).
Proof.
  intros HR. induction vs as [| v rest IH]; intros i w Hnodup Hrows; cbv zeta.
  - cbn. unfold pauses. cbn. split; [| lia].
    unfold processed. cbn. clear. induction (table w); constructor; auto.
  - cbn [Part000.processFrom]. rewrite bind_eq.
    destruct (Hrows v (or_introl eq_refl)) as [r0 [Hr0 [Htype Hgo]]].
    destruct (Part000_processOne_reliable onlyMissing len i v R w r0 HR Hr0 Hgo)
      as [k [img [more [Hreply [Htab [Hupd Hdel]]]]]].
    destruct (Part000_processOne_effect onlyMissing len i v R w) as [Hret _].
    cbv zeta in *.
    destruct (Part000.processOne onlyMissing len i v R w) as [o w1].
    cbn [fst snd] in *. subst o.
    cbn [map] in Hnodup. apply NoDup_cons_iff in Hnodup. destruct Hnodup as [Hnotin Hnd].
    destruct (IH (S i) w1 Hnd) as [Hall [Hupd' Hdel']].
    { intros v' Hin'. destruct (Hrows v' (or_intror Hin')) as [r' [Hr' Hrest']].
      exists r'. split; [| exact Hrest'].
      rewrite Htab, rows_with_id_write_other; [exact Hr' |].
      intros Heq. apply Hnotin. rewrite <- Heq. now apply in_map. }
    cbv zeta in *. split.
    + rewrite Htab in Hall.
      apply (Forall2_map_In _ _ _ _ _ Hall).
      intros r r2 Hin. unfold processed. rewrite id_write_image. cbn [map existsb].
      destruct (Z.eqb (id r) (id v)) eqn:Hid; cbn [orb].
      * assert (Hno : existsb (Z.eqb (id r)) (map id rest) = false).
        { destruct (existsb (Z.eqb (id r)) (map id rest)) eqn:E; [| reflexivity].
          apply existsb_id_In in E. apply Z.eqb_eq in Hid. rewrite Hid in E.
          contradiction. }
        rewrite Hno. intros ->.
        assert (Hr : r = r0).
        { apply Z.eqb_eq in Hid.
          pose proof (rows_with_id_In (id v) (table w) r Hin Hid) as H.
          rewrite Hr0 in H. destruct H as [<- | []]. reflexivity. }
        subst r0. unfold write_image. rewrite Hid. unfold fresh_image. cbn.
        split; [reflexivity |]. split; [reflexivity |].
        exists k, img, more. rewrite Htype. now split.
      * unfold write_image. rewrite Hid. tauto.
    + cbn [List.length]. rewrite pauses_step. lia.
Qed.

Lemma Forall2_impl_In {A B} (P Q : A -> B -> Prop) l l2 :
  Forall2 P l l2 ->
  (forall r r2, In r l -> P r r2 -> Q r r2) ->
  Forall2 Q l l2.
Proof.
  intros H HPQ. apply (Forall2_map_In (fun r => r) P Q); [now rewrite map_id | exact HPQ].
Qed.

Lemma NoDup_map_id_inj t a b :
  NoDup (map id t) -> In a t -> In b t -> id a = id b -> a = b.
Proof.
  induction t as [| x t IH]; intros Hnd Ha Hb Hid; [contradiction |].
  cbn [map] in Hnd. apply NoDup_cons_iff in Hnd. destruct Hnd as [Hx Hnd].
  destruct Ha as [-> | Ha], Hb as [-> | Hb].
  - reflexivity.
  - exfalso. apply Hx. rewrite Hid. now apply in_map.
  - exfalso. apply Hx. rewrite <- Hid. now apply in_map.
  - now apply IH.
Qed.

Lemma rows_unique t v :
  NoDup (map id t) -> In v t -> rows_with_id (id v) t = [v].
Proof.
  induction t as [| x t IH]; intros Hnd Hin; [contradiction |].
  cbn [map] in Hnd. apply NoDup_cons_iff in Hnd. destruct Hnd as [Hx Hnd].
  unfold rows_with_id in *. cbn [filter].
  destruct Hin as [-> | Hin].
  - rewrite Z.eqb_refl. f_equal.
    destruct (filter (fun r => Z.eqb (id r) (id v)) t) as [| y l] eqn:E; [reflexivity |].
    assert (Hy : In y (filter (fun r => Z.eqb (id r) (id v)) t)) by (rewrite E; now left).
    apply filter_In in Hy. destruct Hy as [Hy Heq]. apply Z.eqb_eq in Heq.
    exfalso. apply Hx. rewrite <- Heq. now apply in_map.
  - destruct (Z.eqb (id x) (id v)) eqn:E; [| now apply IH].
    apply Z.eqb_eq in E. exfalso. apply Hx. rewrite E. now apply in_map.
Qed.

Lemma insert_by_id_perm r l : Permutation (insert_by_id r l) (r :: l).
Proof.
  induction l as [| x l IH]; cbn [insert_by_id]; [reflexivity |].
  destruct (Z.leb (id r) (id x)); [reflexivity |].
  rewrite IH. apply perm_swap.
Qed.

Lemma order_by_id_perm t : Permutation (order_by_id t) t.
Proof.
  unfold order_by_id. induction t as [| x t IH]; cbn [fold_right]; [reflexivity |].
  rewrite insert_by_id_perm. now constructor.
Qed.

Lemma NoDup_map_filter (f : vehicle -> bool) t :
  NoDup (map id t) -> NoDup (map id (filter f t)).
Proof.
  induction t as [| x t IH]; intros Hnd; cbn; [constructor |].
  cbn [map] in Hnd. apply NoDup_cons_iff in Hnd. destruct Hnd as [Hx Hnd].
  destruct (f x); [| now apply IH]. cbn [map]. constructor; [| now apply IH].
  intros Hin. apply Hx. apply in_map_iff in Hin. destruct Hin as [y [Hy Hin]].
  apply filter_In in Hin. rewrite <- Hy. apply in_map. apply Hin.
Qed.

(** The candidates of either mode are rows of the table, each the only row
    with its identifier, with pairwise different identifiers. *)
Lemma candidates_rows onlyMissing t :
  NoDup (map id t) ->
  NoDup (map id (candidates onlyMissing t))
  /\ forall v, In v (candidates onlyMissing t) ->
               In v t /\ rows_with_id (id v) t = [v]
               /\ (onlyMissing = false \/ truthy (vehiclegraphic v) = false).
Proof.
  intros Hnd. destruct onlyMissing; cbn [candidates].
  - split; [now apply NoDup_map_filter |].
    intros v Hin. apply filter_In in Hin. destruct Hin as [Hin Hnull].
    split; [exact Hin |]. split; [now apply rows_unique |]. right.
    destruct (vehiclegraphic v); [discriminate | reflexivity].
  - split.
    + eapply Permutation_NoDup; [| exact Hnd].
      apply Permutation_map. symmetry. apply order_by_id_perm.
    + intros v Hin.
      assert (Hin' : In v t) by (eapply Permutation_in; [apply order_by_id_perm | exact Hin]).
      split; [exact Hin' |]. split; [now apply rows_unique | now left].
Qed.

(** [processVehicles] against reliable services, on a table with pairwise
    different identifiers: it returns normally, and every candidate row has
    a fresh image afterwards while every other row is the same. *)
Lemma Part000_processVehicles_reliable onlyMissing R w :
  reliable R ->
  NoDup (map id (table w)) ->
  let res := Part000.processVehicles onlyMissing R w in
  fst res = Return tt
  /\ Forall2 (processed R (candidates onlyMissing (table w)))
       (table w) (table (snd res)).
Proof.
  intros HR Hnd. cbv zeta.
  pose proof HR as [Henv [Hstore [Hmodels _]]].
  remember (Part000.processVehicles onlyMissing R w) as res eqn:E.
  unfold Part000.processVehicles in E. rewrite bind_eq in E.
  pose proof (Part000_testConnections_same_table R w) as Ht1.
  destruct (Part000_testConnections_spec R w) as [_ Hpre]. cbv zeta in *.
  destruct Hpre as [_ Hok]; [now apply missingVars_nil |].
  rewrite Hmodels in Hok.
  destruct (Part000.testConnections R w) as [o w1]. cbn [fst snd] in *. subst o.
  cbn [negb] in E. rewrite bind_eq in E.
  destruct (Part000_selection_spec onlyMissing R w1) as [Ht2 [_ [_ Hsel]]].
  cbv zeta in *. rewrite Hstore in Hsel.
  destruct ((if onlyMissing then Part000.getVehiclesWithoutImages
             else Part000.getAllVehicles) R w1) as [o w2].
  cbn [fst snd] in *. unfold same_table in Ht1. rewrite Ht1 in Hsel, Ht2. subst o.
  rewrite bind_eq in E. unfold array_of at 1, ret at 1 in E. cbn iota beta in E.
  rewrite log_bind in E. set (w3 := emit _ w2) in E.
  destruct (candidates_rows onlyMissing (table w) Hnd) as [Hnd' Hrows].
  destruct (candidates onlyMissing (table w)) as [| v vs] eqn:Hcand.
  - cbn [List.length Nat.eqb] in E. unfold log in E. subst res. cbn [fst snd emit table].
    split; [reflexivity |]. change (table w3) with (table w2).
    rewrite Ht2. unfold processed. cbn.
    clear. induction (table w); constructor; auto.
  - cbn [List.length Nat.eqb] in E. rewrite bind_eq in E.
    destruct (Part000_processFrom_reliable onlyMissing (S (List.length vs)) R HR
                (v :: vs) 0 w3 Hnd') as [Hall _].
    { intros v' Hin'. exists v'. destruct (Hrows v' Hin') as [_ [Hr Hgo]].
      unfold w3. cbn [emit table]. rewrite Ht2. now repeat split. }
    destruct (Part000_processFrom_effect onlyMissing (S (List.length vs)) (v :: vs) 0 R w3)
      as [Hret _].
    cbv zeta in *.
    destruct (Part000.processFrom onlyMissing (S (List.length vs)) 0 (v :: vs) R w3)
      as [o w4].
    cbn [fst snd] in *. subst o. unfold log in E. subst res. cbn [fst snd emit table].
    split; [reflexivity |].
    unfold w3 in Hall. cbn [emit table] in Hall. now rewrite Ht2 in Hall.
Qed.

(** *** The trace only grows *)

Lemma Part000_generateVehicleImage_extends label :
  keeps extends (Part000.generateVehicleImage label).
Proof. about_extends. unfold Part000.generateVehicleImage. keeps_auto. Qed.

Lemma Part000_updateVehicleImage_extends vid u force :
  keeps extends (Part000.updateVehicleImage vid u force).
Proof. about_extends. unfold Part000.updateVehicleImage. keeps_auto. Qed.

Lemma Part000_testConnections_extends : keeps extends Part000.testConnections.
Proof. about_extends. unfold Part000.testConnections. keeps_auto. Qed.

Lemma Part000_getVehiclesWithoutImages_extends :
  keeps extends Part000.getVehiclesWithoutImages.
Proof. about_extends. unfold Part000.getVehiclesWithoutImages. keeps_auto. Qed.

Lemma Part000_getAllVehicles_extends : keeps extends Part000.getAllVehicles.
Proof. about_extends. unfold Part000.getAllVehicles. keeps_auto. Qed.

#[local] Hint Resolve
  Part000_generateVehicleImage_extends Part000_updateVehicleImage_extends
  Part000_testConnections_extends Part000_getVehiclesWithoutImages_extends
  Part000_getAllVehicles_extends : keeps.

Lemma Part000_processFrom_extends onlyMissing len i vehicles :
  keeps extends (Part000.processFrom onlyMissing len i vehicles).
Proof.
  about_extends. revert i.
  induction vehicles as [| vehicle rest IH]; intros i; simpl.
  - keeps_auto.
  - unfold Part000.processOne. keeps_auto.
Qed.
#[local] Hint Resolve Part000_processFrom_extends : keeps.

Lemma Part000_processVehicles_extends onlyMissing :
  keeps extends (Part000.processVehicles onlyMissing).
Proof. about_extends. unfold Part000.processVehicles. keeps_auto. Qed.

Lemma Part000_displayResults_extends : keeps extends Part000.displayResults.
Proof.
  about_extends. unfold Part000.displayResults, Part000.displayOne. keeps_auto.
Qed.

Lemma healthy_reliable : reliable healthy.
Proof.
  split; [| split; [| split]]; try reflexivity.
  - intros name [<- | [<- | [<- | []]]]; exists "set"; split;
      try reflexivity; discriminate.
  - intros k req. eexists. eexists. reflexivity.
Qed.

(** Small identifiers are safe. *)
Lemma isSafeInteger_small z : (Z.abs z <= 1000000)%Z -> isSafeInteger z = true.
Proof.
  intros H. unfold isSafeInteger, MAX_SAFE_INTEGER.
  apply andb_true_intro. split; apply Z.leb_le; lia.
Qed.

Ltac safe_ids_small :=
  unfold safe_ids; cbn [table start]; repeat constructor;
  apply isSafeInteger_small; cbn; lia.

(** C9. The entry point of part_000 infers the run mode from the store.
    Against reliable services, on a table of safe, pairwise different
    identifiers: when no row lacks an image reference it announces a
    regeneration and every row ends with a fresh image, whatever it held;
    otherwise the rows that lacked a reference end with a fresh image and
    every other row is the same. *)
Theorem main_infers_run_mode :
  forall R w,
    reliable R ->
    NoDup (map id (table w)) ->
    safe_ids (table w) ->
    let res := Part000.main R w in
    fst res = Return tt
    /\ (candidates true (table w) = [] ->
        In (console_log "All vehicles have images. Regenerating all...")
          (trace (snd res))
        /\ Forall2 (fresh_image R) (table w) (table (snd res)))
    /\ (candidates true (table w) <> [] ->
        Forall2 (filled R) (table w) (table (snd res))).
Proof.
  intros R w HR Hnd _. cbv zeta.
  pose proof HR as [_ [Hstore _]].
  remember (Part000.main R w) as res eqn:E.
  unfold Part000.main in E. rewrite !log_bind in E.
  set (w0 := emit _ (emit _ w)) in E.
  assert (Ht0 : table w0 = table w) by reflexivity.
  rewrite try_catch_eq, bind_eq in E.
  destruct (Part000_getVehiclesWithoutImages_spec R w0) as [Ht1 [_ [_ Hsel]]].
  cbv zeta in *. rewrite Hstore, Ht0 in Hsel. rewrite Ht0 in Ht1.
  destruct (Part000.getVehiclesWithoutImages R w0) as [o w1]. cbn [fst snd] in *.
  subst o. rewrite bind_eq in E. unfold array_of at 1, ret at 1 in E.
  cbn iota beta in E. rewrite bind_eq in E.
  change (filter (fun r => is_null (vehiclegraphic r)) (table w))
    with (candidates true (table w)) in E.
  destruct (candidates true (table w)) as [| v vs] eqn:Hcand.
  - cbn [List.length Nat.ltb Nat.leb] in E. cbn iota in E. rewrite log_bind in E.
    set (w2 := emit _ w1) in E.
    assert (Hlog : In (console_log "All vehicles have images. Regenerating all...")
                     (trace w2)).
    { unfold w2. cbn [emit trace]. apply in_or_app. right. now left. }
    assert (Hnd2 : NoDup (map id (table w2))) by (cbn [w2 emit table]; now rewrite Ht1).
    destruct (Part000_processVehicles_reliable false R w2 HR Hnd2) as [Hret Hall].
    pose proof (Part000_processVehicles_extends false R w2) as Hex3.
    unfold Part000.regenerateAllImages in E. cbv zeta in *.
    destruct (Part000.processVehicles false R w2) as [o w3]. cbn [fst snd] in *.
    subst o.
    pose proof (Part000_displayResults_same_table R w3) as Ht4.
    pose proof (Part000_displayResults_extends R w3) as Hex4.
    pose proof (Part000_displayResults_returns R w3) as Hret4.
    destruct (Part000.displayResults R w3) as [o4 w4]. cbn [fst snd] in *.
    subst o4 res. cbn [fst snd].
    split; [reflexivity |]. split; [| congruence]. intros _. split.
    + apply extends_In with w3; [exact Hex4 |]. now apply extends_In with w2.
    + unfold same_table in Ht4. rewrite Ht4.
      change (table w2) with (table w1) in Hall. rewrite Ht1 in Hall.
      apply (Forall2_impl_In _ _ _ _ Hall).
      intros r r2 Hin. unfold processed.
      assert (Hid : existsb (Z.eqb (id r)) (map id (candidates false (table w))) = true).
      { apply existsb_id_In. apply in_map. cbn [candidates].
        eapply Permutation_in; [symmetry; apply order_by_id_perm | exact Hin]. }
      now rewrite Hid.
  - cbn [List.length Nat.ltb Nat.leb] in E. cbn iota in E.
    assert (Hnd1 : NoDup (map id (table w1))) by now rewrite Ht1.
    destruct (Part000_processVehicles_reliable true R w1 HR Hnd1) as [Hret Hall].
    unfold Part000.processOnlyMissingImages in E. cbv zeta in *.
    destruct (Part000.processVehicles true R w1) as [o w3]. cbn [fst snd] in *.
    subst o.
    pose proof (Part000_displayResults_same_table R w3) as Ht4.
    pose proof (Part000_displayResults_returns R w3) as Hret4.
    destruct (Part000.displayResults R w3) as [o4 w4]. cbn [fst snd] in *.
    subst o4 res. cbn [fst snd].
    split; [reflexivity |]. split; [discriminate |]. intros _.
    unfold same_table in Ht4. rewrite Ht4. rewrite Ht1 in Hall.
    apply (Forall2_impl_In _ _ _ _ Hall).
    intros r r2 Hin. unfold processed, filled. cbn [candidates].
    destruct (is_null (vehiclegraphic r)) eqn:Hnull.
    + assert (Hid : existsb (Z.eqb (id r))
                      (map id (filter (fun r => is_null (vehiclegraphic r)) (table w)))
                    = true).
      { apply existsb_id_In. apply in_map. apply filter_In. now split. }
      now rewrite Hid.
    + destruct (existsb (Z.eqb (id r))
                  (map id (filter (fun r => is_null (vehiclegraphic r)) (table w))))
        eqn:Hid; [| tauto].
      apply existsb_id_In in Hid. apply in_map_iff in Hid.
      destruct Hid as [r' [Hid' Hin']]. apply filter_In in Hin'.
      destruct Hin' as [Hin' Hnull'].
      assert (r' = r) by (apply (NoDup_map_id_inj (table w)); assumption).
      subst r'. congruence.
Qed.

Lemma main_infers_run_mode_witness :
  Forall2 (fresh_image healthy) [truck]
    (table (snd (Part000.main healthy (start [truck]))))
  /\ Forall2 (filled healthy) [sedan; truck]
       (table (snd (Part000.main healthy (start [sedan; truck])))).
Proof.
  split.
  - refine (proj2 (proj1 (proj2 (main_infers_run_mode healthy (start [truck])
                                  healthy_reliable _ _)) eq_refl)).
    + repeat constructor; simpl; tauto.
    + safe_ids_small.
  - refine (proj2 (proj2 (main_infers_run_mode healthy (start [sedan; truck])
                            healthy_reliable _ _)) _).
    + repeat constructor; simpl; intuition discriminate.
    + safe_ids_small.
    + discriminate.
Defined.

(** The two runs of the witness, computed. *)
Example main_regenerates :
  table (snd (Part000.main healthy (start [truck])))
  = [mkVehicle 2 "truck" (Some "https://img.example/4.png") 1000].
Proof. reflexivity. Qed.

Example main_fills :
  table (snd (Part000.main healthy (start [sedan; truck])))
  = [mkVehicle 1 "sedan" (Some "https://img.example/4.png") 1000; truck].
Proof. reflexivity. Qed.

(** The entry point of src/VehicleImageGenerator.js has one mode only: with
    no row lacking an image it stops and leaves every reference as it is. *)
Example VehicleImageGenerator_main_never_regenerates :
  table (snd (VehicleImageGenerator.main healthy (start [truck]))) = [truck]
  /\ In (console_log " All vehicle already have images!")
       (trace (snd (VehicleImageGenerator.main healthy (start [truck])))).
Proof. split; [reflexivity |]. vm_compute. tauto. Qed.

(** ** Pauses and failures *)

(** C2. The pause sits inside the [try] block, after the two calls: a record
    whose generation or update throws is followed by no pause.  Two
    candidates, the provider rejects the first request: both revisions send
    two requests and one write, and make no pause at all between the two
    requests, where one pause is due. *)
Theorem pause_skipped_after_failed_record :
  let w := start [sedan; coupe] in
  let revised := snd (Part000.processVehicles true first_request_rejected w) in
  let original := snd (VehicleImageGenerator.processAllVehicles first_request_rejected w) in
  candidates true (table w) = [sedan; coupe]
  /\ map prompt (requests (trace revised))
     = [Part000.generateImagePrompt "sedan"; Part000.generateImagePrompt "coupe"]
  /\ occurrences is_update (trace revised) = 1
  /\ occurrences is_delay (trace revised) = 0
  /\ map prompt (requests (trace original))
     = [VehicleImageGenerator.generateImagePrompt "sedan";
        VehicleImageGenerator.generateImagePrompt "coupe"]
  /\ occurrences is_update (trace original) = 1
  /\ occurrences is_delay (trace original) = 0.
Proof. vm_compute. repeat split; reflexivity. Qed.

(** The same two candidates with nothing failing: one pause. *)
Example pause_between_two_records :
  occurrences is_delay
    (trace (snd (Part000.processVehicles true healthy (start [sedan; coupe])))) = 1
  /\ occurrences is_delay
       (trace (snd (VehicleImageGenerator.processAllVehicles healthy
                      (start [sedan; coupe])))) = 1.
Proof. vm_compute. split; reflexivity. Qed.

(** When nothing fails the loop of part_000 makes one write per record and
    pauses after every record but the last. *)
Theorem loop_pauses_when_nothing_fails :
  forall onlyMissing R w vehicles,
    reliable R ->
    NoDup (map id vehicles) ->
    (forall v, In v vehicles ->
       exists r0, rows_with_id (id v) (table w) = [r0]
                  /\ vehicletype r0 = vehicletype v
                  /\ (onlyMissing = false \/ truthy (vehiclegraphic r0) = false)) ->
    let res := Part000.processFrom onlyMissing (List.length vehicles) 0 vehicles R w in
    occurrences is_generate (trace (snd res))
    = occurrences is_generate (trace w) + List.length vehicles
    /\ occurrences is_update (trace (snd res))
       = occurrences is_update (trace w) + List.length vehicles
    /\ occurrences is_delay (trace (snd res))
       = occurrences is_delay (trace w) + (List.length vehicles - 1).
Proof.
  intros onlyMissing R w vehicles HR Hnd Hrows. cbv zeta.
  destruct (Part000_processFrom_reliable onlyMissing (List.length vehicles) R HR
              vehicles 0 w Hnd Hrows) as [_ [Hupd Hdel]].
  destruct (Part000_processFrom_effect onlyMissing (List.length vehicles) vehicles 0 R w)
    as [_ [Hreq _]].
  cbv zeta in *. rewrite pauses_all in Hdel. repeat split; try assumption.
  rewrite !occurrences_generate_requests, Hreq, length_app, length_map. reflexivity.
Qed.

Lemma loop_pauses_when_nothing_fails_witness :
  occurrences is_delay
    (trace (snd (Part000.processFrom true 2 0 [sedan; coupe] healthy
                   (start [sedan; truck; coupe])))) = 1.
Proof.
  refine (proj2 (proj2 (loop_pauses_when_nothing_fails true healthy
                          (start [sedan; truck; coupe]) [sedan; coupe]
                          healthy_reliable _ _))).
  - repeat constructor; simpl; intuition discriminate.
  - intros v [<- | [<- | []]]; eexists; (split; [reflexivity |]); split;
      try reflexivity; now right.
Defined.

(** ** Connectivity checks *)

(** C4. In part_000 the answer of the store to the reachability probe is
    thrown away: when the store answers the probe with an error,
    [testConnections] still returns [true] and the run, started from
    [processVehicles] or from the entry point, goes on to request an image
    and to write.  The first revision tests the answer
    ([if (error) throw error]) and stops on the same input. *)
Theorem store_probe_error_is_ignored :
  let w := start [sedan] in
  let revised := Part000.processVehicles true probe_fails w in
  let original := VehicleImageGenerator.processAllVehicles probe_fails w in
  store_fault probe_fails (tick w) = Some "fetch failed"
  /\ fst (Part000.testConnections probe_fails w) = Return true
  /\ occurrences is_generate (trace (snd revised)) = 1
  /\ occurrences is_update (trace (snd revised)) = 1
  /\ table (snd revised)
     = [mkVehicle 1 "sedan" (Some "https://img.example/3.png") 1000]
  /\ occurrences is_generate (trace (snd (Part000.main probe_fails_in_main w))) = 1
  /\ occurrences is_update (trace (snd (Part000.main probe_fails_in_main w))) = 1
  /\ fst (VehicleImageGenerator.testConnection probe_fails w) = Return false
  /\ occurrences is_generate (trace (snd original)) = 0
  /\ occurrences is_update (trace (snd original)) = 0
  /\ table (snd original) = [sedan].
Proof. vm_compute. repeat split; reflexivity. Qed.

(** In the first revision a failed check of either service stops the run
    before the selection: no image is requested, no write is sent, the table
    is the same, and the diagnostic names the service that failed. *)
Theorem failed_check_halts_processAllVehicles :
  forall R w,
    (forall name, In name requiredVars -> is_set (process_env R) name) ->
    store_fault R (tick w) <> None \/ models_fault R (S (tick w)) <> None ->
    let res := VehicleImageGenerator.processAllVehicles R w in
    fst res = Return tt
    /\ no_work w (snd res)
    /\ table (snd res) = table w
    /\ tick (snd res) = S (S (tick w))
    /\ In (console_error " Connection tests failed. Please check your .env file." None)
         (trace (snd res))
    /\ (forall msg, store_fault R (tick w) = Some msg ->
          In (console_error " Database connection failed:" (Some (PostgrestError msg)))
            (trace (snd res)))
    /\ (forall msg, models_fault R (S (tick w)) = Some msg ->
          In (console_error " OpenAI connection failed:" (Some (APIError msg)))
            (trace (snd res))).
Proof.
  intros R w Henv Hfail. cbv zeta.
  destruct (VIG_processAllVehicles_preflight R w)
    as [w3 [k [Hnw [Htab [_ [Hd1 [Hd2 [Heq [_ [Hchk _]]]]]]]]]].
  cbv zeta in *. apply all_set_forallb in Henv.
  destruct Hchk as [Htick ->]; [exact Henv | |].
  { destruct (store_fault R (tick w)); [reflexivity |].
    destruct (models_fault R (S (tick w))); [reflexivity |].
    destruct Hfail; congruence. }
  rewrite Heq. destruct w3 as [t3 c3 k3 tr3]. run.
  unfold no_work in *. cbn [trace table tick] in *.
  split; [reflexivity |]. split; [split; tally |]. split; [exact Htab |].
  split; [exact Htick |].
  split; [apply in_or_app; right; now left |].
  split; intros msg Hmsg; apply in_or_app; left; auto.
Qed.

Lemma failed_check_halts_processAllVehicles_witness :
  no_work (start [sedan])
    (snd (VehicleImageGenerator.processAllVehicles provider_down (start [sedan])))
  /\ In (console_error " OpenAI connection failed:"
           (Some (APIError "401 Incorrect API key")))
       (trace (snd (VehicleImageGenerator.processAllVehicles provider_down
                      (start [sedan])))).
Proof.
  assert (Henv : forall name, In name requiredVars -> is_set (process_env provider_down) name).
  { apply healthy_reliable. }
  destruct (failed_check_halts_processAllVehicles provider_down (start [sedan]) Henv)
    as [_ [Hnw [_ [_ [_ [_ Hdiag]]]]]].
  - right. discriminate.
  - split; [exact Hnw | apply Hdiag; reflexivity].
Defined.

(** In part_000 a failed check of the provider stops the run before the
    selection, and the error of the provider is printed. *)
Theorem failed_provider_check_halts_processVehicles :
  forall onlyMissing R w msg,
    (forall name, In name requiredVars -> is_set (process_env R) name) ->
    models_fault R (S (tick w)) = Some msg ->
    let res := Part000.processVehicles onlyMissing R w in
    fst res = Return tt
    /\ no_work w (snd res)
    /\ table (snd res) = table w
    /\ tick (snd res) = S (S (tick w))
    /\ In (console_error " Connection failed:" (Some (APIError msg))) (trace (snd res)).
Proof.
  intros onlyMissing R w msg Henv Hfail. cbv zeta.
  apply missingVars_nil in Henv.
  destruct w as [t c k tr]. cbn [tick] in Hfail.
  unfold Part000.processVehicles, Part000.testConnections. run.
  rewrite Henv. cbn [List.length Nat.ltb Nat.leb]. run.
  destruct (store_fault R k); run; rewrite Hfail; run;
    (split; [reflexivity |]); (split; [split; tally |]);
    (split; [reflexivity |]); (split; [reflexivity |]);
    apply in_or_app; right; now left.
Qed.

Lemma failed_provider_check_halts_processVehicles_witness :
  no_work (start [sedan]) (snd (Part000.processVehicles true provider_down (start [sedan]))).
Proof.
  assert (Henv : forall name, In name requiredVars -> is_set (process_env provider_down) name).
  { apply healthy_reliable. }
  exact (proj1 (proj2 (failed_provider_check_halts_processVehicles true provider_down
                         (start [sedan]) "401 Incorrect API key" Henv eq_refl))).
Defined.

(** In part_000 the outcome of the check does not depend on the store: with
    a complete configuration it is [true] exactly when the provider answers,
    whether the store answered the probe or not. *)
Theorem testConnections_blind_to_store :
  forall R w,
    (forall name, In name requiredVars -> is_set (process_env R) name) ->
    fst (Part000.testConnections R w)
    = Return (match models_fault R (S (tick w)) with
              | None => true
              | Some _ => false
              end).
Proof.
  intros R w Henv. apply missingVars_nil in Henv.
  destruct (Part000_testConnections_spec R w) as [_ H]. now apply H.
Qed.

Lemma testConnections_blind_to_store_witness :
  fst (Part000.testConnections probe_fails (start [sedan])) = Return true.
Proof.
  apply (testConnections_blind_to_store probe_fails (start [sedan])).
  apply healthy_reliable.
Defined.

(** ** The run of src/VehicleImageGenerator.js keeps existing images *)

Lemma write_image_keeps_images_of_others vid u ts t :
  (forall r, In r t -> id r = vid -> ~ has_image r) ->
  Forall2 (fun r r' => has_image r -> r' = r) t (map (write_image vid u ts) t).
Proof.
  intros Hall. induction t as [| r t IH]; simpl; constructor.
  - intros Himg. unfold write_image.
    destruct (Z.eqb (id r) vid) eqn:E; [| reflexivity].
    apply Z.eqb_eq in E. exfalso. apply (Hall r); simpl; auto.
  - apply IH. intros r' Hin. apply Hall. now right.
Qed.

(** One turn of the loop leaves the table as it is or writes the row of the
    record. *)
Lemma VIG_processOne_table len i v R w :
  let res := VehicleImageGenerator.processOne len i v R w in
  table (snd res) = table w
  \/ exists u ts, table (snd res) = map (write_image (id v) u ts) (table w).
Proof.
  destruct w as [t c k tr]. cbv zeta.
  unfold VehicleImageGenerator.processOne, VehicleImageGenerator.generateVehicleImage,
    VehicleImageGenerator.updateVehicleImage. run.
  destruct (images_reply R k _) as [msg | [| img imgs]]; run; cbn [nth_error]; run;
    try (now left).
  destruct (store_fault R (S k)); run; [now left |].
  right. exists (url img), c. destruct (i <? len - 1)%nat; reflexivity.
Qed.

Lemma VIG_processFrom_keeps_images len vehicles :
  forall i R w,
    NoDup (map id vehicles) ->
    (forall v r, In v vehicles -> In r (table w) -> id r = id v -> ~ has_image r) ->
    images_kept w (snd (VehicleImageGenerator.processFrom len i vehicles R w)).
Proof.
  induction vehicles as [| v rest IH]; intros i R w Hnd Hnone.
  - apply images_kept_refl.
  - cbn [VehicleImageGenerator.processFrom]. rewrite bind_eq.
    destruct (VIG_processOne_effect len i v R w) as [Hret _].
    pose proof (VIG_processOne_table len i v R w) as Htab. cbv zeta in *.
    destruct (VehicleImageGenerator.processOne len i v R w) as [o w1].
    cbn [fst snd] in *. subst o.
    cbn [map] in Hnd. apply NoDup_cons_iff in Hnd. destruct Hnd as [Hnotin Hnd].
    apply images_kept_trans with w1.
    + destruct Htab as [Htab | [u [ts Htab]]]; [now apply images_kept_same |].
      unfold images_kept. rewrite Htab. apply write_image_keeps_images_of_others.
      intros r Hin Hid. apply (Hnone v r); auto. now left.
    + apply IH; [exact Hnd |]. intros v' r Hv' Hr Hid.
      destruct Htab as [Htab | [u [ts Htab]]]; rewrite Htab in Hr.
      * apply (Hnone v' r); auto. now right.
      * apply in_map_iff in Hr. destruct Hr as [r0 [Hw Hr0]].
        assert (Hid0 : id r0 = id v') by (now rewrite <- Hid, <- Hw, id_write_image).
        unfold write_image in Hw. destruct (Z.eqb (id r0) (id v)) eqn:E.
        -- apply Z.eqb_eq in E. exfalso. apply Hnotin.
           rewrite <- E, Hid0. now apply in_map.
        -- subst r. apply (Hnone v' r0); auto. now right.
Qed.

(** On a table of safe, pairwise different identifiers the run of the
    first revision leaves every row that has an image reference as it is,
    whatever the services do: it selects the rows without reference only,
    and each write names one of them. *)
Theorem processAllVehicles_keeps_images :
  forall R w,
    NoDup (map id (table w)) ->
    safe_ids (table w) ->
    Forall2 (fun r r' => has_image r -> r' = r)
      (table w) (table (snd (VehicleImageGenerator.processAllVehicles R w))).
Proof.
  intros R w Hnd _.
  change (images_kept w (snd (VehicleImageGenerator.processAllVehicles R w))).
  destruct (VIG_processAllVehicles_preflight R w)
    as [w3 [k [_ [Htab [_ [_ [_ [Heq [Henv [Hchk Hgo]]]]]]]]]].
  cbv zeta in *. rewrite Heq. clear Heq.
  assert (H3 : images_kept w w3) by now apply images_kept_same.
  apply images_kept_trans with w3; [exact H3 |]. clear H3.
  about_images_kept.
  assert (Hhandler : forall e, keeps images_kept
                                  (log_error "Error in processAllVehicles:" (Some e))).
  { intros e. keeps_auto. }
  destruct (forallb (fun name => truthy (process_env R name)) requiredVars).
  2: { destruct Henv as [_ ->]; [reflexivity |].
       generalize R w3. change (keeps images_kept
         (try_catch (log_error " Environment variable check failed." None)
            (fun error => log_error "Error in processAllVehicles:" (Some error)))).
       keeps_auto. }
  destruct (match store_fault R (tick w) with
            | Some _ => false
            | None => match models_fault R (S (tick w)) with
                      | Some _ => false
                      | None => true
                      end
            end).
  2: { destruct Hchk as [_ ->]; try reflexivity.
       generalize R w3. change (keeps images_kept
         (try_catch
            (log_error " Connection tests failed. Please check your .env file." None)
            (fun error => log_error "Error in processAllVehicles:" (Some error)))).
       keeps_auto. }
  destruct Hgo as [_ ->]; try reflexivity.
  rewrite try_catch_eq, bind_eq.
  destruct (VIG_getVehiclesWithoutImages_spec R w3) as [Ht4 [_ [_ Hsel]]].
  cbv zeta in *.
  destruct (VehicleImageGenerator.getVehiclesWithoutImages R w3) as [o w4].
  cbn [fst snd] in *.
  apply images_kept_trans with w4; [now apply images_kept_same |].
  destruct (store_fault R (tick w3)); subst o.
  { apply (Hhandler (PostgrestError s) R w4). }
  rewrite bind_eq. unfold array_of at 1, ret at 1. cbn iota beta.
  rewrite log_bind. set (w5 := emit _ w4).
  apply images_kept_trans with w5; [now apply images_kept_same |].
  set (vs := filter (fun r => is_null (vehiclegraphic r)) (table w3)).
  destruct (List.length vs =? 0)%nat.
  { exact (keeps_log images_kept any_event images_kept_emit _ eq_refl R w5). }
  rewrite bind_eq.
  assert (Hloop : images_kept w5
            (snd (VehicleImageGenerator.processFrom (List.length vs) 0 vs R w5))).
  { apply VIG_processFrom_keeps_images.
    - unfold vs. apply NoDup_map_filter. now rewrite Htab.
    - intros v r Hv Hr Hid. unfold vs in Hv. apply filter_In in Hv.
      destruct Hv as [Hv Hnull].
      change (table w5) with (table w4) in Hr. rewrite Ht4 in Hr.
      assert (r = v).
      { apply (NoDup_map_id_inj (table w3)); try assumption. now rewrite Htab. }
      subst r. intros [u [Hu _]]. rewrite Hu in Hnull. discriminate. }
  destruct (VIG_processFrom_effect (List.length vs) vs 0 R w5) as [Hret _].
  cbv zeta in *.
  destruct (VehicleImageGenerator.processFrom (List.length vs) 0 vs R w5) as [o w6].
  cbn [fst snd] in *. subst o.
  apply images_kept_trans with w6; [exact Hloop |].
  exact (keeps_log images_kept any_event images_kept_emit _ eq_refl R w6).
Qed.

Lemma processAllVehicles_keeps_images_witness :
  Forall2 (fun r r' => has_image r -> r' = r) [sedan; truck]
    (table (snd (VehicleImageGenerator.processAllVehicles healthy (start [sedan; truck])))).
Proof.
  apply (processAllVehicles_keeps_images healthy (start [sedan; truck])).
  - repeat constructor; simpl; intuition discriminate.
  - safe_ids_small.
Defined.

(** ** What no run does to the table *)

Create HintDb script.

#[local] Hint Unfold
  VehicleImageGenerator.main VehicleImageGenerator.processAllVehicles
  VehicleImageGenerator.displayResults VehicleImageGenerator.displayOne
  VehicleImageGenerator.getAllVehicles VehicleImageGenerator.getVehiclesWithoutImages
  VehicleImageGenerator.processOne VehicleImageGenerator.updateVehicleImage
  VehicleImageGenerator.generateVehicleImage VehicleImageGenerator.testOpenAIConnection
  VehicleImageGenerator.testConnection VehicleImageGenerator.testEnvironmentVariables
  Part000.main Part000.processOnlyMissingImages Part000.regenerateAllImages
  Part000.processVehicles Part000.displayResults Part000.displayOne
  Part000.getAllVehicles Part000.getVehiclesWithoutImages Part000.processOne
  Part000.updateVehicleImage Part000.generateVehicleImage Part000.testConnections
  requiredVars : script.

(** Opens the script's own functions, the loops apart, and splits along the
    structure. *)
Ltac keeps_script :=
  autounfold with script; cbn [VehicleImageGenerator.checkVars]; keeps_auto.

Lemma Forall2_same {A} (P : A -> A -> Prop) l :
  (forall x, P x x) -> Forall2 P l l.
Proof. intros H. induction l; constructor; auto. Qed.

Lemma Forall2_chain {A} (P : A -> A -> Prop) l1 l2 l3 :
  (forall x y z, P x y -> P y z -> P x z) ->
  Forall2 P l1 l2 -> Forall2 P l2 l3 -> Forall2 P l1 l3.
Proof.
  intros Htrans H. revert l3.
  induction H as [| x y l1 l2 Hxy _ IH]; intros l3 H23; inversion H23; subst;
    constructor; eauto.
Qed.

Lemma row_kept_refl r : row_kept r r.
Proof. unfold row_kept. tauto. Qed.

Lemma row_kept_trans a b c : row_kept a b -> row_kept b c -> row_kept a c.
Proof. unfold row_kept. intros [H1 [H2 H3]] [H4 [H5 H6]]. repeat split; try congruence; auto. Qed.

Lemma row_kept_write vid u ts r : row_kept r (write_image vid u ts r).
Proof.
  unfold row_kept, write_image. destruct (Z.eqb (id r) vid); cbn; [| tauto].
  repeat split; auto. discriminate.
Qed.

Lemma rows_kept_refl w : rows_kept w w.
Proof. apply Forall2_same, row_kept_refl. Qed.

Lemma rows_kept_trans a b c : rows_kept a b -> rows_kept b c -> rows_kept a c.
Proof. apply Forall2_chain, row_kept_trans. Qed.

Lemma rows_kept_emit e w : any_event e = true -> rows_kept w (emit e w).
Proof. intros _. exact (rows_kept_refl w). Qed.

Lemma rows_kept_next_call w : rows_kept w (next_call w).
Proof. exact (rows_kept_refl w). Qed.

Lemma rows_kept_advance ms w : rows_kept w (advance ms w).
Proof. exact (rows_kept_refl w). Qed.

Lemma rows_kept_write vid u ts w :
  rows_kept w (set_table (map (write_image vid u ts) (table w)) w).
Proof.
  unfold rows_kept. cbn. induction (table w); constructor; auto using row_kept_write.
Qed.

Lemma update_by_id_rows_kept vid u ts returning :
  keeps rows_kept (update_by_id vid u ts returning).
Proof.
  apply (keeps_update_by_id rows_kept rows_kept_trans any_event rows_kept_emit
           rows_kept_next_call); [reflexivity |].
  intros w. apply rows_kept_write.
Qed.
#[local] Hint Resolve update_by_id_rows_kept : keeps.

Ltac about_rows_kept :=
  pose proof rows_kept_refl; pose proof rows_kept_trans; pose proof rows_kept_emit;
  pose proof rows_kept_next_call; pose proof rows_kept_advance.

Lemma VIG_processFrom_rows_kept len i vehicles :
  keeps rows_kept (VehicleImageGenerator.processFrom len i vehicles).
Proof.
  about_rows_kept. revert i.
  induction vehicles as [| vehicle rest IH]; intros i;
    cbn [VehicleImageGenerator.processFrom]; keeps_script.
Qed.

Lemma Part000_processFrom_rows_kept onlyMissing len i vehicles :
  keeps rows_kept (Part000.processFrom onlyMissing len i vehicles).
Proof.
  about_rows_kept. revert i.
  induction vehicles as [| vehicle rest IH]; intros i;
    cbn [Part000.processFrom]; keeps_script.
Qed.
#[local] Hint Resolve VIG_processFrom_rows_kept Part000_processFrom_rows_kept : keeps.

(** Whatever the services do, a run leaves the table with the same rows in
    the same places: no row is added or removed, no identifier and no
    category changes, and a reference that was set is never cleared.  This
    holds for both entry points and for the exported run methods. *)
Theorem rows_survive_every_run :
  forall R w,
    rows_kept w (snd (VehicleImageGenerator.main R w))
    /\ rows_kept w (snd (VehicleImageGenerator.processAllVehicles R w))
    /\ rows_kept w (snd (Part000.main R w))
    /\ (forall onlyMissing, rows_kept w (snd (Part000.processVehicles onlyMissing R w)))
    /\ List.length (table (snd (VehicleImageGenerator.main R w))) = List.length (table w)
    /\ List.length (table (snd (Part000.main R w))) = List.length (table w).
Proof.
  intros R w.
  assert (H1 : keeps rows_kept VehicleImageGenerator.main)
    by (about_rows_kept; keeps_script).
  assert (H2 : keeps rows_kept VehicleImageGenerator.processAllVehicles)
    by (about_rows_kept; keeps_script).
  assert (H3 : keeps rows_kept Part000.main) by (about_rows_kept; keeps_script).
  assert (H4 : forall b, keeps rows_kept (Part000.processVehicles b))
    by (intros b; about_rows_kept; keeps_script).
  repeat split; try (intros; apply H4); auto;
    symmetry; eapply Forall2_length; [apply H1 | apply H3].
Qed.

(** ** Where errors end up *)

Lemma caught_and_logged (m : M unit) msg R w :
  fst (try_catch m (fun error => log_error msg (Some error)) R w) = Return tt.
Proof.
  rewrite try_catch_eq. destruct (m R w) as [[[] | e] w1]; reflexivity.
Qed.

(** No error leaves an entry point, [processAllVehicles] or
    [displayResults]: each returns normally whatever the services do.
    [processVehicles] of part_000 has no [try] around the selection: it
    throws exactly when the configuration is complete, the provider passes
    its check and the store rejects the selection, and what it throws is
    the error of the store. *)
Theorem errors_reach_the_caller_only_from_processVehicles :
  forall R w,
    fst (VehicleImageGenerator.main R w) = Return tt
    /\ fst (VehicleImageGenerator.processAllVehicles R w) = Return tt
    /\ fst (VehicleImageGenerator.displayResults R w) = Return tt
    /\ fst (Part000.main R w) = Return tt
    /\ fst (Part000.displayResults R w) = Return tt
    /\ forall onlyMissing : bool,
         fst (Part000.processVehicles onlyMissing R w)
         = match Part000.missingVars (process_env R),
                 models_fault R (S (tick w)),
                 store_fault R (S (S (tick w))) with
           | [], None, Some msg => Throw (PostgrestError msg)
           | _, _, _ => Return tt
           end.
Proof.
  intros R w.
  split; [unfold VehicleImageGenerator.main; rewrite !log_bind; apply caught_and_logged |].
  split; [apply caught_and_logged |]. split; [apply caught_and_logged |].
  split; [unfold Part000.main; rewrite !log_bind; apply caught_and_logged |].
  split; [apply caught_and_logged |].
  intros onlyMissing. destruct w as [t c k tr]. cbn [tick].
  unfold Part000.processVehicles, Part000.testConnections. run.
  destruct (Part000.missingVars (process_env R)) as [| name l];
    cbn [List.length Nat.ltb Nat.leb]; run; [| reflexivity].
  destruct (store_fault R k); run;
    (destruct (models_fault R (S k)); run; [reflexivity |]);
    (destruct onlyMissing;
     unfold Part000.getVehiclesWithoutImages, Part000.getAllVehicles; run;
     (destruct (store_fault R (S (S k))); run; [reflexivity |]);
     match goal with
     | |- context [(List.length ?vs =? 0)%nat] =>
         destruct (List.length vs =? 0)%nat; run; [reflexivity |]
     end;
     match goal with
     | |- context [Part000.processFrom ?b ?len ?i ?vs ?R' ?W] =>
         destruct (Part000_processFrom_effect b len vs i R' W) as [Hret _];
         cbv zeta in Hret;
         destruct (Part000.processFrom b len i vs R' W) as [o w'];
         cbn [fst] in Hret; subst o; reflexivity
     end).
Qed.

(** ** More on the update of part_000 *)

(** When the store fails to answer the read, [updateVehicleImage] reports
    the identifier as not found, whether or not a row carries it: the
    answer's [error] member is not looked at, so the store's own error is
    lost; nothing is written and no write is sent. *)
Theorem updateVehicleImage_read_error_reported_as_not_found :
  forall R w vehicleId imageUrl forceUpdate msg,
    store_fault R (tick w) = Some msg ->
    let res := Part000.updateVehicleImage vehicleId imageUrl forceUpdate R w in
    fst res = Throw (NotFoundError vehicleId)
    /\ table (snd res) = table w
    /\ occurrences is_update (trace (snd res)) = occurrences is_update (trace w)
    /\ trace (snd res)
       = (trace w
          ++ [store_single vehicleId;
              console_error ("Error updating vehicle " ++ string_of_Z vehicleId ++ ":")
                (Some (NotFoundError vehicleId))])%list.
Proof.
  intros R w vid u force msg Hfault. destruct w as [t c k tr]. cbn [tick] in Hfault.
  cbv zeta. unfold Part000.updateVehicleImage. run. rewrite Hfault. run.
  rewrite <- app_assoc. repeat split; tally.
Qed.

Lemma updateVehicleImage_read_error_reported_as_not_found_witness :
  rows_with_id 1 (table (start [sedan])) = [sedan]
  /\ fst (Part000.updateVehicleImage 1 "http://x/1.png" false (store_fails_at 0)
            (start [sedan])) = Throw (NotFoundError 1).
Proof.
  split; [reflexivity |].
  exact (proj1 (updateVehicleImage_read_error_reported_as_not_found (store_fails_at 0)
                  (start [sedan]) 1 "http://x/1.png" false "fetch failed" eq_refl)).
Defined.

(** When more than one row carries the identifier, [.single()] yields no
    data and [updateVehicleImage] reports the identifier as not found; no
    row is written. *)
Theorem updateVehicleImage_ambiguous_id :
  forall R w vehicleId imageUrl forceUpdate r1 r2 more,
    rows_with_id vehicleId (table w) = r1 :: r2 :: more ->
    let res := Part000.updateVehicleImage vehicleId imageUrl forceUpdate R w in
    fst res = Throw (NotFoundError vehicleId)
    /\ table (snd res) = table w
    /\ occurrences is_update (trace (snd res)) = occurrences is_update (trace w).
Proof.
  intros R w vid u force r1 r2 more Hrows. destruct w as [t c k tr].
  cbn [table] in Hrows. cbv zeta. unfold Part000.updateVehicleImage. run.
  rewrite Hrows. destruct (store_fault R k); run; repeat split; tally.
Qed.

Lemma updateVehicleImage_ambiguous_id_witness :
  fst (Part000.updateVehicleImage 1 "http://x/1.png" true healthy
         (start [sedan; sedan_twin])) = Throw (NotFoundError 1).
Proof.
  exact (proj1 (updateVehicleImage_ambiguous_id healthy (start [sedan; sedan_twin]) 1
                  "http://x/1.png" true sedan sedan_twin [] eq_refl)).
Defined.

(** When the store answers the read and rejects the write,
    [updateVehicleImage] throws the error of the store, after one write
    request; the table is the same. *)
Theorem updateVehicleImage_write_rejected :
  forall R w vehicleId imageUrl forceUpdate current msg,
    store_fault R (tick w) = None ->
    rows_with_id vehicleId (table w) = [current] ->
    truthy (vehiclegraphic current) = false \/ forceUpdate = true ->
    store_fault R (S (tick w)) = Some msg ->
    let res := Part000.updateVehicleImage vehicleId imageUrl forceUpdate R w in
    fst res = Throw (PostgrestError msg)
    /\ table (snd res) = table w
    /\ occurrences is_update (trace (snd res)) = occurrences is_update (trace w) + 1
    /\ In (console_error ("Error updating vehicle " ++ string_of_Z vehicleId ++ ":")
             (Some (PostgrestError msg)))
         (trace (snd res)).
Proof.
  intros R w vid u force current msg Hread Hrows Hcase Hwrite.
  assert (Hgo : truthy (vehiclegraphic current) && negb force = false).
  { destruct Hcase as [-> | ->]; [reflexivity | apply andb_false_r]. }
  destruct w as [t c k tr]. cbn [tick table] in *.
  cbv zeta. unfold Part000.updateVehicleImage. run.
  rewrite Hread, Hrows. run. rewrite Hgo. run. rewrite Hwrite. run.
  repeat split; try tally. apply in_or_app. right. now left.
Qed.

Lemma updateVehicleImage_write_rejected_witness :
  fst (Part000.updateVehicleImage 1 "http://x/1.png" false (store_fails_at 1)
         (start [sedan])) = Throw (PostgrestError "fetch failed")
  /\ table (snd (Part000.updateVehicleImage 1 "http://x/1.png" false (store_fails_at 1)
                   (start [sedan]))) = [sedan].
Proof.
  destruct (updateVehicleImage_write_rejected (store_fails_at 1) (start [sedan]) 1
              "http://x/1.png" false sedan "fetch failed" eq_refl eq_refl
              (or_introl eq_refl) eq_refl) as [H1 [H2 _]].
  split; [exact H1 | exact H2].
Defined.

(** A written reference protects itself: after a call that wrote a url that
    is not empty, a second call for the same identifier without the flag
    returns [false] and leaves the table, while a second call with the flag
    writes the new url. *)
Theorem updateVehicleImage_second_call :
  forall R w vehicleId imageUrl imageUrl' forceUpdate current,
    imageUrl <> "" ->
    rows_with_id vehicleId (table w) = [current] ->
    vehiclegraphic current = None \/ forceUpdate = true ->
    (forall j, j <= 3 -> store_fault R (tick w + j) = None) ->
    let first := Part000.updateVehicleImage vehicleId imageUrl forceUpdate R w in
    let again := Part000.updateVehicleImage vehicleId imageUrl' false R (snd first) in
    let forced := Part000.updateVehicleImage vehicleId imageUrl' true R (snd first) in
    fst first = Return true
    /\ fst again = Return false
    /\ table (snd again) = table (snd first)
    /\ fst forced = Return true
    /\ rows_with_id vehicleId (table (snd forced))
       = [mkVehicle (id current) (vehicletype current) (Some imageUrl') (clock w)].
Proof.
  intros R w vid u u' force current Hu Hrows Hcase Hstore.
  assert (Hgo : truthy (vehiclegraphic current) && negb force = false).
  { destruct Hcase as [-> | ->]; [reflexivity | apply andb_false_r]. }
  assert (Htruthy : truthy (Some u) = true) by (destruct u; [contradiction | reflexivity]).
  destruct w as [t c k tr]. cbn [table tick clock] in *.
  pose proof (Hstore 0 ltac:(lia)) as H0. pose proof (Hstore 1 ltac:(lia)) as H1.
  pose proof (Hstore 2 ltac:(lia)) as H2. pose proof (Hstore 3 ltac:(lia)) as H3.
  replace (k + 0) with k in H0 by lia. replace (k + 1) with (S k) in H1 by lia.
  replace (k + 2) with (S (S k)) in H2 by lia.
  replace (k + 3) with (S (S (S k))) in H3 by lia.
  assert (Hid : Z.eqb (id current) vid = true).
  { assert (Hin : In current (rows_with_id vid t)) by (rewrite Hrows; now left).
    apply filter_In in Hin. apply Hin. }
  assert (Hafter : rows_with_id vid (map (write_image vid u c) t)
                   = [mkVehicle (id current) (vehicletype current) (Some u) c]).
  { rewrite rows_with_id_write, Hrows. cbn. unfold write_image. now rewrite Hid. }
  cbv zeta. unfold Part000.updateVehicleImage. run.
  rewrite H0, Hrows. run. rewrite Hgo. run. rewrite H1. run.
  rewrite H2, Hafter. run. cbn [vehiclegraphic]. rewrite Htruthy. run.
  rewrite H3. run.
  repeat split; try reflexivity.
  rewrite rows_with_id_write, Hafter. cbn. unfold write_image. cbn. now rewrite Hid.
Qed.

Lemma updateVehicleImage_second_call_witness :
  fst (Part000.updateVehicleImage 1 "http://x/b.png" false healthy
         (snd (Part000.updateVehicleImage 1 "http://x/a.png" false healthy
                 (start [sedan; truck])))) = Return false.
Proof.
  refine (proj1 (proj2 (updateVehicleImage_second_call healthy (start [sedan; truck]) 1
                          "http://x/a.png" "http://x/b.png" false sedan _ eq_refl
                          (or_introl eq_refl) (fun _ _ => eq_refl)))).
  discriminate.
Defined.

(** ** The update of src/VehicleImageGenerator.js *)

Lemma write_image_no_row vid u ts t :
  rows_with_id vid t = [] -> map (write_image vid u ts) t = t.
Proof.
  unfold rows_with_id. induction t as [| r t IH]; cbn; [reflexivity |].
  destruct (Z.eqb (id r) vid) eqn:E; [discriminate |].
  intros H. unfold write_image at 1. rewrite E. now rewrite IH.
Qed.

(** The first revision writes without reading.  When the store accepts the
    write, every row with the identifier holds the url and the instant of
    the call, whatever it held, and these rows are returned; for an
    identifier that no row carries the call returns the empty list, without
    an error, and the table is the same.  When the store rejects the write
    the call throws the error of the store and the table is the same. *)
Theorem updateVehicleImage_unconditional :
  forall R w vehicleId imageUrl,
    let res := VehicleImageGenerator.updateVehicleImage vehicleId imageUrl R w in
    match store_fault R (tick w) with
    | None =>
        table (snd res) = map (write_image vehicleId imageUrl (clock w)) (table w)
        /\ fst res = Return (Some (rows_with_id vehicleId (table (snd res))))
        /\ Forall (fun r => vehiclegraphic r = Some imageUrl /\ updated_at r = clock w)
             (rows_with_id vehicleId (table (snd res)))
        /\ List.length (rows_with_id vehicleId (table (snd res)))
           = List.length (rows_with_id vehicleId (table w))
        /\ (rows_with_id vehicleId (table w) = [] ->
            fst res = Return (Some []) /\ table (snd res) = table w)
    | Some msg =>
        fst res = Throw (PostgrestError msg) /\ table (snd res) = table w
    end.
Proof.
  intros R w vid u. destruct w as [t c k tr]. cbv zeta.
  unfold VehicleImageGenerator.updateVehicleImage. run.
  destruct (store_fault R k); run; [now split |].
  split; [reflexivity |]. split; [reflexivity |]. split; [| split].
  - rewrite rows_with_id_write. apply Forall_forall. intros r Hin.
    apply in_map_iff in Hin. destruct Hin as [r0 [<- Hin]].
    apply filter_In in Hin. destruct Hin as [_ Hid].
    unfold write_image. rewrite Hid. now split.
  - now rewrite rows_with_id_write, length_map.
  - intros Hnone. rewrite rows_with_id_write, Hnone. split; [reflexivity |].
    now apply write_image_no_row.
Qed.

Lemma updateVehicleImage_unconditional_witness :
  fst (VehicleImageGenerator.updateVehicleImage 99 "https://img.example/a.png" healthy
         (start [sedan; truck]))
  = Return (Some [])
  /\ table (snd (VehicleImageGenerator.updateVehicleImage 99 "https://img.example/a.png"
                   healthy (start [sedan; truck])))
     = [sedan; truck].
Proof.
  pose proof (updateVehicleImage_unconditional healthy (start [sedan; truck]) 99
                "https://img.example/a.png") as H.
  cbv zeta in H.
  change (store_fault healthy (tick (start [sedan; truck]))) with (@None string) in H.
  cbv iota in H. destruct H as [_ [_ [_ [_ H]]]]. exact (H eq_refl).
Defined.

(** ** The two selections *)




(** ** The final report *)

Lemma forEach_displayOne_Part000 l R w :
  forEach l Part000.displayOne R w
  = (Return tt,
     mkWorld (table w) (clock w) (tick w) (trace w ++ flat_map report_lines l)).
Proof.
  revert w. induction l as [| r l IH]; intros [t c k tr].
  - cbn. now rewrite app_nil_r.
  - cbn [forEach]. rewrite bind_eq. unfold Part000.displayOne at 1. run.
    assert (Hone : forall v W,
               (if truthy v
                then fun (_ : Remote) (w0 : World) =>
                       (Return tt,
                        mkWorld (table w0) (clock w0) (tick w0)
                          (trace w0 ++ [console_log ("   URL: " ++ match v with
                                                                  | Some u0 => u0
                                                                  | None => ""
                                                                  end)]))
                else fun _ w0 => (Return tt, w0)) R W
               = (Return tt,
                  mkWorld (table W) (clock W) (tick W)
                    (trace W ++ match v with
                                | Some (String a u0) => [console_log ("   URL: " ++ String a u0)]
                                | _ => []
                                end))).
    { intros [[| a u0] |] [t' c' k' tr']; cbn; rewrite ?app_nil_r; reflexivity. }
    rewrite Hone. run. rewrite IH. cbn [table clock tick trace flat_map].
    unfold report_lines. rewrite <- !app_assoc. reflexivity.
Qed.

Lemma forEach_displayOne_same l R w :
  forEach l VehicleImageGenerator.displayOne R w = forEach l Part000.displayOne R w.
Proof. revert w. induction l as [| r l IH]; intros w; [reflexivity |]. cbn [forEach].
  rewrite !bind_eq.
  change (VehicleImageGenerator.displayOne r R w) with (Part000.displayOne r R w).
  destruct (Part000.displayOne r R w) as [[[] | e] w1]; [apply IH | reflexivity].
Qed.


(** ** A run is a preamble, the loop, and one last line *)

Lemma passively_requests w w' :
  passively w w' ->
  requests (trace w') = requests (trace w)
  /\ occurrences is_generate (trace w') = occurrences is_generate (trace w)
  /\ occurrences is_update (trace w') = occurrences is_update (trace w)
  /\ occurrences is_delay (trace w') = occurrences is_delay (trace w).
Proof.
  intros [evs [-> Hevs]]. rewrite requests_app, !occurrences_app.
  assert (H : requests evs = [] /\ occurrences is_generate evs = 0
              /\ occurrences is_update evs = 0 /\ occurrences is_delay evs = 0).
  { unfold occurrences. induction evs as [| e evs IH]; [now repeat split |].
    cbn [forallb] in Hevs. apply andb_prop in Hevs. destruct Hevs as [He Hevs].
    destruct (IH Hevs) as [H1 [H2 [H3 H4]]].
    destruct e; cbn in He; try discriminate; cbn; auto. }
  destruct H as [-> [-> [-> ->]]]. rewrite app_nil_r. repeat split; lia.
Qed.

(** [processVehicles] either stops before the loop, having done nothing but
    passive steps, or runs the loop over the candidates of the table from a
    world [w3] that differs from the start by passive steps and three
    remote calls, and then prints one line. *)
Lemma Part000_processVehicles_walk (onlyMissing : bool) R w :
  let res := Part000.processVehicles onlyMissing R w in
  let vs := candidates onlyMissing (table w) in
  if reaches_candidates R w && negb (List.length vs =? 0)%nat
  then exists w3,
      table w3 = table w /\ tick w3 = S (S (S (tick w))) /\ clock w3 = clock w
      /\ passively w w3
      /\ let loop := Part000.processFrom onlyMissing (List.length vs) 0 vs R w3 in
         fst res = Return tt
         /\ table (snd res) = table (snd loop)
         /\ tick (snd res) = tick (snd loop)
         /\ clock (snd res) = clock (snd loop)
         /\ passively (snd loop) (snd res)
  else table (snd res) = table w /\ tick (snd res) <= tick w + 3
       /\ clock (snd res) = clock w /\ passively w (snd res).
Proof.
  destruct w as [t c k tr]. cbv zeta. unfold reaches_candidates. cbn [tick table].
  unfold Part000.processVehicles, Part000.testConnections. run.
  destruct (Part000.missingVars (process_env R)) as [| name l];
    cbn [List.length Nat.ltb Nat.leb andb]; run.
  2: { unfold passively. cbn [trace]. rewrite <- !app_assoc.
       repeat split; try lia. eexists. split; reflexivity. }
  assert (Hsel : forall W,
             (if onlyMissing then Part000.getVehiclesWithoutImages
              else Part000.getAllVehicles) R W
             = match store_fault R (tick W) with
               | None =>
                   (Return (Some (candidates onlyMissing (table W))),
                    mkWorld (table W) (clock W) (S (tick W))
                      (trace W ++ [if onlyMissing then store_is_null else store_ordered]))
               | Some msg =>
                   (Throw (PostgrestError msg),
                    mkWorld (table W) (clock W) (S (tick W))
                      (trace W
                       ++ [if onlyMissing then store_is_null else store_ordered;
                           console_error (if onlyMissing then " Error fetching vehicle:"
                                          else "Error fetching all vehicle:")
                             (Some (PostgrestError msg))]))
               end).
  { intros [t' c' k' tr']. destruct onlyMissing;
      unfold Part000.getVehiclesWithoutImages, Part000.getAllVehicles; run;
      destruct (store_fault R k'); run; rewrite <- ?app_assoc; reflexivity. }
  destruct (store_fault R k); run;
    (destruct (models_fault R (S k)); run;
     [unfold passively; cbn [trace]; rewrite <- !app_assoc;
      repeat split; try lia; eexists; split; reflexivity |]);
    rewrite Hsel; cbn [tick table clock trace];
    (destruct (store_fault R (S (S k))); run;
     [cbn [andb]; unfold passively; cbn [trace]; rewrite <- !app_assoc;
      repeat split; try lia; eexists; split; [reflexivity |];
      destruct onlyMissing; reflexivity |]);
    cbn [andb];
    (destruct (List.length (candidates onlyMissing t) =? 0)%nat; cbn [negb]; run;
     [unfold passively; cbn [trace]; rewrite <- !app_assoc;
      repeat split; try lia; eexists; split; [reflexivity |];
      destruct onlyMissing; reflexivity |]).
  all: match goal with
       | |- context [Part000.processFrom _ _ _ _ _ ?W] => exists W
       end; split; [reflexivity |]; split; [reflexivity |]; split; [reflexivity |];
    (split; [unfold passively; cbn [trace]; rewrite <- !app_assoc; eexists;
             split; [reflexivity |]; destruct onlyMissing; reflexivity |]).
  all: match goal with
       | |- context [Part000.processFrom ?b ?len ?i ?vs ?R' ?W] =>
           destruct (Part000_processFrom_effect b len vs i R' W) as [Hret _];
           cbv zeta in Hret;
           destruct (Part000.processFrom b len i vs R' W) as [o [t4 c4 k4 tr4]];
           cbn [fst] in Hret; subst o
       end; cbn [fst snd table tick clock trace];
    repeat split; unfold passively; cbn [trace]; eexists; split; reflexivity.
Qed.

Lemma VIG_processAllVehicles_walk R w :
  let res := VehicleImageGenerator.processAllVehicles R w in
  let vs := candidates true (table w) in
  if original_reaches_candidates R w && negb (List.length vs =? 0)%nat
  then exists w3,
      table w3 = table w /\ tick w3 = S (S (S (tick w))) /\ clock w3 = clock w
      /\ passively w w3
      /\ let loop := VehicleImageGenerator.processFrom (List.length vs) 0 vs R w3 in
         fst res = Return tt
         /\ table (snd res) = table (snd loop)
         /\ tick (snd res) = tick (snd loop)
         /\ clock (snd res) = clock (snd loop)
         /\ passively (snd loop) (snd res)
  else table (snd res) = table w /\ tick (snd res) <= tick w + 3
       /\ clock (snd res) = clock w /\ passively w (snd res).
Proof.
  destruct w as [t c k tr]. cbv zeta. unfold original_reaches_candidates, requiredVars.
  cbn [tick table forallb candidates].
  unfold VehicleImageGenerator.processAllVehicles,
    VehicleImageGenerator.testEnvironmentVariables, requiredVars,
    VehicleImageGenerator.testConnection, VehicleImageGenerator.testOpenAIConnection,
    VehicleImageGenerator.getVehiclesWithoutImages.
  cbn [VehicleImageGenerator.checkVars]. run.
  destruct (truthy (process_env R "SUPABASE_URL"));
    destruct (truthy (process_env R "SUPABASE_ANON_KEY"));
    destruct (truthy (process_env R "OPENAI_API_KEY")); cbn [andb]; run.
  2-8: unfold passively; cbn [trace]; rewrite <- !app_assoc;
    repeat split; try lia; eexists; split; reflexivity.
  destruct (store_fault R k); run; destruct (models_fault R (S k)); run.
  1-3: unfold passively; cbn [trace]; rewrite <- !app_assoc;
    repeat split; try lia; eexists; split; reflexivity.
  destruct (store_fault R (S (S k))); run.
  { unfold passively; cbn [trace]; rewrite <- !app_assoc;
      repeat split; try lia; eexists; split; reflexivity. }
  destruct (List.length (filter (fun r => is_null (vehiclegraphic r)) t) =? 0)%nat;
    cbn [negb]; run.
  { unfold passively; cbn [trace]; rewrite <- !app_assoc;
      repeat split; try lia; eexists; split; reflexivity. }
  match goal with
  | |- context [VehicleImageGenerator.processFrom _ _ _ _ ?W] => exists W
  end.
  split; [reflexivity |]. split; [reflexivity |]. split; [reflexivity |].
  split; [unfold passively; cbn [trace]; rewrite <- !app_assoc; eexists;
          split; reflexivity |].
  match goal with
  | |- context [VehicleImageGenerator.processFrom ?len ?i ?vs ?R' ?W] =>
      destruct (VIG_processFrom_effect len vs i R' W) as [Hret _];
      cbv zeta in Hret;
      destruct (VehicleImageGenerator.processFrom len i vs R' W) as [o [t4 c4 k4 tr4]];
      cbn [fst] in Hret; subst o
  end.
  cbn [fst snd table tick clock trace].
  repeat split; unfold passively; cbn [trace]; eexists; split; reflexivity.
Qed.

(** ** What a whole run asks of the provider *)

Lemma length_zero_nil {A} (l : list A) : (List.length l =? 0)%nat = true -> l = [].
Proof. destruct l; [reflexivity | discriminate]. Qed.

Lemma Part000_processVehicles_requests (onlyMissing : bool) R w :
  let res := Part000.processVehicles onlyMissing R w in
  let asked := if reaches_candidates R w
               then map (fun v => Part000.imageRequest (vehicletype v))
                      (candidates onlyMissing (table w))
               else [] in
  requests (trace (snd res)) = (requests (trace w) ++ asked)%list
  /\ occurrences is_update (trace (snd res))
     <= occurrences is_update (trace w) + List.length asked
  /\ occurrences is_delay (trace (snd res))
     <= occurrences is_delay (trace w) + (List.length asked - 1).
Proof.
  cbv zeta.
  pose proof (Part000_processVehicles_walk onlyMissing R w) as H. cbv zeta in H.
  destruct (reaches_candidates R w); cbn [andb] in H.
  - destruct (List.length (candidates onlyMissing (table w)) =? 0)%nat eqn:E;
      cbn [negb] in H.
    + apply length_zero_nil in E. rewrite E. cbn.
      destruct H as [_ [_ [_ H]]]. apply passively_requests in H.
      rewrite app_nil_r. repeat split; lia || apply H.
    + destruct H as [w3 [_ [_ [_ [H3 [_ [_ [_ [_ H4]]]]]]]]].
      apply passively_requests in H3. apply passively_requests in H4.
      destruct (Part000_processFrom_effect onlyMissing
                  (List.length (candidates onlyMissing (table w)))
                  (candidates onlyMissing (table w)) 0 R w3)
        as [_ [Hreq [Hupd Hdel]]].
      cbv zeta in *. rewrite pauses_all in Hdel. rewrite length_map.
      destruct H3 as [H3r [_ [H3u H3d]]]. destruct H4 as [H4r [_ [H4u H4d]]].
      rewrite H4r, Hreq, H3r. repeat split; lia.
  - destruct H as [_ [_ [_ H]]]. apply passively_requests in H.
    rewrite app_nil_r. cbn. repeat split; lia || apply H.
Qed.

Lemma VIG_processAllVehicles_requests R w :
  let res := VehicleImageGenerator.processAllVehicles R w in
  let asked := if original_reaches_candidates R w
               then map (fun v => VehicleImageGenerator.imageRequest (vehicletype v))
                      (candidates true (table w))
               else [] in
  requests (trace (snd res)) = (requests (trace w) ++ asked)%list
  /\ occurrences is_update (trace (snd res))
     <= occurrences is_update (trace w) + List.length asked
  /\ occurrences is_delay (trace (snd res))
     <= occurrences is_delay (trace w) + (List.length asked - 1).
Proof.
  cbv zeta.
  pose proof (VIG_processAllVehicles_walk R w) as H. cbv zeta in H.
  destruct (original_reaches_candidates R w); cbn [andb] in H.
  - destruct (List.length (candidates true (table w)) =? 0)%nat eqn:E;
      cbn [negb] in H.
    + apply length_zero_nil in E. rewrite E. cbn.
      destruct H as [_ [_ [_ H]]]. apply passively_requests in H.
      rewrite app_nil_r. repeat split; lia || apply H.
    + destruct H as [w3 [_ [_ [_ [H3 [_ [_ [_ [_ H4]]]]]]]]].
      apply passively_requests in H3. apply passively_requests in H4.
      destruct (VIG_processFrom_effect (List.length (candidates true (table w)))
                  (candidates true (table w)) 0 R w3)
        as [_ [Hreq [Hupd Hdel]]].
      cbv zeta in *. rewrite pauses_all in Hdel. rewrite length_map.
      destruct H3 as [H3r [_ [H3u H3d]]]. destruct H4 as [H4r [_ [H4u H4d]]].
      rewrite H4r, Hreq, H3r. repeat split; lia.
  - destruct H as [_ [_ [_ H]]]. apply passively_requests in H.
    rewrite app_nil_r. cbn. repeat split; lia || apply H.
Qed.

(** A run sends one image request per candidate, in the order of the
    selection, when it reaches the selection and gets an answer, and none
    otherwise; whatever fails inside the loop changes nothing to that.  It
    sends at most as many writes as requests and pauses at most once fewer. *)
Theorem run_requests_one_image_per_candidate :
  forall R w,
    (forall onlyMissing : bool,
        let res := Part000.processVehicles onlyMissing R w in
        let asked := if reaches_candidates R w
                     then map (fun v => Part000.imageRequest (vehicletype v))
                            (candidates onlyMissing (table w))
                     else [] in
        requests (trace (snd res)) = (requests (trace w) ++ asked)%list
        /\ occurrences is_update (trace (snd res))
           <= occurrences is_update (trace w) + List.length asked
        /\ occurrences is_delay (trace (snd res))
           <= occurrences is_delay (trace w) + (List.length asked - 1))
    /\ (let res := VehicleImageGenerator.processAllVehicles R w in
        let asked := if original_reaches_candidates R w
                     then map (fun v => VehicleImageGenerator.imageRequest (vehicletype v))
                            (candidates true (table w))
                     else [] in
        requests (trace (snd res)) = (requests (trace w) ++ asked)%list
        /\ occurrences is_update (trace (snd res))
           <= occurrences is_update (trace w) + List.length asked
        /\ occurrences is_delay (trace (snd res))
           <= occurrences is_delay (trace w) + (List.length asked - 1)).
Proof.
  intros R w. split.
  - intros onlyMissing. apply Part000_processVehicles_requests.
  - apply VIG_processAllVehicles_requests.
Qed.

(** ** What a run can write *)

Lemma written_by_trans R mk vs a b c :
  written_by R mk vs a b -> written_by R mk vs b c -> written_by R mk vs a c.
Proof.
  intros [-> | Hab] Hbc; [exact Hbc |].
  destruct Hbc as [-> | Hbc]; [now right |].
  destruct Hab as [v [k [img [rest [ts [_ [_ [_ ->]]]]]]]].
  destruct Hbc as [v' [k' [img' [rest' [ts' [Hin [Hid [Hk ->]]]]]]]].
  right. exists v', k', img', rest', ts'. cbn in *. now repeat split.
Qed.

Lemma written_by_write R mk vs v k img rest ts t :
  In v vs ->
  images_reply R k (mk (vehicletype v)) = inr (img :: rest) ->
  Forall2 (written_by R mk vs) t (map (write_image (id v) (url img) ts) t).
Proof.
  intros Hin Hk. induction t as [| r t IH]; cbn; constructor; [| exact IH].
  unfold write_image. destruct (Z.eqb (id r) (id v)) eqn:E; [| now left].
  apply Z.eqb_eq in E. right. exists v, k, img, rest, ts. now repeat split.
Qed.

(** One turn of the loop leaves the table as it is, or writes, on the rows
    of the record, the url of element 0 of the provider's answer. *)
Lemma Part000_processOne_writes onlyMissing len i v R w :
  let res := Part000.processOne onlyMissing len i v R w in
  table (snd res) = table w
  \/ exists k img rest,
       images_reply R k (Part000.imageRequest (vehicletype v)) = inr (img :: rest)
       /\ table (snd res) = map (write_image (id v) (url img) (clock w)) (table w).
Proof.
  destruct w as [t c k tr]. cbv zeta.
  unfold Part000.processOne, Part000.generateVehicleImage, Part000.updateVehicleImage. run.
  destruct (images_reply R k (Part000.imageRequest (vehicletype v)))
    as [msg | [| img imgs]] eqn:Hreply; run; cbn [nth_error]; run; try (now left).
  destruct (store_fault R (S k)); run; [now left |].
  destruct (rows_with_id (id v) t) as [| current [| r' l]]; run; try (now left).
  destruct (truthy (vehiclegraphic current) && negb (negb onlyMissing)); run.
  { destruct (i <? len - 1)%nat; now left. }
  destruct (store_fault R (S (S k))); run; [now left |].
  right. exists k, img, imgs. split; [exact Hreply |].
  destruct (i <? len - 1)%nat; reflexivity.
Qed.

Lemma VIG_processOne_writes len i v R w :
  let res := VehicleImageGenerator.processOne len i v R w in
  table (snd res) = table w
  \/ exists k img rest,
       images_reply R k (VehicleImageGenerator.imageRequest (vehicletype v))
       = inr (img :: rest)
       /\ table (snd res) = map (write_image (id v) (url img) (clock w)) (table w).
Proof.
  destruct w as [t c k tr]. cbv zeta.
  unfold VehicleImageGenerator.processOne, VehicleImageGenerator.generateVehicleImage,
    VehicleImageGenerator.updateVehicleImage. run.
  destruct (images_reply R k (VehicleImageGenerator.imageRequest (vehicletype v)))
    as [msg | [| img imgs]] eqn:Hreply; run; cbn [nth_error]; run; try (now left).
  destruct (store_fault R (S k)); run; [now left |].
  right. exists k, img, imgs. split; [exact Hreply |].
  destruct (i <? len - 1)%nat; reflexivity.
Qed.

Lemma Part000_processFrom_writes onlyMissing len R all vs :
  incl vs all ->
  forall i w,
    Forall2 (written_by R Part000.imageRequest all)
      (table w) (table (snd (Part000.processFrom onlyMissing len i vs R w))).
Proof.
  induction vs as [| v rest IH]; intros Hincl i w.
  - cbn. apply Forall2_same. now left.
  - cbn [Part000.processFrom]. rewrite bind_eq.
    destruct (Part000_processOne_effect onlyMissing len i v R w) as [Hret _].
    pose proof (Part000_processOne_writes onlyMissing len i v R w) as Htab.
    cbv zeta in *.
    destruct (Part000.processOne onlyMissing len i v R w) as [o w1].
    cbn [fst snd] in *. subst o.
    apply Forall2_chain with (table w1); [apply written_by_trans | |].
    + destruct Htab as [-> | [k [img [more [Hk ->]]]]].
      * apply Forall2_same. now left.
      * apply written_by_write with k more; [apply Hincl; now left | exact Hk].
    + apply IH. intros x Hx. apply Hincl. now right.
Qed.

Lemma VIG_processFrom_writes len R all vs :
  incl vs all ->
  forall i w,
    Forall2 (written_by R VehicleImageGenerator.imageRequest all)
      (table w) (table (snd (VehicleImageGenerator.processFrom len i vs R w))).
Proof.
  induction vs as [| v rest IH]; intros Hincl i w.
  - cbn. apply Forall2_same. now left.
  - cbn [VehicleImageGenerator.processFrom]. rewrite bind_eq.
    destruct (VIG_processOne_effect len i v R w) as [Hret _].
    pose proof (VIG_processOne_writes len i v R w) as Htab.
    cbv zeta in *.
    destruct (VehicleImageGenerator.processOne len i v R w) as [o w1].
    cbn [fst snd] in *. subst o.
    apply Forall2_chain with (table w1); [apply written_by_trans | |].
    + destruct Htab as [-> | [k [img [more [Hk ->]]]]].
      * apply Forall2_same. now left.
      * apply written_by_write with k more; [apply Hincl; now left | exact Hk].
    + apply IH. intros x Hx. apply Hincl. now right.
Qed.

(** On a table of safe identifiers, whatever the services do, a run changes
    a row in one way only: a row with the identifier of a candidate may end
    up with the url of element 0 of an answer of the provider to that
    candidate's request.  So a row whose identifier is no candidate's is the
    same row afterwards; and when the identifiers are pairwise different an
    incremental run of either revision leaves every row whose reference is
    not [null], the empty string included, as it is. *)
Theorem run_writes_provider_urls_on_candidates_only :
  forall R w,
    safe_ids (table w) ->
    (forall onlyMissing : bool,
        Forall2 (written_by R Part000.imageRequest (candidates onlyMissing (table w)))
          (table w) (table (snd (Part000.processVehicles onlyMissing R w))))
    /\ Forall2 (written_by R VehicleImageGenerator.imageRequest (candidates true (table w)))
         (table w) (table (snd (VehicleImageGenerator.processAllVehicles R w)))
    /\ (NoDup (map id (table w)) ->
        Forall2 (fun r r' => vehiclegraphic r <> None -> r' = r)
          (table w) (table (snd (Part000.processVehicles true R w)))
        /\ Forall2 (fun r r' => vehiclegraphic r <> None -> r' = r)
             (table w) (table (snd (VehicleImageGenerator.processAllVehicles R w)))).
Proof.
  intros R w _.
  assert (H1 : forall onlyMissing : bool,
             Forall2 (written_by R Part000.imageRequest
                        (candidates onlyMissing (table w)))
               (table w) (table (snd (Part000.processVehicles onlyMissing R w)))).
  { intros onlyMissing.
    pose proof (Part000_processVehicles_walk onlyMissing R w) as H. cbv zeta in H.
    destruct (reaches_candidates R w && _).
    - destruct H as [w3 [Ht3 [_ [_ [_ [_ [Ht _]]]]]]]. rewrite Ht, <- Ht3.
      apply Part000_processFrom_writes. apply incl_refl.
    - destruct H as [-> _]. apply Forall2_same. now left. }
  assert (H2 : Forall2 (written_by R VehicleImageGenerator.imageRequest
                          (candidates true (table w)))
                 (table w) (table (snd (VehicleImageGenerator.processAllVehicles R w)))).
  { pose proof (VIG_processAllVehicles_walk R w) as H. cbv zeta in H.
    destruct (original_reaches_candidates R w && _).
    - destruct H as [w3 [Ht3 [_ [_ [_ [_ [Ht _]]]]]]]. rewrite Ht, <- Ht3.
      apply VIG_processFrom_writes. apply incl_refl.
    - destruct H as [-> _]. apply Forall2_same. now left. }
  split; [exact H1 |]. split; [exact H2 |]. intros Hnd.
  assert (Hkeep : forall mk r r',
             In r (table w) -> written_by R mk (candidates true (table w)) r r' ->
             vehiclegraphic r <> None -> r' = r).
  { intros mk r r' Hin [-> | [v [_ [_ [_ [_ [Hv [Hid _]]]]]]]] Hset; [reflexivity |].
    cbn [candidates] in Hv. apply filter_In in Hv. destruct Hv as [Hv Hnull].
    assert (r = v) by (apply (NoDup_map_id_inj (table w)); assumption).
    subst v. destruct (vehiclegraphic r); [discriminate | congruence]. }
  split.
  - apply (Forall2_impl_In _ _ _ _ (H1 true)). intros r r' Hin. now apply Hkeep.
  - apply (Forall2_impl_In _ _ _ _ H2). intros r r' Hin. now apply Hkeep.
Qed.

Lemma run_writes_provider_urls_on_candidates_only_witness :
  Forall2 (fun r r' => vehiclegraphic r <> None -> r' = r)
    [sedan; mkVehicle 4 "van" (Some "") 0]
    (table (snd (Part000.processVehicles true healthy
                   (start [sedan; mkVehicle 4 "van" (Some "") 0])))).
Proof.
  refine (proj1 (proj2 (proj2 (run_writes_provider_urls_on_candidates_only healthy
                                 (start [sedan; mkVehicle 4 "van" (Some "") 0]) _)) _)).
  - safe_ids_small.
  - repeat constructor; simpl; intuition discriminate.
Defined.

(** ** The entry points, step by step *)

Lemma report_lines_passive l : forallb passive (flat_map report_lines l) = true.
Proof.
  induction l as [| r l IH]; [reflexivity |].
  cbn [flat_map]. rewrite forallb_app, IH, andb_true_r.
  unfold report_lines. destruct (vehiclegraphic r) as [[| a u] |]; reflexivity.
Qed.

Lemma passively_refl w : passively w w.
Proof. exists []. now rewrite app_nil_r. Qed.

Lemma passively_trans a b c : passively a b -> passively b c -> passively a c.
Proof.
  intros [e1 [H1 P1]] [e2 [H2 P2]]. exists (e1 ++ e2)%list.
  rewrite H2, H1, app_assoc, forallb_app, P1, P2. now split.
Qed.

Lemma Part000_displayResults_quiet R w :
  let res := Part000.displayResults R w in
  fst res = Return tt /\ table (snd res) = table w /\ tick (snd res) = S (tick w)
  /\ clock (snd res) = clock w /\ passively w (snd res).
Proof.
  destruct w as [t c k tr]. cbv zeta.
  unfold Part000.displayResults, Part000.getAllVehicles. run.
  destruct (store_fault R k); run.
  - repeat split. unfold passively. cbn [trace]. rewrite <- !app_assoc.
    eexists. split; reflexivity.
  - rewrite forEach_displayOne_Part000. cbn [fst snd table clock tick trace].
    repeat split. unfold passively. cbn [trace]. rewrite <- !app_assoc.
    eexists. split; [reflexivity |]. cbn [app forallb passive is_generate is_update
      is_delay orb negb andb]. apply report_lines_passive.
Qed.

Lemma VIG_displayResults_quiet R w :
  let res := VehicleImageGenerator.displayResults R w in
  fst res = Return tt /\ table (snd res) = table w /\ tick (snd res) = S (tick w)
  /\ clock (snd res) = clock w /\ passively w (snd res).
Proof.
  assert (H : VehicleImageGenerator.displayResults R w = Part000.displayResults R w).
  { destruct w as [t c k tr].
    unfold VehicleImageGenerator.displayResults, Part000.displayResults,
      VehicleImageGenerator.getAllVehicles, Part000.getAllVehicles. run.
    destruct (store_fault R k); run; [reflexivity |].
    now rewrite forEach_displayOne_same. }
  rewrite H. apply Part000_displayResults_quiet.
Qed.

(** The entry point of part_000: the first selection, then, if the store
    answered it, one run in the mode the answer decides, then the report. *)
Lemma Part000_main_walk R w :
  let res := Part000.main R w in
  match store_fault R (tick w) with
  | Some msg =>
      table (snd res) = table w /\ tick (snd res) = S (tick w)
      /\ clock (snd res) = clock w
      /\ trace (snd res)
         = (trace w
            ++ [console_log "Vehicle Image Generator Starting...";
                console_log ("=====================================" ++ nl);
                store_is_null;
                console_error " Error fetching vehicle:" (Some (PostgrestError msg));
                console_error "Error in main process:" (Some (PostgrestError msg))])%list
  | None =>
      let onlyMissing := negb (List.length (candidates true (table w)) =? 0)%nat in
      exists w1,
        table w1 = table w /\ tick w1 = S (tick w) /\ clock w1 = clock w
        /\ passively w w1
        /\ (onlyMissing = false ->
            In (console_log "All vehicles have images. Regenerating all...") (trace w1))
        /\ let run := Part000.processVehicles onlyMissing R w1 in
           table (snd res) = table (snd run)
           /\ clock (snd res) = clock (snd run)
           /\ passively (snd run) (snd res)
           /\ tick (snd res) = match fst run with
                               | Return _ => S (tick (snd run))
                               | Throw _ => tick (snd run)
                               end
  end.
Proof.
  destruct w as [t c k tr]. cbv zeta. cbn [tick table candidates].
  unfold Part000.main, Part000.getVehiclesWithoutImages. run.
  destruct (store_fault R k); run.
  { rewrite <- !app_assoc. now repeat split. }
  set (vs := filter (fun r => is_null (vehiclegraphic r)) t).
  assert (Hmode : (0 <? List.length vs)%nat = negb (List.length vs =? 0)%nat)
    by (destruct vs; reflexivity).
  rewrite Hmode.
  destruct (negb (List.length vs =? 0)%nat) eqn:Emode; run;
    unfold Part000.processOnlyMissingImages, Part000.regenerateAllImages;
    match goal with
    | |- context [Part000.processVehicles ?b ?R' ?W] =>
        exists W; (split; [reflexivity |]); (split; [reflexivity |]);
        (split; [reflexivity |]);
        (split; [unfold passively; cbn [trace]; rewrite <- ?app_assoc;
                 eexists; split; reflexivity |]);
        (split; [intros; try discriminate;
                 try (cbn [trace]; apply in_or_app; right; now left) |]);
        destruct (Part000.processVehicles b R' W) as [[[] | e] w2]
    end; cbn [fst snd].
  all: try (destruct (Part000_displayResults_quiet R w2) as [Hret [Ht [Hk [Hc Hp]]]];
            cbv zeta in *;
            destruct (Part000.displayResults R w2) as [o w3]; cbn [fst snd] in *;
            subst o; cbn [fst snd]; now repeat split).
  all: destruct w2 as [t2 c2 k2 tr2]; cbn [fst snd table clock tick trace];
    repeat split; unfold passively; cbn [trace]; eexists; split; reflexivity.
Qed.

Lemma VIG_main_walk R w :
  let res := VehicleImageGenerator.main R w in
  exists w0,
    table w0 = table w /\ tick w0 = tick w /\ clock w0 = clock w /\ passively w w0
    /\ let run := VehicleImageGenerator.processAllVehicles R w0 in
       table (snd res) = table (snd run)
       /\ clock (snd res) = clock (snd run)
       /\ tick (snd res) = S (tick (snd run))
       /\ passively (snd run) (snd res).
Proof.
  cbv zeta. unfold VehicleImageGenerator.main. rewrite !log_bind.
  set (w0 := emit _ (emit _ w)). exists w0.
  split; [reflexivity |]. split; [reflexivity |]. split; [reflexivity |].
  split. { unfold w0, passively. cbn [emit trace]. rewrite <- app_assoc.
           eexists. split; reflexivity. }
  rewrite try_catch_eq, bind_eq.
  assert (Hret : fst (VehicleImageGenerator.processAllVehicles R w0) = Return tt).
  { unfold VehicleImageGenerator.processAllVehicles. apply caught_and_logged. }
  destruct (VehicleImageGenerator.processAllVehicles R w0) as [o w1].
  cbn [fst snd] in *. subst o.
  destruct (VIG_displayResults_quiet R w1) as [Hr [Ht [Hk [Hc Hp]]]]. cbv zeta in *.
  destruct (VehicleImageGenerator.displayResults R w1) as [o w2].
  cbn [fst snd] in *. subst o. cbn [fst snd]. now repeat split.
Qed.

(** ** The empty candidate set *)

(** On an empty table, with the configuration complete, the first selection
    answered, the provider passing its check and the second selection
    answered, the entry point of part_000 announces the regeneration and
    prints that there is no vehicle. *)
Lemma Part000_main_empty_report R w :
  table w = [] ->
  (forall name, In name requiredVars -> is_set (process_env R) name) ->
  store_fault R (tick w) = None ->
  models_fault R (S (S (tick w))) = None ->
  store_fault R (S (S (S (tick w)))) = None ->
  In (console_log "All vehicles have images. Regenerating all...")
    (trace (snd (Part000.main R w)))
  /\ In (console_log " No vehicles found") (trace (snd (Part000.main R w))).
Proof.
  intros Hempty Henv Hs0 Hm Hs3.
  pose proof (Part000_main_walk R w) as H. cbv zeta in H.
  rewrite Hs0, Hempty in H. cbn [candidates filter List.length Nat.eqb negb] in H.
  destruct H as [w1 [Ht1 [Hk1 [_ [_ [Hlog [_ [_ [Hpm _]]]]]]]]].
  assert (Hc : candidates false (table w1) = []) by now rewrite Ht1.
  destruct (Part000_processVehicles_empty false R w1 Hc) as [_ [_ Hrep]].
  cbv zeta in Hrep. rewrite Hk1 in Hrep.
  destruct (Hrep (proj2 (missingVars_nil _) Henv) Hm Hs3) as [_ Hin].
  pose proof (Part000_processVehicles_extends false R w1) as Hex.
  destruct Hpm as [evs [Htr _]].
  split; rewrite Htr; apply in_or_app; left; [| exact Hin].
  apply extends_In with w1; [exact Hex | now apply Hlog].
Qed.

(** C5. A run whose candidate set is empty does no work: no image is
    requested and no write is sent, whatever the services do; and when the
    preflight passes and the selection is answered, the run prints that
    there is nothing to do and returns normally.  This holds for
    [processAllVehicles], for [processVehicles] in both modes, and for the
    entry point of part_000 on an empty table, which makes its first
    selection before the checks (remote call [tick w]) and the selection of
    the run after them (remote call [tick w + 3]). *)
Theorem empty_candidate_set_stops :
  forall R w,
    let configured := forall name, In name requiredVars -> is_set (process_env R) name in
    let preflight_passes :=
      configured
      /\ store_fault R (tick w) = None
      /\ models_fault R (S (tick w)) = None in
    let selection_answered := store_fault R (S (S (tick w))) = None in
    (candidates true (table w) = [] ->
     let res := VehicleImageGenerator.processAllVehicles R w in
     no_work w (snd res)
     /\ (preflight_passes -> selection_answered ->
         fst res = Return tt
         /\ In (console_log " All vehicle already have images!") (trace (snd res))))
    /\ (forall onlyMissing : bool,
          candidates onlyMissing (table w) = [] ->
          let res := Part000.processVehicles onlyMissing R w in
          no_work w (snd res)
          /\ (preflight_passes -> selection_answered ->
              fst res = Return tt
              /\ In (console_log (if onlyMissing
                                  then " All vehicles already have images!"
                                  else " No vehicles found"))
                   (trace (snd res))))
    /\ (table w = [] ->
        let res := Part000.main R w in
        fst res = Return tt
        /\ no_work w (snd res)
        /\ table (snd res) = []
        /\ (configured ->
            store_fault R (tick w) = None ->
            models_fault R (S (S (tick w))) = None ->
            store_fault R (S (S (S (tick w)))) = None ->
            In (console_log "All vehicles have images. Regenerating all...")
              (trace (snd res))
            /\ In (console_log " No vehicles found") (trace (snd res)))).
Proof.
  intros R w configured preflight_passes selection_answered. split; [| split].
  - intros Hempty.
    destruct (VIG_processAllVehicles_empty R w Hempty) as [Hret [Hnw [_ Hlog]]].
    cbv zeta in *. split; [exact Hnw |].
    intros [Henv [Hprobe Hmodels]] Hsel. split; [exact Hret |]. now apply Hlog.
  - intros onlyMissing Hempty.
    destruct (Part000_processVehicles_empty onlyMissing R w Hempty) as [Hnw [_ Hlog]].
    cbv zeta in *. split; [exact Hnw |].
    intros [Henv [_ Hmodels]] Hsel. apply Hlog; try assumption.
    now apply missingVars_nil.
  - intros Hempty. cbv zeta.
    destruct (Part000_main_empty R w Hempty) as [Hret Hnw].
    split; [exact Hret |]. split; [exact Hnw |]. split.
    + pose proof (Part000_main_walk R w) as H. cbv zeta in H.
      rewrite Hempty in H. cbn [candidates filter List.length Nat.eqb negb] in H.
      destruct (store_fault R (tick w)); [now destruct H as [-> _] |].
      destruct H as [w1 [Ht1 [_ [_ [_ [_ [-> _]]]]]]].
      assert (Hc : candidates false (table w1) = []) by now rewrite Ht1.
      destruct (Part000_processVehicles_empty false R w1 Hc) as [_ [-> _]].
      exact Ht1.
    + intros Henv Hs0 Hm Hs3. now apply Part000_main_empty_report.
Qed.

Lemma empty_candidate_set_stops_witness :
  In (console_log " All vehicle already have images!")
    (trace (snd (VehicleImageGenerator.processAllVehicles healthy (start [truck]))))
  /\ In (console_log " All vehicles already have images!")
       (trace (snd (Part000.processVehicles true healthy (start [truck]))))
  /\ In (console_log " No vehicles found")
       (trace (snd (Part000.main healthy (start [])))).
Proof.
  pose proof (empty_candidate_set_stops healthy (start [truck])) as H1.
  pose proof (empty_candidate_set_stops healthy (start [])) as H2.
  cbv zeta in H1, H2.
  destruct H1 as [Ha [Hb _]]. destruct H2 as [_ [_ Hc]].
  assert (Hset : forall name, In name requiredVars -> is_set (process_env healthy) name)
    by exact (proj1 healthy_reliable).
  split; [| split].
  - exact (proj2 (proj2 (Ha eq_refl) (conj Hset (conj eq_refl eq_refl)) eq_refl)).
  - exact (proj2 (proj2 (Hb true eq_refl) (conj Hset (conj eq_refl eq_refl)) eq_refl)).
  - exact (proj2 (proj2 (proj2 (proj2 (Hc eq_refl))) Hset eq_refl eq_refl eq_refl)).
Defined.

(** ** Remote calls and waiting time *)

(** One turn of the loop makes between one and three remote calls in
    part_000 (the request, the read, the write), and the clock moves by
    2000 ms exactly when the turn pauses. *)
Lemma Part000_processOne_calls onlyMissing len i v R w :
  let res := Part000.processOne onlyMissing len i v R w in
  tick w + 1 <= tick (snd res) <= tick w + 3
  /\ clock (snd res) + 2000 * occurrences is_delay (trace w)
     = clock w + 2000 * occurrences is_delay (trace (snd res))
  /\ occurrences is_delay (trace w) <= occurrences is_delay (trace (snd res)).
Proof.
  destruct w as [t c k tr]. cbv zeta.
  unfold Part000.processOne, Part000.generateVehicleImage, Part000.updateVehicleImage. run.
  destruct (images_reply R k (Part000.imageRequest (vehicletype v)))
    as [msg | [| img imgs]]; run; cbn [nth_error]; run.
  3: destruct (store_fault R (S k)); run.
  4: destruct (rows_with_id (id v) t) as [| current [| r' l]]; run.
  5: destruct (truthy (vehiclegraphic current) && negb (negb onlyMissing)); run.
  5: destruct (i <? len - 1)%nat; run.
  7: destruct (store_fault R (S (S k))); run.
  8: destruct (i <? len - 1)%nat; run.
  all: split; [lia | split; tally].
Qed.

Lemma VIG_processOne_calls len i v R w :
  let res := VehicleImageGenerator.processOne len i v R w in
  tick w + 1 <= tick (snd res) <= tick w + 2
  /\ clock (snd res) + 2000 * occurrences is_delay (trace w)
     = clock w + 2000 * occurrences is_delay (trace (snd res))
  /\ occurrences is_delay (trace w) <= occurrences is_delay (trace (snd res)).
Proof.
  destruct w as [t c k tr]. cbv zeta.
  unfold VehicleImageGenerator.processOne, VehicleImageGenerator.generateVehicleImage,
    VehicleImageGenerator.updateVehicleImage. run.
  destruct (images_reply R k (VehicleImageGenerator.imageRequest (vehicletype v)))
    as [msg | [| img imgs]]; run; cbn [nth_error]; run.
  3: destruct (store_fault R (S k)); run.
  4: destruct (i <? len - 1)%nat; run.
  all: split; [lia | split; tally].
Qed.

Lemma Part000_processFrom_calls onlyMissing len vs :
  forall i R w,
    let res := Part000.processFrom onlyMissing len i vs R w in
    tick w + List.length vs <= tick (snd res) <= tick w + 3 * List.length vs
    /\ clock (snd res) + 2000 * occurrences is_delay (trace w)
       = clock w + 2000 * occurrences is_delay (trace (snd res))
    /\ occurrences is_delay (trace w) <= occurrences is_delay (trace (snd res)).
Proof.
  induction vs as [| v rest IH]; intros i R w; cbv zeta.
  - cbn. lia.
  - cbn [Part000.processFrom]. rewrite bind_eq.
    destruct (Part000_processOne_effect onlyMissing len i v R w) as [Hret _].
    destruct (Part000_processOne_calls onlyMissing len i v R w) as [Hk [Hc Hm]].
    cbv zeta in *.
    destruct (Part000.processOne onlyMissing len i v R w) as [o w1].
    cbn [fst snd] in *. subst o.
    destruct (IH (S i) R w1) as [Hk' [Hc' Hm']]. cbv zeta in *. cbn [List.length]. lia.
Qed.

Lemma VIG_processFrom_calls len vs :
  forall i R w,
    let res := VehicleImageGenerator.processFrom len i vs R w in
    tick w + List.length vs <= tick (snd res) <= tick w + 2 * List.length vs
    /\ clock (snd res) + 2000 * occurrences is_delay (trace w)
       = clock w + 2000 * occurrences is_delay (trace (snd res))
    /\ occurrences is_delay (trace w) <= occurrences is_delay (trace (snd res)).
Proof.
  induction vs as [| v rest IH]; intros i R w; cbv zeta.
  - cbn. lia.
  - cbn [VehicleImageGenerator.processFrom]. rewrite bind_eq.
    destruct (VIG_processOne_effect len i v R w) as [Hret _].
    destruct (VIG_processOne_calls len i v R w) as [Hk [Hc Hm]].
    cbv zeta in *.
    destruct (VehicleImageGenerator.processOne len i v R w) as [o w1].
    cbn [fst snd] in *. subst o.
    destruct (IH (S i) R w1) as [Hk' [Hc' Hm']]. cbv zeta in *. cbn [List.length]. lia.
Qed.

Lemma candidates_length onlyMissing t :
  List.length (candidates onlyMissing t) <= List.length t.
Proof.
  destruct onlyMissing; cbn [candidates]; [apply filter_length_le |].
  now rewrite (Permutation_length (order_by_id_perm t)).
Qed.

Lemma later_refl w : later w w.
Proof. unfold later. lia. Qed.

Lemma later_trans a b c : later a b -> later b c -> later a c.
Proof. unfold later. lia. Qed.

Lemma later_emit e w : any_event e = true -> later w (emit e w).
Proof. intros _. exact (later_refl w). Qed.

Lemma later_next_call w : later w (next_call w).
Proof. unfold later. cbn. lia. Qed.

Lemma later_advance ms w : later w (advance ms w).
Proof. exact (later_refl w). Qed.

Lemma later_set_table t w : later w (set_table t w).
Proof. exact (later_refl w). Qed.

Ltac about_later :=
  pose proof later_refl; pose proof later_trans; pose proof later_emit;
  pose proof later_next_call; pose proof later_advance; pose proof later_set_table.

Lemma VIG_processFrom_later len i vehicles :
  keeps later (VehicleImageGenerator.processFrom len i vehicles).
Proof.
  about_later. revert i.
  induction vehicles as [| vehicle rest IH]; intros i;
    cbn [VehicleImageGenerator.processFrom]; keeps_script.
Qed.

Lemma Part000_processFrom_later onlyMissing len i vehicles :
  keeps later (Part000.processFrom onlyMissing len i vehicles).
Proof.
  about_later. revert i.
  induction vehicles as [| vehicle rest IH]; intros i;
    cbn [Part000.processFrom]; keeps_script.
Qed.
#[local] Hint Resolve VIG_processFrom_later Part000_processFrom_later : keeps.

Lemma Part000_processVehicles_later onlyMissing :
  keeps later (Part000.processVehicles onlyMissing).
Proof. about_later. keeps_script. Qed.

Lemma VIG_processAllVehicles_later :
  keeps later VehicleImageGenerator.processAllVehicles.
Proof. about_later. keeps_script. Qed.

(** A run over N candidates makes at most 3 + 3 N remote calls in part_000
    and at most 3 + 2 N in the first revision; the entry points add the
    report, and in part_000 the first selection.  The script waits in its
    pauses only, 2000 ms each, so at most 2000 (N - 1) ms in all; N is at
    most the number of rows. *)
Theorem run_budget :
  forall R w,
    (forall onlyMissing : bool,
        let res := Part000.processVehicles onlyMissing R w in
        let N := List.length (candidates onlyMissing (table w)) in
        tick w <= tick (snd res) <= tick w + 3 + 3 * N
        /\ clock (snd res)
           = clock w + 2000 * (occurrences is_delay (trace (snd res))
                               - occurrences is_delay (trace w))
        /\ clock (snd res) <= clock w + 2000 * (N - 1))
    /\ (let res := VehicleImageGenerator.processAllVehicles R w in
        let N := List.length (candidates true (table w)) in
        tick w <= tick (snd res) <= tick w + 3 + 2 * N
        /\ clock (snd res)
           = clock w + 2000 * (occurrences is_delay (trace (snd res))
                               - occurrences is_delay (trace w))
        /\ clock (snd res) <= clock w + 2000 * (N - 1))
    /\ tick (snd (Part000.main R w)) <= tick w + 5 + 3 * List.length (table w)
    /\ tick (snd (VehicleImageGenerator.main R w)) <= tick w + 4 + 2 * List.length (table w).
Proof.
  intros R w.
  assert (H1 : forall (onlyMissing : bool) w,
             let res := Part000.processVehicles onlyMissing R w in
             let N := List.length (candidates onlyMissing (table w)) in
             tick w <= tick (snd res) <= tick w + 3 + 3 * N
             /\ clock (snd res)
                = clock w + 2000 * (occurrences is_delay (trace (snd res))
                                    - occurrences is_delay (trace w))
             /\ clock (snd res) <= clock w + 2000 * (N - 1)).
  { clear w. intros onlyMissing w. cbv zeta.
    pose proof (Part000_processVehicles_walk onlyMissing R w) as H. cbv zeta in H.
    destruct (reaches_candidates R w && _).
    - destruct H as [w3 [_ [Hk3 [Hc3 [Hp3 [_ [_ [Hk [Hc Hp]]]]]]]]].
      apply passively_requests in Hp3. apply passively_requests in Hp.
      destruct (Part000_processFrom_calls onlyMissing
                  (List.length (candidates onlyMissing (table w)))
                  (candidates onlyMissing (table w)) 0 R w3) as [Hkl [Hcl Hml]].
      destruct (Part000_processFrom_effect onlyMissing
                  (List.length (candidates onlyMissing (table w)))
                  (candidates onlyMissing (table w)) 0 R w3) as [_ [_ [_ Hdel]]].
      cbv zeta in *. rewrite pauses_all in Hdel. lia.
    - destruct H as [_ [Hk [Hc Hp]]]. apply passively_requests in Hp.
      pose proof (Part000_processVehicles_later onlyMissing R w) as Hl.
      unfold later in Hl.
      lia. }
  assert (H2 : forall w,
             let res := VehicleImageGenerator.processAllVehicles R w in
             let N := List.length (candidates true (table w)) in
             tick w <= tick (snd res) <= tick w + 3 + 2 * N
             /\ clock (snd res)
                = clock w + 2000 * (occurrences is_delay (trace (snd res))
                                    - occurrences is_delay (trace w))
             /\ clock (snd res) <= clock w + 2000 * (N - 1)).
  { clear w. intros w. cbv zeta.
    pose proof (VIG_processAllVehicles_walk R w) as H. cbv zeta in H.
    destruct (original_reaches_candidates R w && _).
    - destruct H as [w3 [_ [Hk3 [Hc3 [Hp3 [_ [_ [Hk [Hc Hp]]]]]]]]].
      apply passively_requests in Hp3. apply passively_requests in Hp.
      destruct (VIG_processFrom_calls (List.length (candidates true (table w)))
                  (candidates true (table w)) 0 R w3) as [Hkl [Hcl Hml]].
      destruct (VIG_processFrom_effect (List.length (candidates true (table w)))
                  (candidates true (table w)) 0 R w3) as [_ [_ [_ Hdel]]].
      cbv zeta in *. rewrite pauses_all in Hdel. lia.
    - destruct H as [_ [Hk [Hc Hp]]]. apply passively_requests in Hp.
      pose proof (VIG_processAllVehicles_later R w) as Hl. unfold later in Hl.
      lia. }
  split; [intros onlyMissing; apply H1 |]. split; [apply H2 |]. split.
  - pose proof (Part000_main_walk R w) as H. cbv zeta in H.
    destruct (store_fault R (tick w)).
    + destruct H as [_ [-> _]]. lia.
    + destruct H as [w1 [Ht1 [Hk1 [_ [_ [_ [_ [_ [_ Hk]]]]]]]]].
      destruct (H1 (negb (List.length (candidates true (table w)) =? 0)%nat) w1)
        as [Hb _]. cbv zeta in Hb.
      pose proof (candidates_length
                    (negb (List.length (candidates true (table w)) =? 0)%nat) (table w1)).
      rewrite Ht1 in *.
      destruct (fst (Part000.processVehicles _ R w1)); lia.
  - destruct (VIG_main_walk R w) as [w0 [Ht0 [Hk0 [_ [_ [_ [_ [Hk _]]]]]]]].
    cbv zeta in *. destruct (H2 w0) as [Hb _]. cbv zeta in Hb.
    pose proof (candidates_length true (table w0)). rewrite Ht0 in *. lia.
Qed.

(** ** Successful runs, and running again *)

Lemma VIG_processOne_reliable len i v R w :
  reliable R ->
  exists k img rest,
    images_reply R k (VehicleImageGenerator.imageRequest (vehicletype v))
    = inr (img :: rest)
    /\ table (snd (VehicleImageGenerator.processOne len i v R w))
       = map (write_image (id v) (url img) (clock w)) (table w).
Proof.
  intros [_ [Hstore [_ Himages]]]. destruct w as [t c k tr].
  destruct (Himages k (VehicleImageGenerator.imageRequest (vehicletype v)))
    as [img [rest Hreply]].
  exists k, img, rest. split; [exact Hreply |].
  unfold VehicleImageGenerator.processOne, VehicleImageGenerator.generateVehicleImage,
    VehicleImageGenerator.updateVehicleImage. run.
  rewrite Hreply. run. cbn [nth_error]. run. rewrite !Hstore. run.
  destruct (i <? len - 1)%nat; reflexivity.
Qed.

Lemma VIG_processFrom_reliable len R :
  reliable R ->
  forall vs i w,
    NoDup (map id vs) ->
    (forall v, In v vs -> rows_with_id (id v) (table w) = [v]) ->
    Forall2 (fun r r' => if existsb (Z.eqb (id r)) (map id vs)
                         then original_fresh_image R r r' else r' = r)
      (table w) (table (snd (VehicleImageGenerator.processFrom len i vs R w))).
Proof.
  intros HR. induction vs as [| v rest IH]; intros i w Hnodup Hrows.
  - cbn. apply Forall2_same. reflexivity.
  - cbn [VehicleImageGenerator.processFrom]. rewrite bind_eq.
    destruct (VIG_processOne_reliable len i v R w HR) as [k [img [more [Hreply Htab]]]].
    destruct (VIG_processOne_effect len i v R w) as [Hret _]. cbv zeta in *.
    destruct (VehicleImageGenerator.processOne len i v R w) as [o w1].
    cbn [fst snd] in *. subst o.
    cbn [map] in Hnodup. apply NoDup_cons_iff in Hnodup. destruct Hnodup as [Hnotin Hnd].
    assert (Hall := IH (S i) w1 Hnd). rewrite Htab in Hall.
    assert (Hrest : forall v', In v' rest ->
               rows_with_id (id v') (map (write_image (id v) (url img) (clock w)) (table w))
               = [v']).
    { intros v' Hin'. rewrite rows_with_id_write_other; [apply Hrows; now right |].
      intros Heq. apply Hnotin. rewrite <- Heq. now apply in_map. }
    specialize (Hall Hrest).
    apply (Forall2_map_In _ _ _ _ _ Hall).
    intros r r2 Hin. rewrite id_write_image. cbn [map existsb].
    destruct (Z.eqb (id r) (id v)) eqn:Hid; cbn [orb].
    + assert (Hno : existsb (Z.eqb (id r)) (map id rest) = false).
      { destruct (existsb (Z.eqb (id r)) (map id rest)) eqn:E; [| reflexivity].
        apply existsb_id_In in E. apply Z.eqb_eq in Hid. rewrite Hid in E.
        contradiction. }
      rewrite Hno. intros ->.
      assert (Hr : r = v).
      { apply Z.eqb_eq in Hid.
        pose proof (rows_with_id_In (id v) (table w) r Hin Hid) as H.
        rewrite (Hrows v (or_introl eq_refl)) in H. destruct H as [<- | []].
        reflexivity. }
      subst r. unfold write_image. rewrite Hid. unfold original_fresh_image. cbn.
      split; [reflexivity |]. split; [reflexivity |]. exists k, img, more. now split.
    + unfold write_image. rewrite Hid. tauto.
Qed.

Lemma VIG_processAllVehicles_reliable R w :
  reliable R ->
  NoDup (map id (table w)) ->
  Forall2 (original_filled R)
    (table w) (table (snd (VehicleImageGenerator.processAllVehicles R w))).
Proof.
  intros HR Hnd.
  pose proof (VIG_processAllVehicles_walk R w) as H. cbv zeta in H.
  destruct (candidates_rows true (table w) Hnd) as [Hnd' Hrows].
  assert (Hreach : original_reaches_candidates R w = true).
  { destruct HR as [Henv [Hstore [Hmodels _]]]. unfold original_reaches_candidates.
    rewrite !Hstore, Hmodels, andb_true_r. now apply all_set_forallb. }
  rewrite Hreach in H. cbn [andb] in H.
  destruct (List.length (candidates true (table w)) =? 0)%nat eqn:E; cbn [negb] in H.
  2: {
    destruct H as [w3 [Ht3 [_ [_ [_ [_ [Ht _]]]]]]]. rewrite Ht, <- Ht3.
    assert (Hall := VIG_processFrom_reliable
                      (List.length (candidates true (table w))) R HR
                      (candidates true (table w)) 0 w3 Hnd').
    rewrite Ht3 in *. specialize (Hall (fun v Hv => proj1 (proj2 (Hrows v Hv)))).
    apply (Forall2_impl_In _ _ _ _ Hall).
    intros r r2 Hin. unfold original_filled. cbn [candidates].
    destruct (is_null (vehiclegraphic r)) eqn:Hnull.
    + assert (Hid : existsb (Z.eqb (id r))
                      (map id (filter (fun r => is_null (vehiclegraphic r)) (table w)))
                    = true).
      { apply existsb_id_In. apply in_map. apply filter_In. now split. }
      now rewrite Hid.
    + destruct (existsb (Z.eqb (id r))
                  (map id (filter (fun r => is_null (vehiclegraphic r)) (table w))))
        eqn:Hid; [| tauto].
      apply existsb_id_In in Hid. apply in_map_iff in Hid.
      destruct Hid as [r' [Hid' Hin']]. apply filter_In in Hin'.
      destruct Hin' as [Hin' Hnull'].
      assert (r' = r) by (apply (NoDup_map_id_inj (table w)); assumption).
      subst r'. congruence. }
  destruct H as [Ht _]. rewrite Ht. apply length_zero_nil in E.
  apply (Forall2_impl_In (fun r r' => r' = r)); [apply Forall2_same; reflexivity |].
  intros r r' Hin ->. unfold original_filled.
  destruct (is_null (vehiclegraphic r)) eqn:Hnull; [| reflexivity].
  assert (Hc : In r (candidates true (table w))) by (apply filter_In; now split).
  rewrite E in Hc. contradiction.
Qed.

Lemma Part000_processVehicles_outcome (onlyMissing : bool) R w :
  reliable R ->
  NoDup (map id (table w)) ->
  let res := Part000.processVehicles onlyMissing R w in
  fst res = Return tt
  /\ Forall2 (fun r r' => if onlyMissing then filled R r r' else fresh_image R r r')
       (table w) (table (snd res)).
Proof.
  intros HR Hnd. cbv zeta.
  destruct (Part000_processVehicles_reliable onlyMissing R w HR Hnd) as [Hret Hall].
  cbv zeta in *. split; [exact Hret |].
  apply (Forall2_impl_In _ _ _ _ Hall). intros r r2 Hin. unfold processed.
  destruct onlyMissing; cbn [candidates].
  - unfold filled. destruct (is_null (vehiclegraphic r)) eqn:Hnull.
    + assert (Hid : existsb (Z.eqb (id r))
                      (map id (filter (fun r => is_null (vehiclegraphic r)) (table w)))
                    = true).
      { apply existsb_id_In. apply in_map. apply filter_In. now split. }
      now rewrite Hid.
    + destruct (existsb (Z.eqb (id r))
                  (map id (filter (fun r => is_null (vehiclegraphic r)) (table w))))
        eqn:Hid; [| tauto].
      apply existsb_id_In in Hid. apply in_map_iff in Hid.
      destruct Hid as [r' [Hid' Hin']]. apply filter_In in Hin'.
      destruct Hin' as [Hin' Hnull'].
      assert (r' = r) by (apply (NoDup_map_id_inj (table w)); assumption).
      subst r'. congruence.
  - assert (Hid : existsb (Z.eqb (id r)) (map id (order_by_id (table w))) = true).
    { apply existsb_id_In. apply in_map.
      eapply Permutation_in; [symmetry; apply order_by_id_perm | exact Hin]. }
    now rewrite Hid.
Qed.

(** When every row ends with a reference and its identifier, no row lacks
    a reference afterwards and the identifiers are the same. *)
Lemma no_candidate_left (Q : vehicle -> vehicle -> Prop) t t' :
  (forall r r', Q r r' -> id r' = id r /\ vehiclegraphic r' <> None) ->
  Forall2 Q t t' ->
  candidates true t' = [] /\ map id t' = map id t.
Proof.
  intros HQ H. induction H as [| r r' t t' Hr _ [IH1 IH2]]; [now split |].
  cbn [candidates filter map] in *. destruct (HQ r r' Hr) as [-> Hset].
  destruct (vehiclegraphic r'); [| contradiction]. cbn [is_null].
  split; [exact IH1 | now rewrite IH2].
Qed.

Lemma fresh_image_set R r r' :
  fresh_image R r r' -> id r' = id r /\ vehiclegraphic r' <> None.
Proof.
  intros [Hid [_ [k [img [rest [_ Himg]]]]]]. split; [exact Hid |].
  rewrite Himg. discriminate.
Qed.

Lemma original_fresh_image_set R r r' :
  original_fresh_image R r r' -> id r' = id r /\ vehiclegraphic r' <> None.
Proof.
  intros [Hid [_ [k [img [rest [_ Himg]]]]]]. split; [exact Hid |].
  rewrite Himg. discriminate.
Qed.

Lemma filled_set R r r' :
  filled R r r' -> id r' = id r /\ vehiclegraphic r' <> None.
Proof.
  unfold filled. destruct (is_null (vehiclegraphic r)) eqn:E.
  - apply fresh_image_set.
  - intros ->. split; [reflexivity |]. destruct (vehiclegraphic r); discriminate.
Qed.

Lemma original_filled_set R r r' :
  original_filled R r r' -> id r' = id r /\ vehiclegraphic r' <> None.
Proof.
  unfold original_filled. destruct (is_null (vehiclegraphic r)) eqn:E.
  - apply original_fresh_image_set.
  - intros ->. split; [reflexivity |]. destruct (vehiclegraphic r); discriminate.
Qed.

(** Against reliable services, on a table of safe, pairwise different
    identifiers, the run of the first revision gives every row without
    reference a url returned by the provider for its category and leaves
    every other row as it is; so does its entry point. *)
Theorem processAllVehicles_fills_missing_images :
  forall R w,
    reliable R ->
    NoDup (map id (table w)) ->
    safe_ids (table w) ->
    Forall2 (original_filled R)
      (table w) (table (snd (VehicleImageGenerator.processAllVehicles R w)))
    /\ Forall2 (original_filled R)
         (table w) (table (snd (VehicleImageGenerator.main R w))).
Proof.
  intros R w HR Hnd _. split; [now apply VIG_processAllVehicles_reliable |].
  destruct (VIG_main_walk R w) as [w0 [Ht0 [_ [_ [_ [Ht _]]]]]]. cbv zeta in Ht.
  rewrite Ht, <- Ht0. apply VIG_processAllVehicles_reliable; [exact HR |].
  now rewrite Ht0.
Qed.

Lemma processAllVehicles_fills_missing_images_witness :
  Forall2 (original_filled healthy) [sedan; truck; coupe]
    (table (snd (VehicleImageGenerator.main healthy (start [sedan; truck; coupe])))).
Proof.
  refine (proj2 (processAllVehicles_fills_missing_images healthy
                   (start [sedan; truck; coupe]) healthy_reliable _ _)).
  - repeat constructor; simpl; intuition discriminate.
  - safe_ids_small.
Defined.

(** The store is the checkpoint.  After an incremental run against reliable
    services, on a table of safe, pairwise different identifiers, no row
    lacks a reference, so a second incremental run selects nothing: whatever the services do then, it requests no image, sends no
    write and leaves the table as it is.  This holds for [processVehicles
    true] of part_000 and for [processAllVehicles] of the first revision. *)
Theorem incremental_rerun_does_nothing :
  forall R w,
    reliable R ->
    NoDup (map id (table w)) ->
    safe_ids (table w) ->
    (let w1 := snd (Part000.processVehicles true R w) in
     candidates true (table w1) = []
     /\ forall R', no_work w1 (snd (Part000.processVehicles true R' w1))
                   /\ table (snd (Part000.processVehicles true R' w1)) = table w1)
    /\ (let w1 := snd (VehicleImageGenerator.processAllVehicles R w) in
        candidates true (table w1) = []
        /\ forall R', no_work w1 (snd (VehicleImageGenerator.processAllVehicles R' w1))
                      /\ table (snd (VehicleImageGenerator.processAllVehicles R' w1))
                         = table w1).
Proof.
  intros R w HR Hnd _. split; cbv zeta.
  - destruct (Part000_processVehicles_outcome true R w HR Hnd) as [_ Hall].
    cbv zeta in Hall.
    destruct (no_candidate_left (filled R) _ _ (filled_set R) Hall) as [Hnone _].
    split; [exact Hnone |]. intros R'.
    destruct (Part000_processVehicles_empty true R'
                (snd (Part000.processVehicles true R w)) Hnone) as [Hnw [Ht _]].
    now split.
  - pose proof (VIG_processAllVehicles_reliable R w HR Hnd) as Hall.
    destruct (no_candidate_left (original_filled R) _ _ (original_filled_set R) Hall)
      as [Hnone _].
    split; [exact Hnone |]. intros R'.
    destruct (VIG_processAllVehicles_empty R'
                (snd (VehicleImageGenerator.processAllVehicles R w)) Hnone)
      as [_ [Hnw [Ht _]]].
    now split.
Qed.

Lemma incremental_rerun_does_nothing_witness :
  candidates true
    (table (snd (Part000.processVehicles true healthy (start [sedan; truck; coupe]))))
  = []
  /\ no_work (snd (Part000.processVehicles true healthy (start [sedan; truck; coupe])))
       (snd (Part000.processVehicles true first_request_rejected
               (snd (Part000.processVehicles true healthy
                       (start [sedan; truck; coupe]))))).
Proof.
  assert (Hnd : NoDup (map id (table (start [sedan; truck; coupe])))).
  { repeat constructor; simpl; intuition discriminate. }
  assert (Hsafe : safe_ids (table (start [sedan; truck; coupe]))) by safe_ids_small.
  destruct (incremental_rerun_does_nothing healthy (start [sedan; truck; coupe])
              healthy_reliable Hnd Hsafe) as [[H1 H2] _].
  split; [exact H1 | exact (proj1 (H2 first_request_rejected))].
Defined.

(** The entry point of part_000 run twice, on a table of safe, pairwise
    different identifiers.  After a first run against reliable services no
    row lacks a reference, in either mode; so a second
    start of the script finds nothing missing, takes the regeneration mode,
    requests one image per row of the table and gives every row a fresh
    reference. *)
Theorem second_start_regenerates_everything :
  forall R R' w,
    reliable R ->
    reliable R' ->
    NoDup (map id (table w)) ->
    safe_ids (table w) ->
    let w1 := snd (Part000.main R w) in
    let w2 := snd (Part000.main R' w1) in
    candidates true (table w1) = []
    /\ Forall2 (fresh_image R') (table w1) (table w2)
    /\ occurrences is_generate (trace w2)
       = occurrences is_generate (trace w1) + List.length (table w).
Proof.
  intros R R' w HR HR' Hnd _. cbv zeta.
  (* the first run *)
  pose proof (Part000_main_walk R w) as H1. cbv zeta in H1.
  pose proof HR as [_ [Hstore _]]. rewrite Hstore in H1.
  destruct H1 as [wa [Hta [_ [_ [_ [_ [Ht1 _]]]]]]].
  assert (Hnda : NoDup (map id (table wa))) by now rewrite Hta.
  destruct (Part000_processVehicles_outcome
              (negb (List.length (candidates true (table w)) =? 0)%nat) R wa HR Hnda)
    as [_ Hall].
  cbv zeta in Hall. rewrite <- Ht1, Hta in Hall.
  assert (Hafter : candidates true (table (snd (Part000.main R w))) = []
                   /\ map id (table (snd (Part000.main R w))) = map id (table w)).
  { destruct (negb (List.length (candidates true (table w)) =? 0)%nat).
    - apply (no_candidate_left (filled R)); [apply filled_set | exact Hall].
    - apply (no_candidate_left (fresh_image R)); [apply fresh_image_set | exact Hall]. }
  destruct Hafter as [Hnone Hids].
  split; [exact Hnone |].
  (* the second run *)
  set (w1 := snd (Part000.main R w)) in *.
  pose proof (Part000_main_walk R' w1) as H2. cbv zeta in H2.
  pose proof HR' as [_ [Hstore' _]]. rewrite Hstore' in H2.
  rewrite Hnone in H2. cbn [List.length Nat.eqb negb] in H2.
  destruct H2 as [wb [Htb [_ [_ [Hpb [_ [Ht2 [_ [Hp2 _]]]]]]]]].
  assert (Hndb : NoDup (map id (table wb))) by (rewrite Htb, Hids; exact Hnd).
  destruct (Part000_processVehicles_outcome false R' wb HR' Hndb) as [_ Hall2].
  cbv zeta in Hall2. rewrite <- Ht2, Htb in Hall2.
  split; [exact Hall2 |].
  destruct (Part000_processVehicles_requests false R' wb) as [Hreq _].
  cbv zeta in Hreq.
  assert (Hreach : reaches_candidates R' wb = true).
  { destruct HR' as [Henv [Hs [Hm _]]]. unfold reaches_candidates.
    rewrite Hs, Hm. now rewrite (proj2 (missingVars_nil _) Henv). }
  rewrite Hreach in Hreq.
  apply passively_requests in Hpb. apply passively_requests in Hp2.
  destruct Hpb as [Hb _]. destruct Hp2 as [H2r _].
  rewrite !occurrences_generate_requests, H2r, Hreq, Hb, length_app, length_map.
  cbn [candidates]. rewrite (Permutation_length (order_by_id_perm (table wb))), Htb.
  f_equal. rewrite <- (length_map id (table w1)), Hids. apply length_map.
Qed.

Lemma second_start_regenerates_everything_witness :
  table (snd (Part000.main healthy (snd (Part000.main healthy (start [sedan; truck])))))
  <> table (snd (Part000.main healthy (start [sedan; truck])))
  /\ occurrences is_generate
       (trace (snd (Part000.main healthy
                      (snd (Part000.main healthy (start [sedan; truck]))))))
     = occurrences is_generate (trace (snd (Part000.main healthy (start [sedan; truck]))))
       + 2.
Proof.
  split; [vm_compute; discriminate |].
  refine (proj2 (proj2 (second_start_regenerates_everything healthy healthy
                          (start [sedan; truck]) healthy_reliable healthy_reliable _ _))).
  - repeat constructor; simpl; intuition discriminate.
  - safe_ids_small.
Defined.

(** When the store rejects the first selection, the entry point of part_000
    does nothing else: one remote call, no check of the services, no run,
    no report; the error is printed twice and the script ends normally. *)
Theorem main_stops_when_first_selection_fails :
  forall R w msg,
    store_fault R (tick w) = Some msg ->
    let res := Part000.main R w in
    fst res = Return tt
    /\ table (snd res) = table w
    /\ tick (snd res) = S (tick w)
    /\ trace (snd res)
       = (trace w
          ++ [console_log "Vehicle Image Generator Starting...";
              console_log ("=====================================" ++ nl);
              store_is_null;
              console_error " Error fetching vehicle:" (Some (PostgrestError msg));
              console_error "Error in main process:" (Some (PostgrestError msg))])%list.
Proof.
  intros R w msg Hfault. cbv zeta.
  pose proof (Part000_main_walk R w) as H. cbv zeta in H. rewrite Hfault in H.
  destruct H as [Ht [Hk [_ Htr]]].
  split; [| now repeat split].
  unfold Part000.main. rewrite !log_bind. apply caught_and_logged.
Qed.

Lemma main_stops_when_first_selection_fails_witness :
  table (snd (Part000.main (store_fails_at 0) (start [sedan]))) = [sedan]
  /\ tick (snd (Part000.main (store_fails_at 0) (start [sedan]))) = 1.
Proof.
  destruct (main_stops_when_first_selection_fails (store_fails_at 0) (start [sedan])
              "fetch failed" eq_refl) as [_ [H1 [H2 _]]].
  split; [exact H1 | exact H2].
Defined.


(** ** The checks before a run *)

(** The reachability checks never throw: a failure is logged and turned
    into [false].  [testConnection] and [testOpenAIConnection] make one
    remote call each and return whether it was answered; [testConnection]
    prints the number of rows, or the error of the store.  [testConnections] of part_000 makes no
    remote call when a variable is missing and two otherwise, and returns
    [true] exactly when the configuration is complete and the provider
    answers.  None of them touches the table. *)
Theorem reachability_checks_return_booleans :
  forall R w,
    (let res := VehicleImageGenerator.testConnection R w in
     fst res = Return (match store_fault R (tick w) with None => true | Some _ => false end)
     /\ tick (snd res) = S (tick w) /\ table (snd res) = table w
     /\ In (match store_fault R (tick w) with
            | None =>
                console_log (" Found " ++ string_of_nat (List.length (table w))
                             ++ " vehicle(s) in database")
            | Some msg =>
                console_error " Database connection failed:" (Some (PostgrestError msg))
            end) (trace (snd res)))
    /\ (let res := VehicleImageGenerator.testOpenAIConnection R w in
        fst res = Return (match models_fault R (tick w) with
                          | None => true
                          | Some _ => false
                          end)
        /\ tick (snd res) = S (tick w) /\ table (snd res) = table w)
    /\ (let res := Part000.testConnections R w in
        fst res = Return (match Part000.missingVars (process_env R),
                                models_fault R (S (tick w)) with
                          | [], None => true
                          | _, _ => false
                          end)
        /\ tick (snd res) = match Part000.missingVars (process_env R) with
                            | [] => S (S (tick w))
                            | _ => tick w
                            end
        /\ table (snd res) = table w).
Proof.
  intros R w. destruct w as [t c k tr]. cbv zeta. cbn [tick table]. split; [| split].
  - unfold VehicleImageGenerator.testConnection. run.
    destruct (store_fault R k); run; repeat split;
      apply in_or_app; right; now left.
  - unfold VehicleImageGenerator.testOpenAIConnection. run.
    destruct (models_fault R k); run; now repeat split.
  - unfold Part000.testConnections. run.
    destruct (Part000.missingVars (process_env R)) as [| name l];
      cbn [List.length Nat.ltb Nat.leb]; run; [| now repeat split].
    destruct (store_fault R k); run; destruct (models_fault R (S k)); run;
      now repeat split.
Qed.

(** Called with a required variable missing or empty, the run methods stop
    at the configuration check: no remote call, no image requested, nothing
    written, a normal return.  The first revision prints that the check
    failed; part_000 prints the names that are missing and nothing else. *)
Theorem missing_configuration_stops_the_run :
  forall R w,
    Part000.missingVars (process_env R) <> [] ->
    (let res := VehicleImageGenerator.processAllVehicles R w in
     fst res = Return tt /\ tick (snd res) = tick w /\ table (snd res) = table w
     /\ no_work w (snd res)
     /\ In (console_error " Environment variable check failed." None) (trace (snd res)))
    /\ (forall onlyMissing : bool,
          let res := Part000.processVehicles onlyMissing R w in
          fst res = Return tt /\ tick (snd res) = tick w /\ table (snd res) = table w
          /\ trace (snd res)
             = (trace w
                ++ [console_log " Testing connections...";
                    console_error (" Missing environment variables: "
                                   ++ join ", " (Part000.missingVars (process_env R)))
                      None])%list).
Proof.
  intros R w Hmiss.
  assert (Henv : forallb (fun name => truthy (process_env R name)) requiredVars = false).
  { destruct (forallb _ requiredVars) eqn:E; [| reflexivity].
    pose proof (proj2 (all_set_forallb (process_env R)) E) as Hall.
    now apply missingVars_nil in Hall. }
  split.
  - cbv zeta.
    destruct (VIG_processAllVehicles_preflight R w)
      as [w3 [k [Hnw [Htab [_ [_ [_ [Heq [Hstop _]]]]]]]]].
    cbv zeta in *. destruct (Hstop Henv) as [Htick ->]. rewrite Heq.
    destruct w3 as [t3 c3 k3 tr3]. run. unfold no_work in *. cbn [trace tick table] in *.
    split; [reflexivity |]. split; [exact Htick |]. split; [exact Htab |].
    split; [split; tally |]. apply in_or_app; right; now left.
  - intros onlyMissing. destruct w as [t c k tr]. cbv zeta.
    unfold Part000.processVehicles, Part000.testConnections. run.
    destruct (Part000.missingVars (process_env R)) as [| name l]; [contradiction |].
    cbn [List.length Nat.ltb Nat.leb]. run. rewrite <- app_assoc. now repeat split.
Qed.

Lemma missing_configuration_stops_the_run_witness :
  tick (snd (VehicleImageGenerator.processAllVehicles unconfigured (start [sedan]))) = 0
  /\ tick (snd (Part000.processVehicles true unconfigured (start [sedan]))) = 0.
Proof.
  assert (Hmiss : Part000.missingVars (process_env unconfigured) <> []) by discriminate.
  destruct (missing_configuration_stops_the_run unconfigured (start [sedan]) Hmiss)
    as [H1 H2].
  split; [exact (proj1 (proj2 H1)) | exact (proj1 (proj2 (H2 true)))].
Defined.
